(** * getMailDataCsv: mail-to-CSV conversion, filter rule engine

    A shallow embedding of the filter rule engine and of the record
    normalisation helpers of [getMailDataCsv.py] (POP3 entry point) and
    [getMailDataCsvFromEml.py] (EML entry point).

    Python [str] values are modelled by [string]; a character stands for
    the code point of the same number, so the model covers the code points
    U+0000..U+00FF.  On that range [re.IGNORECASE] relates a keyword letter
    only to its two ASCII cases, and [str.upper] takes no string onto one
    that starts with a keyword unless it starts with an ASCII case variant
    of that keyword.  The text given to [extract_body_content] may hold the
    byte order mark U+FEFF as well, which that function deletes.

    The interpreter is taken with its defaults: [int] refuses a string of
    more than 4300 digits ([sys.get_int_max_str_digits]), and the stack
    holds 1000 frames ([sys.getrecursionlimit]).  The parsers are modelled
    without a bound on the stack; the properties on nested rules state the
    bound under which they hold. *)

From Stdlib Require Import ZArith Lia Bool Ascii String DecimalString.
From stdpp Require Import base option list sorting.

Local Open Scope string_scope.
Local Open Scope list_scope.

Infix "+:+" := String.append (at level 60, right associativity).

(** ** Characters and strings *)

Module Str.

Definition code (c : ascii) : N := N_of_ascii c.

(** [str.isspace] / the regex class [\s] on U+0000..U+00FF. *)
Definition is_space (c : ascii) : bool :=
  let n := code c in
  ((9 <=? n) && (n <=? 13) || (28 <=? n) && (n <=? 32)
   || (n =? 133) || (n =? 160))%N.

Definition is_digit (c : ascii) : bool :=
  let n := code c in ((48 <=? n) && (n <=? 57))%N.

(** ASCII case mapping, used wherever the source compares against an
    upper-case keyword. *)
Definition upper (c : ascii) : ascii :=
  let n := code c in
  if ((97 <=? n) && (n <=? 122))%N then ascii_of_N (n - 32) else c.

Definition lower (c : ascii) : ascii :=
  let n := code c in
  if ((65 <=? n) && (n <=? 90))%N then ascii_of_N (n + 32) else c.

Fixpoint map (f : ascii -> ascii) (s : string) : string :=
  match s with
  | EmptyString => EmptyString
  | String c s' => String (f c) (map f s')
  end.

(** [s.startswith(p)], returning the rest of [s]. *)
Fixpoint strip_prefix (p s : string) : option string :=
  match p, s with
  | EmptyString, _ => Some s
  | String a p', String c s' =>
      if Ascii.eqb a c then strip_prefix p' s' else None
  | String _ _, EmptyString => None
  end.

(** Case-insensitive prefix test against an upper-case keyword [kw]:
    both [re.IGNORECASE] matching of the literal [kw] and
    [s.upper().startswith(kw)]. *)
Fixpoint strip_prefix_ci (kw s : string) : option string :=
  match kw, s with
  | EmptyString, _ => Some s
  | String k kw', String c s' =>
      if Ascii.eqb k (upper c) then strip_prefix_ci kw' s' else None
  | String _ _, EmptyString => None
  end.

Definition startswith (p s : string) : bool :=
  match strip_prefix p s with Some _ => true | None => false end.
Definition startswith_ci (kw s : string) : bool :=
  match strip_prefix_ci kw s with Some _ => true | None => false end.

Fixpoint last (s : string) : option ascii :=
  match s with
  | EmptyString => None
  | String c EmptyString => Some c
  | String _ s' => last s'
  end.

(** All characters but the last one. *)
Fixpoint init (s : string) : string :=
  match s with
  | EmptyString => EmptyString
  | String _ EmptyString => EmptyString
  | String c s' => String c (init s')
  end.

Definition endswith_char (c : ascii) (s : string) : bool :=
  match last s with
  | Some d => Ascii.eqb c d
  | None => false
  end.

Fixpoint forallb (p : ascii -> bool) (s : string) : bool :=
  match s with
  | EmptyString => true
  | String c s' => p c && forallb p s'
  end.

(** The longest prefix of characters satisfying [p]. *)
Fixpoint take_while (p : ascii -> bool) (s : string) : string :=
  match s with
  | EmptyString => EmptyString
  | String c s' => if p c then String c (take_while p s') else EmptyString
  end.

Fixpoint drop_while (p : ascii -> bool) (s : string) : string :=
  match s with
  | EmptyString => EmptyString
  | String c s' => if p c then drop_while p s' else s
  end.

Fixpoint drop (n : nat) (s : string) : string :=
  match n, s with
  | O, _ => s
  | S n', String _ s' => drop n' s'
  | S _, EmptyString => EmptyString
  end.

Fixpoint take (n : nat) (s : string) : string :=
  match n, s with
  | S n', String c s' => String c (take n' s')
  | _, _ => EmptyString
  end.

Definition concat (l : list string) : string :=
  fold_right String.append EmptyString l.

Definition lstrip (s : string) : string := drop_while is_space s.

Fixpoint rstrip (s : string) : string :=
  match s with
  | EmptyString => EmptyString
  | String c s' =>
      match rstrip s' with
      | EmptyString =>
          if is_space c then EmptyString else String c EmptyString
      | r => String c r
      end
  end.

(** [s.strip()]. *)
Definition strip (s : string) : string := rstrip (lstrip s).

Fixpoint contains_char (c : ascii) (s : string) : bool :=
  match s with
  | EmptyString => false
  | String d s' => Ascii.eqb c d || contains_char c s'
  end.

(** Index of the first occurrence of the upper-case [needle] in [s],
    letters compared without regard to case. *)
Fixpoint find_ci (needle s : string) : option nat :=
  if startswith_ci needle s then Some 0
  else match s with
       | EmptyString => None
       | String _ s' => option_map S (find_ci needle s')
       end.

Fixpoint find_char (c : ascii) (s : string) : option nat :=
  match s with
  | EmptyString => None
  | String d s' =>
      if Ascii.eqb c d then Some 0 else option_map S (find_char c s')
  end.

End Str.

(** ** Tokenizer

    [TOKEN_REGEX] and [tokenize] are textually the same in both entry
    points (the POP3 copy additionally builds an unused [compact] string).
    The matchers below return the length of the text matched at the start
    of their argument. *)

Definition nl : ascii := ascii_of_N 10.

Definition non_space (c : ascii) : bool := negb (Str.is_space c).

(** The regex tail [.*?/] (no [re.DOTALL]): the shortest run of characters
    other than a line feed that is followed by a slash; the length counts
    the slash. *)
Fixpoint lazy_to_slash (s : string) : option nat :=
  match s with
  | EmptyString => None
  | String c s' =>
      if Ascii.eqb c "/" then Some 1
      else if Ascii.eqb c nl then None
      else option_map S (lazy_to_slash s')
  end.

(** [KW:/.*?/] under [re.IGNORECASE]. *)
Definition match_regex_pred (kw s : string) : option nat :=
  match Str.strip_prefix_ci (kw +:+ ":/") s with
  | Some rest =>
      option_map (fun n => String.length kw + 2 + n) (lazy_to_slash rest)
  | None => None
  end.

(** [DATE[<>]=?\S+]: whichever way [=?] is resolved, the text matched is
    [DATE], one of [<] [>], and the longest run of non-space characters,
    which must not be empty. *)
Definition match_date (s : string) : option nat :=
  match Str.strip_prefix_ci "DATE" s with
  | Some (String c rest) =>
      if Ascii.eqb c "<" || Ascii.eqb c ">" then
        match String.length (Str.take_while non_space rest) with
        | O => None
        | n => Some (5 + n)
        end
      else None
  | _ => None
  end.

Definition match_keyword (kw s : string) : option nat :=
  match Str.strip_prefix_ci kw s with
  | Some _ => Some (String.length kw)
  | None => None
  end.

Definition first_of {A} (x y : option A) : option A :=
  match x with Some _ => x | None => y end.

Infix "<|>" := first_of (at level 55, right associativity).

(** One attempt of [TOKEN_REGEX] at the start of [s]: the alternatives in
    the order of the pattern. *)
Definition match_token (s : string) : option nat :=
  match_regex_pred "SUBJECT" s <|>
  match_regex_pred "FROM" s <|>
  match_regex_pred "TO" s <|>
  match_regex_pred "CC" s <|>
  match_date s <|>
  match_keyword "AND" s <|>
  match_keyword "OR" s <|>
  match_keyword "(" s <|>
  match_keyword ")" s.

(** [TOKEN_REGEX.findall]: scan left to right; where no alternative
    matches advance by one character, after a match resume behind it.
    [skip] counts the characters of the current match still to pass. *)
Fixpoint findall (skip : nat) (s : string) : list string :=
  match s with
  | EmptyString => []
  | String _ s' =>
      match skip with
      | S k => findall k s'
      | O =>
          match match_token s with
          | Some n => Str.take n s :: findall (n - 1) s'
          | None => findall 0 s'
          end
      end
  end.

Definition is_operator (t : string) : bool :=
  String.eqb t "AND" || String.eqb t "OR".

Definition tokenize (rule : string) : list string :=
  match rule with
  | EmptyString => []
  | _ =>
      List.map (fun t => if is_operator t then Str.map Str.upper t else t)
               (findall 0 rule)
  end.

(** ** Outcomes of fallible code *)

Inductive exn : Type :=
  | ValueError (msg : string)
  | OverflowError
  | TypeError.

(** A call returns, raises, or - in the fuel-indexed parsers only - stops
    because the fuel of the model ran out. *)
Inductive outcome (A : Type) : Type :=
  | Ok (a : A)
  | Raise (e : exn)
  | OutOfFuel.

Arguments Ok {A} a.
Arguments Raise {A} e.
Arguments OutOfFuel {A}.

Definition bind {A B} (m : outcome A) (k : A -> outcome B) : outcome B :=
  match m with
  | Ok a => k a
  | Raise e => Raise e
  | OutOfFuel => OutOfFuel
  end.

Notation "'do' x <- m ; k" := (bind m (fun x => k))
  (at level 10, x name, m at level 100, k at level 200).
Notation "'do' ' p <- m ; k" := (bind m (fun x => let 'p := x in k))
  (at level 10, p pattern, m at level 100, k at level 200).

Definition raises {A} (m : outcome A) : bool :=
  match m with Raise _ => true | _ => false end.

(** ** Dates

    A [datetime] is its wall-clock reading in microseconds since
    0001-01-01T00:00:00 together with the UTC offset of its [tzinfo]
    (microseconds), [None] for a naive value. *)

Record datetime : Type := { wall : Z; tzinfo : option Z }.

Local Open Scope Z_scope.

Definition usec_per_sec : Z := 1000000.
Definition usec_per_day : Z := 86400 * usec_per_sec.

(** [JST = timezone(timedelta(hours=9))]. *)
Definition JST : Z := 9 * 3600 * usec_per_sec.

(** [dt.tzinfo or JST]. *)
Definition tz_or_JST (dt : datetime) : Z :=
  match tzinfo dt with Some off => off | None => JST end.

(** Ordering of two datetimes: aware values compare as instants, naive
    ones by wall clock, a mixed pair raises [TypeError]. *)
Definition dt_compare (a b : datetime) : outcome comparison :=
  match tzinfo a, tzinfo b with
  | Some oa, Some ob => Ok ((wall a - oa) ?= (wall b - ob))
  | None, None => Ok (wall a ?= wall b)
  | _, _ => Raise TypeError
  end.

Definition is_leap (y : Z) : bool :=
  (y mod 4 =? 0) && (negb (y mod 100 =? 0) || (y mod 400 =? 0)).

Definition days_in_month (y m : Z) : Z :=
  if m =? 2 then (if is_leap y then 29 else 28)
  else if (m =? 4) || (m =? 6) || (m =? 9) || (m =? 11) then 30 else 31.

Definition days_before_year (y : Z) : Z :=
  let p := y - 1 in p * 365 + p / 4 - p / 100 + p / 400.

Fixpoint days_before_month_from (y : Z) (n : nat) (m : Z) : Z :=
  match n with
  | O => 0
  | S n' => days_in_month y (m - 1) + days_before_month_from y n' (m - 1)
  end.

Definition days_before_month (y m : Z) : Z :=
  days_before_month_from y (Z.to_nat (m - 1)) m.

(** [datetime(y, m, d, 0, 0, 0, tzinfo=tz)]; [None] is its [ValueError]. *)
Definition make_date (y m d : Z) (off : Z) : option datetime :=
  if (1 <=? y) && (y <=? 9999) && (1 <=? m) && (m <=? 12)
     && (1 <=? d) && (d <=? days_in_month y m)
  then Some {| wall := (days_before_year y + days_before_month y m + d - 1)
                       * usec_per_day;
               tzinfo := Some off |}
  else None.

Inductive unit_t : Type := Days | Hours | Minutes.

(** [timedelta(days=n)], [timedelta(hours=n)], [timedelta(minutes=n)]:
    the day count of the normalised value may not exceed 999999999. *)
Definition timedelta (u : unit_t) (n : Z) : outcome Z :=
  let '(per_day, usec) :=
    match u with
    | Days => (1, usec_per_day)
    | Hours => (24, 3600 * usec_per_sec)
    | Minutes => (1440, 60 * usec_per_sec)
    end in
  if n / per_day <=? 999999999 then Ok (n * usec) else Raise OverflowError.

(** [dt - delta] for a non-negative [delta]: the result may not precede
    [datetime.min]. *)
Definition dt_sub (dt : datetime) (delta : Z) : outcome datetime :=
  if 0 <=? wall dt - delta
  then Ok {| wall := wall dt - delta; tzinfo := tzinfo dt |}
  else Raise OverflowError.

(** [f"{i}"] for an [int]. *)
Definition str_int (i : Z) : string := NilZero.string_of_int (Z.to_int i).

(** The number that a string of ASCII digits writes. *)
Fixpoint int_of_digits_acc (acc : Z) (s : string) : Z :=
  match s with
  | EmptyString => acc
  | String c s' =>
      int_of_digits_acc (10 * acc + (Z.of_N (Str.code c) - 48)) s'
  end.

Definition digits_value (s : string) : Z := int_of_digits_acc 0 s.

(** [sys.get_int_max_str_digits()]: [int] raises [ValueError] on a string
    of more digits, leading zeros counted. *)
Definition int_max_str_digits : nat := 4300.

Definition int_limit_exceeded (digits : nat) : exn :=
  ValueError ("Exceeds the limit (4300 digits) for integer string "
              +:+ "conversion: value has " +:+ str_int (Z.of_nat digits)
              +:+ " digits; use sys.set_int_max_str_digits() to increase "
              +:+ "the limit").

(** [int(s)] on a string of ASCII digits. *)
Definition int_of_digits (s : string) : outcome Z :=
  if Nat.ltb int_max_str_digits (String.length s)
  then Raise (int_limit_exceeded (String.length s))
  else Ok (digits_value s).

Local Close Scope Z_scope.

(** ** The Python runtime the engine calls into

    [re.compile(p, re.IGNORECASE)], [rgx.search], [datetime.fromisoformat]
    ([None] is its [ValueError]) and the clock behind [datetime.now] (UTC,
    microseconds since 0001-01-01).  Compiling a pattern yields a pattern
    object, raises [re.error] (the pattern is not a valid regular
    expression), or raises something else, as [OverflowError] does for a
    repetition count beyond the limit of the engine. *)

Inductive compiled (R : Type) : Type :=
  | Compiled (rgx : R)
  | ReError
  | CompileRaised (e : exn).

Arguments Compiled {R} rgx.
Arguments ReError {R}.
Arguments CompileRaised {R} e.

Record Runtime : Type := {
  regex : Type;
  re_compile : string -> compiled regex;
  re_search : regex -> string -> bool;
  fromisoformat : string -> option datetime;
  now_utc : Z
}.

(** ** DATE predicates

    [eval_date_token] and [DATE_REL_REGEX] are the same in both entry
    points. *)

Inductive cmp_op : Type := OpGe | OpLe | OpGt | OpLt.

(** The text after [(\S+)] must satisfy [$]: the end of the string, or a
    single final line feed. *)
Definition at_dollar (s : string) : bool :=
  match s with
  | EmptyString => true
  | String c EmptyString => Ascii.eqb c nl
  | _ => false
  end.

(** [(\S+)$]: the non-space run, when it is not empty and ends at [$]. *)
Definition match_rhs (s : string) : option string :=
  match Str.take_while non_space s with
  | EmptyString => None
  | run => if at_dollar (Str.drop_while non_space s) then Some run else None
  end.

(** [re.match] of [^DATE([<>]=?)(\S+)$] on the token under
    [re.IGNORECASE]: groups 1 and 2.  The optional [=] is tried first and
    given back when the rest cannot match without it. *)
Definition match_date_token (token : string) : option (cmp_op * string) :=
  match Str.strip_prefix_ci "DATE" token with
  | Some (String c rest) =>
      let strict := if Ascii.eqb c "<" then Some OpLt
                    else if Ascii.eqb c ">" then Some OpGt else None in
      match strict with
      | None => None
      | Some op =>
          let with_eq :=
            match rest with
            | String e rest' =>
                if Ascii.eqb e "=" then
                  option_map (pair (match op with OpLt => OpLe | _ => OpGe end))
                             (match_rhs rest')
                else None
            | EmptyString => None
            end in
          with_eq <|> option_map (pair op) (match_rhs rest)
      end
  | _ => None
  end.

(** [DATE_REL_REGEX.match(rhs)]: [^NOW-(\d+)([dhm])$] under
    [re.IGNORECASE]; [rhs] holds no white space, so [$] is its end.
    Group 1 and the unit that the lower-cased group 2 names. *)
Definition match_relative (rhs : string) : option (string * unit_t) :=
  match Str.strip_prefix_ci "NOW-" rhs with
  | Some rest =>
      match Str.take_while Str.is_digit rest,
            Str.drop_while Str.is_digit rest with
      | String d ds, String u EmptyString =>
          let digits := String d ds in
          if Ascii.eqb (Str.lower u) "d" then Some (digits, Days)
          else if Ascii.eqb (Str.lower u) "h" then Some (digits, Hours)
          else if Ascii.eqb (Str.lower u) "m" then Some (digits, Minutes)
          else None
      | _, _ => None
      end
  | None => None
  end.

(** [re.match] of [^\d{4}-\d{2}-\d{2}$] on [rhs], followed by [int] on
    the three fields of [rhs.split] at the hyphens: four, two and two
    digits, which [int] does not refuse. *)
Definition match_calendar_date (rhs : string) : option (Z * Z * Z) :=
  match rhs with
  | String y1 (String y2 (String y3 (String y4 (String s1
      (String m1 (String m2 (String s2 (String d1 (String d2
        EmptyString))))))))) =>
      let digits := [y1; y2; y3; y4; m1; m2; d1; d2] in
      if forallb Str.is_digit digits && Ascii.eqb s1 "-" && Ascii.eqb s2 "-"
      then
        let num l := digits_value (string_of_list_ascii l) in
        Some (num [y1; y2; y3; y4], num [m1; m2], num [d1; d2])
      else None
  | _ => None
  end.

Definition compare_by (op : cmp_op) (c : comparison) : bool :=
  match op, c with
  | OpGe, (Gt | Eq) => true
  | OpLe, (Lt | Eq) => true
  | OpGt, Gt => true
  | OpLt, Lt => true
  | _, _ => false
  end.

Section FilterEngine.

Context (rt : Runtime).

(** [datetime.now(tz)]. *)
Definition now (off : Z) : datetime :=
  {| wall := (now_utc rt + off)%Z; tzinfo := Some off |}.

(** The absolute branch of [eval_date_token], whose [try] turns every
    exception into [None]. *)
Definition absolute_date (rhs : string) (mail_dt : datetime)
  : option datetime :=
  match match_calendar_date rhs with
  | Some (y, mth, d) => make_date y mth d (tz_or_JST mail_dt)
  | None =>
      match fromisoformat rt rhs with
      | Some cmp_dt =>
          match tzinfo cmp_dt with
          | None => Some {| wall := wall cmp_dt;
                            tzinfo := Some (tz_or_JST mail_dt) |}
          | Some _ => Some cmp_dt
          end
      | None => None
      end
  end.

Definition eval_date_token (token : string) (mail_dt : option datetime)
  : outcome bool :=
  match match_date_token token with
  | None => Ok false
  | Some (op, rhs) =>
      match mail_dt with
      | None => Ok false
      | Some mail =>
          let compare cmp_dt :=
            do c <- dt_compare mail cmp_dt; Ok (compare_by op c) in
          match match_relative rhs with
          | Some (digits, unit) =>
              do amount <- int_of_digits digits;
              do delta <- timedelta unit amount;
              do cmp_dt <- dt_sub (now (tz_or_JST mail)) delta;
              compare cmp_dt
          | None =>
              match absolute_date rhs mail with
              | Some cmp_dt => compare cmp_dt
              | None => Ok false
              end
          end
      end
  end.

(** [re.match] of the pattern [KW:/], a greedy dot-star group, [/$] on
    the token, under [re.IGNORECASE] and [re.DOTALL]: the group.  It
    ends at the last slash that [$] can follow. *)
Definition match_pred_token (kw tok : string) : option string :=
  match Str.strip_prefix_ci (kw +:+ ":/") tok with
  | Some rest =>
      if Str.endswith_char "/" rest then Some (Str.init rest)
      else if Str.endswith_char nl rest
              && Str.endswith_char "/" (Str.init rest)
      then Some (Str.init (Str.init rest))
      else None
  | None => None
  end.

(** [re.search(pattern, subject, flags=re.IGNORECASE) is not None]
    inside [try], with [except re.error: return False]. *)
Definition search_subject (pattern subject : string) : outcome bool :=
  match re_compile rt pattern with
  | Compiled rgx => Ok (re_search rt rgx subject)
  | ReError => Ok false
  | CompileRaised e => Raise e
  end.

(** [re.compile] guarded by [except re.error: return False], then
    [any(rgx.search(addr) for addr in addrs)]. *)
Definition search_addrs (pattern : string) (addrs : list string)
  : outcome bool :=
  match re_compile rt pattern with
  | Compiled rgx => Ok (existsb (re_search rt rgx) addrs)
  | ReError => Ok false
  | CompileRaised e => Raise e
  end.

End FilterEngine.

(** Fuel that lets the recursive-descent parsers below run to completion
    on [tokens]: every call consumes a token or descends one of the
    three grammar levels. *)
Definition fuel_for (tokens : list string) : nat := 3 * length tokens + 3.

Definition unexpected_end : exn :=
  ValueError "Unexpected end of filter rule".
Definition missing_paren : exn :=
  ValueError "Missing closing parenthesis in filter rule".
Definition unexpected_token (tok : string) : exn :=
  ValueError ("Unexpected token: " +:+ tok).

(** [idx < len(tokens) and tokens[idx] == t]. *)
Definition token_is (tokens : list string) (idx : nat) (t : string) : bool :=
  match tokens !! idx with
  | Some tok => String.eqb tok t
  | None => false
  end.

(** ** The filter engine of the POP3 entry point ([getMailDataCsv.py]) *)

Module Pop3.

Section Parser.

Context (rt : Runtime) (subject : string)
        (from_addrs to_addrs cc_addrs : list string)
        (mail_dt : option datetime).

(** The predicate branches of [parse_factor]: the value of one
    predicate token.  [SUBJECT] is tested with a case-sensitive
    [startswith], the other keywords on [tok.upper()]. *)
Definition eval_predicate (tok : string) : outcome bool :=
  if Str.startswith "SUBJECT:/" tok && Str.endswith_char "/" tok then
    match match_pred_token "SUBJECT" tok with
    | None => Raise (ValueError ("Invalid SUBJECT token: " +:+ tok))
    | Some pattern => search_subject rt pattern subject
    end
  else if Str.startswith_ci "FROM:/" tok && Str.endswith_char "/" tok then
    match match_pred_token "FROM" tok with
    | None => Raise (ValueError ("Invalid FROM token: " +:+ tok))
    | Some pattern => search_addrs rt pattern from_addrs
    end
  else if Str.startswith_ci "TO:/" tok && Str.endswith_char "/" tok then
    match match_pred_token "TO" tok with
    | None => Raise (ValueError ("Invalid TO token: " +:+ tok))
    | Some pattern => search_addrs rt pattern to_addrs
    end
  else if Str.startswith_ci "CC:/" tok && Str.endswith_char "/" tok then
    match match_pred_token "CC" tok with
    | None => Raise (ValueError ("Invalid CC token: " +:+ tok))
    | Some pattern => search_addrs rt pattern cc_addrs
    end
  else if Str.startswith_ci "DATE" tok then eval_date_token rt tok mail_dt
  else Raise (unexpected_token tok).

Context (tokens : list string).

(** The three nested functions of [parse_and_eval]; the [nonlocal idx]
    is passed in and returned.  Both operands of [OR] and of [AND] are
    parsed before [value or rhs] / [value and rhs] is taken.  The [while]
    loops are the two loop functions.  The fuel bounds the number of
    calls, not the depth of the stack: each level of parentheses holds
    three frames of the interpreter ([parse_expr], [parse_term],
    [parse_factor]), and the [RecursionError] that ends a rule nested too
    deeply is outside the model. *)
Fixpoint parse_expr (fuel idx : nat) {struct fuel}
  : outcome (bool * nat) :=
  match fuel with
  | O => OutOfFuel
  | S fuel' =>
      do '(value, idx) <- parse_term fuel' idx;
      parse_expr_loop fuel' value idx
  end
with parse_expr_loop (fuel : nat) (value : bool) (idx : nat)
  {struct fuel} : outcome (bool * nat) :=
  match fuel with
  | O => OutOfFuel
  | S fuel' =>
      if token_is tokens idx "OR" then
        do '(rhs, idx) <- parse_term fuel' (idx + 1);
        parse_expr_loop fuel' (value || rhs) idx
      else Ok (value, idx)
  end
with parse_term (fuel idx : nat) {struct fuel} : outcome (bool * nat) :=
  match fuel with
  | O => OutOfFuel
  | S fuel' =>
      do '(value, idx) <- parse_factor fuel' idx;
      parse_term_loop fuel' value idx
  end
with parse_term_loop (fuel : nat) (value : bool) (idx : nat)
  {struct fuel} : outcome (bool * nat) :=
  match fuel with
  | O => OutOfFuel
  | S fuel' =>
      if token_is tokens idx "AND" then
        do '(rhs, idx) <- parse_factor fuel' (idx + 1);
        parse_term_loop fuel' (value && rhs) idx
      else Ok (value, idx)
  end
with parse_factor (fuel idx : nat) {struct fuel} : outcome (bool * nat) :=
  match fuel with
  | O => OutOfFuel
  | S fuel' =>
      match tokens !! idx with
      | None => Raise unexpected_end
      | Some tok =>
          if String.eqb tok "(" then
            do '(val, idx) <- parse_expr fuel' (idx + 1);
            if token_is tokens idx ")" then Ok (val, idx + 1)
            else Raise missing_paren
          else
            do ok <- eval_predicate tok;
            Ok (ok, idx + 1)
      end
  end.

(** [parse_and_eval] once the rule is tokenized. *)
Definition eval_tokens : outcome bool :=
  match tokens with
  | [] => Ok true
  | _ => do '(value, _) <- parse_expr (fuel_for tokens) 0; Ok value
  end.

End Parser.

Definition parse_and_eval (rt : Runtime) (rule subject : string)
    (from_addrs to_addrs cc_addrs : list string)
    (mail_dt : option datetime) : outcome bool :=
  eval_tokens rt subject from_addrs to_addrs cc_addrs mail_dt
              (tokenize rule).

(** The filter step of the per-message loop of [main]: [true] when the
    message goes on to be written, [false] when the loop [continue]s,
    either because the rule is not satisfied or because evaluating it
    raised. *)
Definition passes_filter (rt : Runtime) (FILTER_RULE subject : string)
    (from_addrs to_addrs cc_addrs : list string)
    (mail_dt : option datetime) : bool :=
  match FILTER_RULE with
  | EmptyString => true
  | _ =>
      match parse_and_eval rt FILTER_RULE subject from_addrs to_addrs
                           cc_addrs mail_dt with
      | Ok included => included
      | _ => false
      end
  end.

End Pop3.

(** ** The filter engine of the EML entry point
       ([getMailDataCsvFromEml.py]) *)

Module Eml.

Section Parser.

Context (rt : Runtime) (subject : string)
        (from_addrs to_addrs cc_addrs : list string)
        (mail_dt : option datetime).

(** The predicate branches of [parse_factor].  Every keyword is tested
    on [tok.upper()], and a token the pattern regex does not match is
    given the empty pattern. *)
Definition eval_predicate (tok : string) : outcome bool :=
  if Str.startswith_ci "SUBJECT:/" tok && Str.endswith_char "/" tok then
    let pattern := default "" (match_pred_token "SUBJECT" tok) in
    search_subject rt pattern subject
  else if Str.startswith_ci "FROM:/" tok && Str.endswith_char "/" tok then
    let pattern := default "" (match_pred_token "FROM" tok) in
    search_addrs rt pattern from_addrs
  else if Str.startswith_ci "TO:/" tok && Str.endswith_char "/" tok then
    let pattern := default "" (match_pred_token "TO" tok) in
    search_addrs rt pattern to_addrs
  else if Str.startswith_ci "CC:/" tok && Str.endswith_char "/" tok then
    let pattern := default "" (match_pred_token "CC" tok) in
    search_addrs rt pattern cc_addrs
  else if Str.startswith_ci "DATE" tok then eval_date_token rt tok mail_dt
  else Raise (unexpected_token tok).

Context (tokens : list string).

(** Here the right operand is parsed inside [val or parse_term()] and
    [val and parse_factor()]: when the left operand decides the
    result, the right one is not parsed and [idx] stays on its first
    token.  As in the POP3 engine, the depth of the stack is outside the
    model. *)
Fixpoint parse_expr (fuel idx : nat) {struct fuel}
  : outcome (bool * nat) :=
  match fuel with
  | O => OutOfFuel
  | S fuel' =>
      do '(val, idx) <- parse_term fuel' idx;
      parse_expr_loop fuel' val idx
  end
with parse_expr_loop (fuel : nat) (val : bool) (idx : nat)
  {struct fuel} : outcome (bool * nat) :=
  match fuel with
  | O => OutOfFuel
  | S fuel' =>
      if token_is tokens idx "OR" then
        if val then parse_expr_loop fuel' val (idx + 1)
        else
          do '(rhs, idx) <- parse_term fuel' (idx + 1);
          parse_expr_loop fuel' rhs idx
      else Ok (val, idx)
  end
with parse_term (fuel idx : nat) {struct fuel} : outcome (bool * nat) :=
  match fuel with
  | O => OutOfFuel
  | S fuel' =>
      do '(val, idx) <- parse_factor fuel' idx;
      parse_term_loop fuel' val idx
  end
with parse_term_loop (fuel : nat) (val : bool) (idx : nat)
  {struct fuel} : outcome (bool * nat) :=
  match fuel with
  | O => OutOfFuel
  | S fuel' =>
      if token_is tokens idx "AND" then
        if val then
          do '(rhs, idx) <- parse_factor fuel' (idx + 1);
          parse_term_loop fuel' rhs idx
        else parse_term_loop fuel' val (idx + 1)
      else Ok (val, idx)
  end
with parse_factor (fuel idx : nat) {struct fuel} : outcome (bool * nat) :=
  match fuel with
  | O => OutOfFuel
  | S fuel' =>
      match tokens !! idx with
      | None => Raise unexpected_end
      | Some tok =>
          if String.eqb tok "(" then
            do '(val, idx) <- parse_expr fuel' (idx + 1);
            if token_is tokens idx ")" then Ok (val, idx + 1)
            else Raise missing_paren
          else
            do ok <- eval_predicate tok;
            Ok (ok, idx + 1)
      end
  end.

Definition eval_tokens : outcome bool :=
  match tokens with
  | [] => Ok true
  | _ => do '(val, _) <- parse_expr (fuel_for tokens) 0; Ok val
  end.

End Parser.

Definition parse_and_eval (rt : Runtime) (rule subject : string)
    (from_addrs to_addrs cc_addrs : list string)
    (mail_dt : option datetime) : outcome bool :=
  eval_tokens rt subject from_addrs to_addrs cc_addrs mail_dt
              (tokenize rule).

(** The filter step of the per-file loop of [main]. *)
Definition passes_filter (rt : Runtime) (FILTER_RULE subject : string)
    (from_addrs to_addrs cc_addrs : list string)
    (mail_dt : option datetime) : bool :=
  match FILTER_RULE with
  | EmptyString => true
  | _ =>
      match parse_and_eval rt FILTER_RULE subject from_addrs to_addrs
                           cc_addrs mail_dt with
      | Ok ok => ok
      | _ => false
      end
  end.

End Eml.

(** ** The scan of [tokenize], with the text it passes over

    [scan] runs the scan of [findall] and keeps what lies between the
    matches: each character at which no alternative of [TOKEN_REGEX]
    matches is a [Stray] segment. *)

Inductive segment : Type :=
  | Tok (t : string)
  | Stray (c : ascii).

Fixpoint scan (skip : nat) (s : string) : list segment :=
  match s with
  | EmptyString => []
  | String c s' =>
      match skip with
      | S k => scan k s'
      | O =>
          match match_token s with
          | Some n => Tok (Str.take n s) :: scan (n - 1) s'
          | None => Stray c :: scan 0 s'
          end
      end
  end.

Definition seg_text (g : segment) : string :=
  match g with Tok t => t | Stray c => String c EmptyString end.

Definition seg_token (g : segment) : option string :=
  match g with Tok t => Some t | Stray _ => None end.

(** What is left of a segment when stray text is deleted: tokens and the
    white space between them stay. *)
Definition seg_kept (g : segment) : string :=
  match g with
  | Tok t => t
  | Stray c => if Str.is_space c then String c EmptyString else EmptyString
  end.

Definition strip_stray (rule : string) : string :=
  Str.concat (List.map seg_kept (scan 0 rule)).

(** [t] is, as a whole, one match of [TOKEN_REGEX]. *)
Definition token_shape (t : string) : bool :=
  match match_token t with
  | Some n => Nat.eqb n (String.length t)
  | None => false
  end.

Definition blank_head (s : string) : bool :=
  match s with
  | EmptyString => true
  | String c _ => Str.is_space c
  end.

Definition token_start_char (k : ascii) : bool :=
  existsb (Ascii.eqb k) (list_ascii_of_string "SFTCDAO()").

(** ** HTML normalisation

    [html_to_text] and [sanitize_html] are the same in both entry points.
    With [bs4] installed they work on the tree [BeautifulSoup] parses;
    parsing and printing belong to that library. *)

Inductive node : Type :=
  | Text (s : string)
  | Element (name : string) (attrs : list (string * string))
            (children : list node).

Record Bs4 : Type := {
  bs_parse : string -> list node;      (* BeautifulSoup(html, html.parser) *)
  bs_str : list node -> string;        (* str(soup) *)
  bs_get_text : list node -> string    (* soup.get_text with a line feed *)
}.

(** [tag.get(key, dflt)]. *)
Fixpoint attr_get (key dflt : string) (attrs : list (string * string))
  : string :=
  match attrs with
  | [] => dflt
  | (k, v) :: rest => if String.eqb k key then v else attr_get key dflt rest
  end.

(** Digits of an [int] literal, single underscores allowed between them. *)
Fixpoint int_digits (acc : Z) (after_digit : bool) (s : string) : option Z :=
  match s with
  | EmptyString => if after_digit then Some acc else None
  | String c s' =>
      if Str.is_digit c then
        int_digits (10 * acc + (Z.of_N (Str.code c) - 48))%Z true s'
      else if Ascii.eqb c "_" && after_digit then int_digits acc false s'
      else None
  end.

(** The white space that [int] accepts around a number: of the characters
    of [str.isspace], U+001C..U+001F are not among it. *)
Definition is_int_space (c : ascii) : bool :=
  let n := Str.code c in
  ((9 <=? n) && (n <=? 13) || (n =? 32) || (n =? 133) || (n =? 160))%N.

Fixpoint rstrip_int_space (s : string) : string :=
  match s with
  | EmptyString => EmptyString
  | String c s' =>
      match rstrip_int_space s' with
      | EmptyString =>
          if is_int_space c then EmptyString else String c EmptyString
      | r => String c r
      end
  end.

Fixpoint count_digits (s : string) : nat :=
  match s with
  | EmptyString => 0
  | String c s' => (if Str.is_digit c then 1 else 0) + count_digits s'
  end.

(** [int(s)] for a string: surrounding white space, an optional sign, then
    digits, at most [int_max_str_digits] of them; [None] is its
    [ValueError]. *)
Definition py_int (s : string) : option Z :=
  let body := rstrip_int_space (Str.drop_while is_int_space s) in
  if Nat.ltb int_max_str_digits (count_digits body) then None
  else
    match body with
    | String c rest =>
        if Ascii.eqb c "-" then option_map Z.opp (int_digits 0 false rest)
        else if Ascii.eqb c "+" then int_digits 0 false rest
        else int_digits 0 false (String c rest)
    | EmptyString => None
    end.

(** The body of the loop over [soup.find_all] for one [img]: [true] when
    it is [decompose]d.  An attribute that does not parse raises inside
    the [try], and the element stays. *)
Definition is_tracking_pixel (attrs : list (string * string)) : bool :=
  match py_int (attr_get "width" "0" attrs),
        py_int (attr_get "height" "0" attrs) with
  | Some w, Some h =>
      (negb (w =? 0) && (w <=? 1) || negb (h =? 0) && (h <=? 1))%Z
  | _, _ => false
  end.

Definition removed (n : node) : bool :=
  match n with
  | Element name attrs _ => String.eqb name "img" && is_tracking_pixel attrs
  | Text _ => false
  end.

(** The tree once every [img] selected above is [decompose]d: such an
    element goes with its subtree, the other nodes are cleaned inside. *)
Fixpoint strip_pixels (n : node) : node :=
  match n with
  | Text s => Text s
  | Element name attrs children =>
      Element name attrs
        ((fix go (l : list node) : list node :=
            match l with
            | [] => []
            | c :: l' =>
                if removed c then go l' else strip_pixels c :: go l'
            end) children)
  end.

Fixpoint strip_pixels_top (soup : list node) : list node :=
  match soup with
  | [] => []
  | c :: l' =>
      if removed c then strip_pixels_top l'
      else strip_pixels c :: strip_pixels_top l'
  end.

(** Every node of a tree, the roots included. *)
Fixpoint descendants (n : node) : list node :=
  n :: match n with
       | Text _ => []
       | Element _ _ children => List.concat (List.map descendants children)
       end.

(** [re.sub(pattern, repl, s)] for a pattern that never matches the empty
    string; [m] gives the length of the match at the start of its
    argument. *)
Fixpoint re_sub (m : string -> option nat) (repl : string) (skip : nat)
    (s : string) : string :=
  match s with
  | EmptyString => EmptyString
  | String c s' =>
      match skip with
      | S k => re_sub m repl k s'
      | O =>
          match m s with
          | Some (S n) => repl +:+ re_sub m repl n s'
          | _ => String c (re_sub m repl 0 s')
          end
      end
  end.

(** An opening [<name], anything, lazily, then the closing tag of the same
    name: one alternative of the script/style pattern of [html_to_text]. *)
Definition match_block (name rest : string) : option nat :=
  match Str.strip_prefix_ci name rest with
  | Some body =>
      option_map (fun i => 1 + String.length name + i
                           + (String.length name + 3))
                 (Str.find_ci ("</" +:+ name +:+ ">") body)
  | None => None
  end.

Definition match_script_style (s : string) : option nat :=
  match s with
  | String c rest =>
      if Ascii.eqb c "<"
      then match_block "SCRIPT" rest <|> match_block "STYLE" rest
      else None
  | EmptyString => None
  end.

(** [kw], white space, an optional slash when [slash] is set, [>]. *)
Definition match_simple_tag (kw : string) (slash : bool) (s : string)
  : option nat :=
  match Str.strip_prefix_ci kw s with
  | Some rest =>
      let ws := String.length (Str.take_while Str.is_space rest) in
      match Str.drop_while Str.is_space rest with
      | String c (String d _) =>
          if Ascii.eqb c ">" then Some (String.length kw + ws + 1)
          else if slash && Ascii.eqb c "/" && Ascii.eqb d ">"
          then Some (String.length kw + ws + 2)
          else None
      | String c EmptyString =>
          if Ascii.eqb c ">" then Some (String.length kw + ws + 1) else None
      | EmptyString => None
      end
  | None => None
  end.

(** [<], one or more characters other than [>], then [>]. *)
Definition match_any_tag (s : string) : option nat :=
  match s with
  | String c rest =>
      if Ascii.eqb c "<" then
        match Str.find_char ">" rest with
        | Some (S j) => Some (S j + 2)
        | _ => None
        end
      else None
  | EmptyString => None
  end.

Section Html.

(** [bs4] is an optional import; [unescape_entities] is [html.unescape]
    on a string that holds an ampersand. *)
Context (BeautifulSoup : option Bs4) (unescape_entities : string -> string).

Definition unescape (s : string) : string :=
  if Str.contains_char "&" s then unescape_entities s else s.

Definition html_to_text (html : string) : string :=
  match html with
  | EmptyString => EmptyString
  | _ =>
      match BeautifulSoup with
      | Some bs =>
          let soup := strip_pixels_top (bs_parse bs html) in
          Str.strip (unescape (bs_get_text bs soup))
      | None =>
          let text := re_sub match_script_style "" 0 html in
          let text := re_sub (match_simple_tag "<BR" true) (String nl "")
                             0 text in
          let text := re_sub (match_simple_tag "</P" false)
                             (String nl (String nl "")) 0 text in
          let text := re_sub match_any_tag "" 0 text in
          Str.strip (unescape text)
      end
  end.

Definition sanitize_html (html : string) : string :=
  match html with
  | EmptyString => EmptyString
  | _ =>
      match BeautifulSoup with
      | Some bs => bs_str bs (strip_pixels_top (bs_parse bs html))
      | None => html
      end
  end.

End Html.

(** ** Body extraction (the per-message loop of [main]) *)

Record part : Type := {
  content_disposition : option string;
  content_type : string;
  payload : option (list Byte.byte);    (* get_payload(decode=True) *)
  content_charset : option string
}.

(** [msg.is_multipart()] and, for a multipart message, [msg.walk()]. *)
Inductive message : Type :=
  | Single (p : part)
  | Multipart (walk : list part).

Definition is_Some_b {A} (x : option A) : bool :=
  match x with Some _ => true | None => false end.

Definition truthy (s : option string) : bool :=
  match s with
  | Some (String _ _) => true
  | _ => false
  end.

Section Body.

(** [bytes.decode(charset, errors=replace)], [None] when it raises, and
    the same for UTF-8, which cannot raise. *)
Context (decode : string -> list Byte.byte -> option string)
        (decode_utf8 : list Byte.byte -> string)
        (html_to_text : string -> string).

Definition part_content (p : part) : string :=
  let payload := default [] (payload p) in
  let charset := if truthy (content_charset p)
                 then default "" (content_charset p) else "utf-8" in
  match decode charset payload with
  | Some content => content
  | None => decode_utf8 payload
  end.

Definition is_attachment (p : part) : bool :=
  match content_disposition p with
  | Some d => String.eqb d "attachment"
  | None => false
  end.

(** One turn of the loop over [msg.walk()]. *)
Definition walk_step (st : option string * option string) (p : part)
  : option string * option string :=
  let '(text_body, html_raw) := st in
  if is_attachment p then st
  else
    let content := part_content p in
    if String.eqb (content_type p) "text/plain"
       && negb (is_Some_b text_body)
    then (Some (Str.strip content), html_raw)
    else if String.eqb (content_type p) "text/html"
            && negb (is_Some_b html_raw)
    then (text_body, Some content)
    else st.

Definition extract_bodies (msg : message)
  : option string * option string :=
  match msg with
  | Multipart walk => fold_left walk_step walk (None, None)
  | Single p =>
      let content := part_content p in
      if String.eqb (content_type p) "text/plain"
      then (Some (Str.strip content), None)
      else if String.eqb (content_type p) "text/html"
      then (None, Some content)
      else (None, None)
  end.

(** The value written to the text column. *)
Definition text_field (msg : message) : string :=
  let '(text_body, html_raw) := extract_bodies msg in
  let text_body :=
    if negb (truthy text_body) && truthy html_raw
    then Some (html_to_text (default "" html_raw))
    else text_body in
  if truthy text_body then default "" text_body else "".

End Body.

(** ** Identity key of an EML message *)

Section Uidl.

(** [hashlib.sha1(b).hexdigest()]. *)
Context (sha1_hexdigest : list Byte.byte -> string).

(** [msg.get(name)]: header names compare without regard to case. *)
Fixpoint msg_get (name : string) (headers : list (string * string))
  : option string :=
  match headers with
  | [] => None
  | (k, v) :: rest =>
      if String.eqb (Str.map Str.lower k) (Str.map Str.lower name)
      then Some v else msg_get name rest
  end.

(** [a or b]. *)
Definition py_or (a b : option string) : option string :=
  if truthy a then a else b.

Definition make_uidl_for_eml (msg_bytes : list Byte.byte)
    (msg : list (string * string)) : string :=
  let mid :=
    Str.strip (default "" (py_or (py_or (msg_get "Message-Id" msg)
                                        (msg_get "Message-ID" msg))
                                 (Some ""))) in
  match mid with
  | String _ _ => mid
  | EmptyString => "SHA1-" +:+ sha1_hexdigest msg_bytes
  end.

End Uidl.

(** A [Message-Id] in the form of RFC 5322: [<id-left@id-right>]. *)
Definition is_msg_id (s : string) : bool :=
  Str.startswith "<" s && Str.endswith_char ">" s.

(** ** More of the Python string library

    [str.replace] with an empty replacement, [str.lower], [str.split]
    without arguments, [str.splitlines], [str.join] and the regex class
    [\w], all on U+0000..U+00FF. *)

Definition nul : ascii := ascii_of_N 0.
Definition cr : ascii := ascii_of_N 13.

Definition nonempty (s : string) : bool :=
  match s with EmptyString => false | String _ _ => true end.

(** [s.replace(c, "")] for a single character [c]. *)
Fixpoint remove_char (c : ascii) (s : string) : string :=
  match s with
  | EmptyString => EmptyString
  | String d s' =>
      if Ascii.eqb c d then remove_char c s' else String d (remove_char c s')
  end.

(** [\w]: letters, digits (superscript digits and fractions count) and the
    underscore. *)
Definition is_word (c : ascii) : bool :=
  let n := Str.code c in
  ((48 <=? n) && (n <=? 57) || (65 <=? n) && (n <=? 90) || (n =? 95)
   || (97 <=? n) && (n <=? 122) || (n =? 170) || (n =? 178) || (n =? 179)
   || (n =? 181) || (n =? 185) || (n =? 186) || (188 <=? n) && (n <=? 190)
   || (192 <=? n) && (n <=? 214) || (216 <=? n) && (n <=? 246)
   || (248 <=? n))%N.

(** [str.lower]: the ASCII capitals and the capitals of Latin-1. *)
Definition py_lower_char (c : ascii) : ascii :=
  let n := Str.code c in
  if ((65 <=? n) && (n <=? 90) || (192 <=? n) && (n <=? 214)
      || (216 <=? n) && (n <=? 222))%N
  then ascii_of_N (n + 32) else c.

Definition py_lower (s : string) : string := Str.map py_lower_char s.

(** The line boundaries of [str.splitlines]. *)
Definition is_linebreak (c : ascii) : bool :=
  let n := Str.code c in
  ((10 <=? n) && (n <=? 13) || (28 <=? n) && (n <=? 30) || (n =? 133))%N.

(** [s.splitlines()]: a carriage return directly before a line feed
    belongs to the same line end; a character that ends no line joins the
    first line of what follows. *)
Fixpoint splitlines (s : string) : list string :=
  match s with
  | EmptyString => []
  | String c s' =>
      let r := splitlines s' in
      if is_linebreak c then
        if Ascii.eqb c cr && Str.startswith (String nl "") s' then r
        else EmptyString :: r
      else
        match r with
        | first :: rest => String c first :: rest
        | [] => [String c EmptyString]
        end
  end.

(** [s.split()]: the maximal runs of characters that are no white
    space. *)
Fixpoint py_split (s : string) : list string :=
  match s with
  | EmptyString => []
  | String c s' =>
      let r := py_split s' in
      if Str.is_space c then r
      else if blank_head s' then String c EmptyString :: r
      else
        match r with
        | w :: r' => String c w :: r'
        | [] => [String c EmptyString]
        end
  end.

(** [sep.join(l)]. *)
Fixpoint join (sep : string) (l : list string) : string :=
  match l with
  | [] => EmptyString
  | [x] => x
  | x :: l' => x +:+ sep +:+ join sep l'
  end.

(** ** [extract_body_content]

    The same in both entry points.  Its three patterns have one shape: an
    opening tag [<name\b[^>]*>], anything, lazily and across lines, and
    the closing tag [</name\s*>], under [re.IGNORECASE]. *)

(** [</name\s*>] at the start of [s]: the length matched. *)
Definition match_close (name s : string) : option nat :=
  match Str.strip_prefix_ci ("</" +:+ name) s with
  | Some r =>
      match Str.drop_while Str.is_space r with
      | String c _ =>
          if Ascii.eqb c ">"
          then Some (2 + String.length name
                     + String.length (Str.take_while Str.is_space r) + 1)
          else None
      | EmptyString => None
      end
  | None => None
  end.

(** The first place at or behind the start of [s] where the closing tag
    matches, and the length it matches there. *)
Fixpoint find_close (name s : string) : option (nat * nat) :=
  match match_close name s with
  | Some n => Some (0, n)
  | None =>
      match s with
      | EmptyString => None
      | String _ s' =>
          option_map (fun '(j, n) => (S j, n)) (find_close name s')
      end
  end.

(** [<name\b[^>]*>] at the start of [s]: the length matched.  The word
    boundary asks for a character that [\w] does not match. *)
Definition match_open (name s : string) : option nat :=
  match Str.strip_prefix_ci ("<" +:+ name) s with
  | Some (String c _ as rest) =>
      if is_word c then None
      else option_map (fun j => 1 + String.length name + j + 1)
                      (Str.find_char ">" rest)
  | _ => None
  end.

(** The whole pattern at the start of [s]: the lengths of the opening
    tag, of the text between the tags and of the closing tag. *)
Definition match_element (name s : string) : option (nat * nat * nat) :=
  match match_open name s with
  | Some o =>
      match find_close name (Str.drop o s) with
      | Some (j, c) => Some (o, j, c)
      | None => None
      end
  | None => None
  end.

Definition element_length (name s : string) : option nat :=
  option_map (fun '(o, j, c) => o + j + c) (match_element name s).

(** [re.search] of the body pattern: group 1 of the leftmost match. *)
Fixpoint search_body (s : string) : option string :=
  match match_element "BODY" s with
  | Some (o, j, _) => Some (Str.take j (Str.drop o s))
  | None =>
      match s with
      | EmptyString => None
      | String _ s' => search_body s'
      end
  end.

(** A code point of the text given to [extract_body_content]: one of
    U+0000..U+00FF, or the byte order mark U+FEFF. *)
Inductive uchar : Type :=
  | Char (c : ascii)
  | Bom.

(** A string of the model as such a text. *)
Definition text (s : string) : list uchar :=
  List.map Char (list_ascii_of_string s).

(** [html.replace("\ufeff", "")]: what is left holds code points of
    U+0000..U+00FF only. *)
Fixpoint remove_bom (html : list uchar) : string :=
  match html with
  | [] => EmptyString
  | Bom :: html' => remove_bom html'
  | Char c :: html' => String c (remove_bom html')
  end.

(** [html.replace("\ufeff", "").replace("\x00", "")]. *)
Definition cleaned (html : list uchar) : string :=
  remove_char nul (remove_bom html).

Definition extract_body_content (html : list uchar)
    (strip_script_style : bool) : string :=
  match html with
  | [] => EmptyString
  | _ =>
      let cleaned := cleaned html in
      let body_inner :=
        Str.strip (match search_body cleaned with
                   | Some inner => inner
                   | None => cleaned
                   end) in
      let body_inner :=
        if strip_script_style then
          re_sub (element_length "STYLE") "" 0
                 (re_sub (element_length "SCRIPT") "" 0 body_inner)
        else body_inner in
      Str.strip body_inner
  end.

(** The text of [html_to_text] before [unescape], when [bs4] is missing:
    the result of its four substitutions. *)
Definition fallback_text (html : string) : string :=
  let text := re_sub match_script_style "" 0 html in
  let text := re_sub (match_simple_tag "<BR" true) (String nl "") 0 text in
  let text := re_sub (match_simple_tag "</P" false)
                     (String nl (String nl "")) 0 text in
  re_sub match_any_tag "" 0 text.

(** ** [extract_addresses_only]

    The same in both entry points; [decode_mime_header] and
    [email.utils.getaddresses] on a list of one header belong to the
    library. *)

Section Addresses.

Context (decode_mime_header : string -> string)
        (getaddresses : string -> list (string * string)).

Definition extract_addresses_only (header_value : string) : list string :=
  match header_value with
  | EmptyString => []
  | _ =>
      let decoded := decode_mime_header header_value in
      let pairs := getaddresses decoded in
      List.map (fun p => py_lower (Str.strip (snd p)))
               (List.filter (fun p => nonempty (snd p)
                                      && Str.contains_char "@" (snd p))
                            pairs)
  end.

End Addresses.

(** ** The state file ([load_state], [save_state])

    A Python [set] of strings is a list read up to order and repetition:
    the code only tests membership and sorts the union.  The state file is
    [None] while it does not exist, else the text stored in it.
    [write_text] writes each line feed as [os.linesep], [read_text] reads
    with universal newlines. *)

#[global] Instance string_eq_dec : EqDecision string := String.string_dec.

Definition str_le (a b : string) : Prop := String.leb a b = true.

#[global] Instance str_le_dec : RelDecision str_le :=
  fun a b => decide (String.leb a b = true).

(** [sorted(s)] for a set [s] of strings. *)
Definition sorted (s : list string) : list string :=
  merge_sort str_le (remove_dups s).

Fixpoint universal_newlines (s : string) : string :=
  match s with
  | EmptyString => EmptyString
  | String c s' =>
      if Ascii.eqb c cr then
        if Str.startswith (String nl "") s' then universal_newlines s'
        else String nl (universal_newlines s')
      else String c (universal_newlines s')
  end.

Fixpoint translate_newlines (linesep s : string) : string :=
  match s with
  | EmptyString => EmptyString
  | String c s' =>
      (if Ascii.eqb c nl then linesep else String c EmptyString)
      +:+ translate_newlines linesep s'
  end.

Section State.

(** The [local_dedupe] setting, and whether [os.linesep] is a carriage
    return and a line feed (Windows) or a line feed. *)
Context (LOCAL_DEDUPE : bool) (windows : bool).

Definition linesep : string :=
  if windows then String cr (String nl "") else String nl "".

Definition read_text (content : string) : string :=
  universal_newlines content.

Definition write_text (text : string) : string :=
  translate_newlines linesep text.

Definition load_state (file : option string) : list string :=
  if negb LOCAL_DEDUPE then []
  else
    match file with
    | None => []
    | Some content =>
        List.map Str.strip
                 (List.filter (fun x => nonempty (Str.strip x))
                              (splitlines (read_text content)))
    end.

(** The state file after [save_state(uidls)]. *)
Definition save_state (uidls : list string) (file : option string)
  : option string :=
  if negb LOCAL_DEDUPE || negb (is_Some_b (head uidls)) then file
  else
    let old := load_state file in
    let all_u := sorted (old ++ uidls) in
    Some (write_text (join (String nl "") all_u +:+ String nl "")).

End State.

(** ** The message loop of the POP3 entry point

    [uidl_map] is a dictionary from message numbers to identity keys: an
    assignment puts its pair in front, a lookup takes the first pair of
    the key. *)

(** One turn of the loop over [uidl_list], the row decoded; [None] is the
    [ValueError] of [int], which ends [main]. *)
Definition uidl_row (uidl_map : list (Z * string)) (row : string)
  : option (list (Z * string)) :=
  match py_split row with
  | p0 :: p1 :: _ =>
      match py_int p0 with
      | Some msg_num => Some ((msg_num, p1) :: uidl_map)
      | None => None
      end
  | _ => Some uidl_map
  end.

Fixpoint build_uidl_map (uidl_map : list (Z * string)) (rows : list string)
  : option (list (Z * string)) :=
  match rows with
  | [] => Some uidl_map
  | row :: rows' =>
      match uidl_row uidl_map row with
      | Some m => build_uidl_map m rows'
      | None => None
      end
  end.

(** [d.get(key)]. *)
Fixpoint dict_get (key : Z) (d : list (Z * string)) : option string :=
  match d with
  | [] => None
  | (k, v) :: d' => if Z.eqb k key then Some v else dict_get key d'
  end.

(** [uidl_map.get(i, f"NOUIDL-{i}")]. *)
Definition uidl_of (uidl_map : list (Z * string)) (i : Z) : string :=
  default ("NOUIDL-" +:+ str_int i) (dict_get i uidl_map).

(** [range(start, total + 1)] with [start = max(1, total - POP3_MAX_FETCH
    + 1)]: the message numbers the loop visits. *)
Definition fetch_range (total POP3_MAX_FETCH : Z) : list Z :=
  let start := Z.max 1 (total - POP3_MAX_FETCH + 1) in
  seqZ start (total + 1 - start).

(** [x in s]. *)
Definition member (x : string) (s : list string) : bool :=
  existsb (String.eqb x) s.

(** The message numbers that pass the test [LOCAL_DEDUPE and uidl in
    already] at the head of the loop. *)
Definition not_yet_processed (LOCAL_DEDUPE : bool) (already : list string)
    (uidl_map : list (Z * string)) (numbers : list Z) : list Z :=
  List.filter (fun i => negb (LOCAL_DEDUPE && member (uidl_of uidl_map i)
                                                     already))
              numbers.

(** ** The date of a message (the per-message loop of [main])

    [parsedate_to_datetime] and the formatting of the date column
    ([astimezone] and [strftime]) belong to the library; [None] stands
    for an exception, which the [try] around both answers by clearing the
    date. *)

Section MessageDate.

Context (parsedate_to_datetime : string -> option datetime)
        (format_date : datetime -> option string).

(** The pair of the date column and [mail_dt]. *)
Definition message_date (date_hdr : option string)
  : string * option datetime :=
  if truthy date_hdr then
    match parsedate_to_datetime (default "" date_hdr) with
    | Some dt =>
        let mail_dt :=
          match tzinfo dt with
          | None => {| wall := wall dt; tzinfo := Some JST |}
          | Some _ => dt
          end in
        match format_date mail_dt with
        | Some text => (text, Some mail_dt)
        | None => ("", None)
        end
    | None => ("", None)
    end
  else ("", None).

End MessageDate.

(** ** Notions used to state the properties *)

(** A call of the fuel-indexed parsers that came back (it did not run out
    of fuel) and, when it returned, left [idx] between [lo] and [hi],
    strictly above [lo] when [strict] is set. *)
Definition returns_within {A} (lo hi : nat) (strict : bool)
    (m : outcome (A * nat)) : Prop :=
  match m with
  | OutOfFuel => False
  | Raise _ => True
  | Ok (_, i) => (if strict then lo < i else lo <= i) /\ i <= hi
  end.

(** No node of the tree is an image the pixel test selects. *)
Definition pixel_free (n : node) : Prop :=
  Forall (fun d => removed d = false) (descendants n).

(** The first part in walk order that is no attachment and has the given
    content type. *)
Definition first_part (ctype : string) (walk : list part) : option part :=
  List.find (fun p => negb (is_attachment p)
                      && String.eqb (content_type p) ctype) walk.

Definition or_else {A} (x y : option A) : option A :=
  match x with Some _ => x | None => y end.

(** The parts that body extraction looks at: of a multipart message the
    parts of the walk that are no attachment, of any other message the
    message itself, whatever its disposition. *)
Definition body_parts (msg : message) : list part :=
  match msg with
  | Multipart walk => List.filter (fun p => negb (is_attachment p)) walk
  | Single p => [p]
  end.

Definition first_of_type (ctype : string) (parts : list part)
  : option part :=
  List.find (fun p => String.eqb (content_type p) ctype) parts.

(** [kw] is the keyword [KW] in some letter case. *)
Definition spells (KW kw : string) : Prop := Str.map Str.upper kw = KW.

(** Rule expressions over predicate tokens, their value when each
    predicate has the value [val] gives it, and their tokens: where an
    operand of [AND] (level 2) or of [OR] (level 1) is expected, an
    expression of a looser kind is put in parentheses; level 0 is a whole
    rule or the inside of parentheses. *)
Inductive expr : Type :=
  | Pred (tok : string)
  | And (a b : expr)
  | Or (a b : expr)
  | Paren (a : expr).

Fixpoint eval_expr (val : string -> bool) (e : expr) : bool :=
  match e with
  | Pred tok => val tok
  | And a b => eval_expr val a && eval_expr val b
  | Or a b => eval_expr val a || eval_expr val b
  | Paren a => eval_expr val a
  end.

Definition parens (ts : list string) : list string := "(" :: ts ++ [")"].

Fixpoint render (lvl : nat) (e : expr) : list string :=
  match e with
  | Pred tok => [tok]
  | And a b =>
      let ts := render 1 a ++ "AND" :: render 2 b in
      if Nat.ltb 1 lvl then parens ts else ts
  | Or a b =>
      let ts := render 0 a ++ "OR" :: render 1 b in
      if Nat.ltb 0 lvl then parens ts else ts
  | Paren a => parens (render 0 a)
  end.

Fixpoint leaves (e : expr) : list string :=
  match e with
  | Pred tok => [tok]
  | And a b | Or a b => leaves a ++ leaves b
  | Paren a => leaves a
  end.

(** How deep the parentheses of a token list nest. *)
Fixpoint nesting_from (depth : nat) (tokens : list string) : nat :=
  match tokens with
  | [] => depth
  | t :: tokens' =>
      Nat.max depth
        (nesting_from (if String.eqb t "(" then S depth
                       else if String.eqb t ")" then Nat.pred depth
                       else depth)
                      tokens')
  end.

Definition nesting (tokens : list string) : nat := nesting_from 0 tokens.

(** A depth of nesting that the default stack of 1000 frames holds: three
    frames a level leave almost 700 frames to the callers of
    [parse_and_eval] and to the library calls of a predicate, which are
    taken to answer the same at every depth. *)
Definition max_nesting : nat := 100.

(** A fuel-indexed call returns [r] when given enough fuel. *)
Definition runs (f : nat -> outcome (bool * nat)) (r : bool * nat) : Prop :=
  exists fuel, f fuel = Ok r.

(** What the three parsing functions of the POP3 engine do where the
    tokens of [e] start: [parse_factor] returns its value; [parse_term]
    goes on as its loop does behind [e]; so does [parse_expr], when no
    [AND] follows. *)
Section GrammarRuns.

Context (rt : Runtime) (subject : string)
        (from_addrs to_addrs cc_addrs : list string)
        (mail_dt : option datetime) (val : string -> bool).

Definition factor_ok (e : expr) : Prop :=
  forall T pre rest, T = pre ++ render 2 e ++ rest ->
    runs (fun f => Pop3.parse_factor rt subject from_addrs to_addrs cc_addrs
                     mail_dt T f (length pre))
         (eval_expr val e, length pre + length (render 2 e)).

Definition term_ok (e : expr) : Prop :=
  forall T pre rest r, T = pre ++ render 1 e ++ rest ->
    runs (fun f => Pop3.parse_term_loop rt subject from_addrs to_addrs
                     cc_addrs mail_dt T f (eval_expr val e)
                     (length pre + length (render 1 e))) r ->
    runs (fun f => Pop3.parse_term rt subject from_addrs to_addrs cc_addrs
                     mail_dt T f (length pre)) r.

Definition expr_ok (e : expr) : Prop :=
  forall T pre rest r, T = pre ++ render 0 e ++ rest ->
    token_is rest 0 "AND" = false ->
    runs (fun f => Pop3.parse_expr_loop rt subject from_addrs to_addrs
                     cc_addrs mail_dt T f (eval_expr val e)
                     (length pre + length (render 0 e))) r ->
    runs (fun f => Pop3.parse_expr rt subject from_addrs to_addrs cc_addrs
                     mail_dt T f (length pre)) r.

End GrammarRuns.

(** An identity key that a line of the state file can hold: not empty, no
    white space at either end, no line boundary inside. *)
Definition clean_id (x : string) : bool :=
  nonempty x && String.eqb (Str.strip x) x
  && Str.forallb (fun c => negb (is_linebreak c)) x.

(** The text of a comparison operator. *)
Definition op_text (op : cmp_op) : string :=
  match op with
  | OpGe => ">="
  | OpLe => "<="
  | OpGt => ">"
  | OpLt => "<"
  end.

Definition unit_char (u : unit_t) : ascii :=
  match u with Days => "d" | Hours => "h" | Minutes => "m" end%char.

(** No position of [s] starts a tag [<...>]. *)
Definition tag_free (s : string) : Prop :=
  forall n, match_any_tag (Str.drop n s) = None.

(** ** A small runtime for closed examples

    Patterns of letters, digits, [@], [-], [_] and spaces only: on those
    [re.search] under [re.IGNORECASE] is a case-insensitive substring
    search.  The pattern [a{99999999999}] asks for more repetitions than
    the engine counts, and [re.compile] raises [OverflowError].  Every
    other pattern is rejected, and every timestamp given to
    [fromisoformat] is refused; the clock stands at 2024-01-01T00:00:00
    UTC.  Bytes decode as Latin-1 under every charset name, there is no
    [bs4], and [html.unescape] is only applied to text free of
    ampersands, which it returns as it is. *)

Module Lit.

Definition plain (c : ascii) : bool :=
  let n := Str.code c in
  ((48 <=? n) && (n <=? 57) || (65 <=? n) && (n <=? 90)
   || (97 <=? n) && (n <=? 122)
   || (n =? 64) || (n =? 45) || (n =? 95) || (n =? 32))%N.

Definition compile (p : string) : compiled string :=
  if Str.forallb plain p then Compiled (Str.map Str.lower p)
  else if String.eqb p "a{99999999999}" then CompileRaised OverflowError
  else ReError.

Fixpoint search (p s : string) : bool :=
  Str.startswith p (Str.map Str.lower s)
  || match s with
     | EmptyString => false
     | String _ s' => search p s'
     end.

Definition rt : Runtime :=
  {| regex := string;
     re_compile := compile;
     re_search := search;
     fromisoformat := fun _ => None;
     now_utc := (days_before_year 2024 * usec_per_day)%Z |}.

(** 2020-06-15T12:00:00+09:00 *)
Definition noon_2020 : datetime :=
  {| wall := ((days_before_year 2020 + days_before_month 2020 6 + 14)
              * usec_per_day + 12 * 3600 * usec_per_sec)%Z;
     tzinfo := Some JST |}.

Definition decode (charset : string) (b : list Byte.byte)
  : option string :=
  Some (string_of_list_byte b).

Definition decode_utf8 (b : list Byte.byte) : string :=
  string_of_list_byte b.

Definition bytes (s : string) : list Byte.byte := list_byte_of_string s.

Definition unescape_entities (s : string) : string := s.

Definition html_to_text : string -> string :=
  html_to_text None unescape_entities.

Definition text_part (ctype body : string) : part :=
  {| content_disposition := None;
     content_type := ctype;
     payload := Some (bytes body);
     content_charset := Some "utf-8" |}.

(** SHA-1 of the empty byte string, the one input used below. *)
Definition sha1_hexdigest (b : list Byte.byte) : string :=
  "da39a3ee5e6b4b0d3255bfef95601890afd80709".

End Lit.

(** * Properties *)

(** ** Facts about strings *)

Module StrFacts.
Lemma length_app a b : String.length (a +:+ b) = String.length a + String.length b.
Proof. induction a; simpl; auto. Qed.

Lemma take_drop n s : Str.take n s +:+ Str.drop n s = s.
Proof. revert s; induction n; destruct s; simpl; auto. f_equal; apply IHn. Qed.

Lemma take_S n c s : Str.take (S n) (String c s) = String c (Str.take n s).
Proof. reflexivity. Qed.

Lemma drop_add a b s : Str.drop (a + b) s = Str.drop b (Str.drop a s).
Proof.
  revert s; induction a as [|a IH]; intros [|c s]; simpl; auto.
  now destruct b.
Qed.

Lemma drop_S n c s : Str.drop (S n) (String c s) = Str.drop n s.
Proof. reflexivity. Qed.

Lemma take_length n s : n <= String.length s -> String.length (Str.take n s) = n.
Proof. revert s; induction n; destruct s; simpl; auto; try lia. intros. rewrite IHn; lia. Qed.

Lemma take_app n a r : String.length a = n -> Str.take n (a +:+ r) = a.
Proof.
  revert n; induction a as [|c a IH]; intros [|n]; simpl; intros H;
    try discriminate; auto.
  f_equal. apply IH. lia.
Qed.

Lemma drop_app n a r : String.length a = n -> Str.drop n (a +:+ r) = r.
Proof.
  revert n; induction a as [|c a IH]; intros [|n]; simpl; intros H;
    try discriminate; auto.
Qed.

Lemma drop_length n s : String.length (Str.drop n s) = String.length s - n.
Proof. revert s; induction n; destruct s; simpl; auto. Qed.

Lemma take_take_while p s :
  Str.take (String.length (Str.take_while p s)) s = Str.take_while p s.
Proof. induction s; simpl; auto. destruct (p a); simpl; auto. now rewrite IHs. Qed.

Lemma take_while_length p s : String.length (Str.take_while p s) <= String.length s.
Proof. induction s; simpl; auto. destruct (p a); simpl; lia. Qed.

Lemma drop_take_while p s :
  Str.drop (String.length (Str.take_while p s)) s = Str.drop_while p s.
Proof. induction s; simpl; auto. destruct (p a); simpl; auto. Qed.

Lemma take_while_app p s r :
  match r with EmptyString => true | String c _ => negb (p c) end = true ->
  Str.take_while p (Str.take_while p s +:+ r) = Str.take_while p s.
Proof.
  intros Hr. induction s; simpl.
  - destruct r; simpl; auto. apply negb_true_iff in Hr. now rewrite Hr.
  - destruct (p a) eqn:E; simpl.
    + now rewrite E, IHs.
    + destruct r; simpl; auto. apply negb_true_iff in Hr. now rewrite Hr.
Qed.

Lemma drop_while_head p s :
  match Str.drop_while p s with EmptyString => true | String c _ => negb (p c) end = true.
Proof. induction s; simpl; auto. destruct (p a) eqn:E; simpl; auto. now rewrite E. Qed.
End StrFacts.

Import StrFacts.

Lemma strip_prefix_ci_length p s rest :
  Str.strip_prefix_ci p s = Some rest ->
  String.length s = String.length p + String.length rest.
Proof.
  revert s; induction p as [|k p IH]; intros [|c s]; simpl; try discriminate.
  - now intros [= <-].
  - now intros [= <-].
  - destruct (Ascii.eqb k (Str.upper c)); [|discriminate]. intros H. now rewrite (IH _ H).
Qed.

Lemma strip_prefix_ci_take p s rest m r :
  Str.strip_prefix_ci p s = Some rest ->
  Str.strip_prefix_ci p (Str.take (String.length p + m) s +:+ r)
  = Some (Str.take m rest +:+ r).
Proof.
  revert s; induction p as [|k p IH]; intros [|c s]; simpl; try discriminate.
  - now intros [= <-].
  - now intros [= <-].
  - destruct (Ascii.eqb k (Str.upper c)); [|discriminate]. apply IH.
Qed.

Lemma lazy_to_slash_bounds s m :
  lazy_to_slash s = Some m -> 1 <= m <= String.length s.
Proof.
  revert m; induction s as [|c s IH]; simpl; intros m; try discriminate.
  destruct (Ascii.eqb c "/"); [intros [= <-]; lia|].
  destruct (Ascii.eqb c nl); [discriminate|].
  destruct (lazy_to_slash s) as [k|]; [|discriminate].
  intros [= <-]. specialize (IH _ eq_refl). lia.
Qed.

Lemma lazy_to_slash_take s m r :
  lazy_to_slash s = Some m -> lazy_to_slash (Str.take m s +:+ r) = Some m.
Proof.
  revert m; induction s as [|c s IH]; simpl; intros m; try discriminate.
  destruct (Ascii.eqb c "/") eqn:E1; [intros [= <-]; simpl; now rewrite E1|].
  destruct (Ascii.eqb c nl) eqn:E2; [discriminate|].
  destruct (lazy_to_slash s) as [k|]; [|discriminate].
  intros [= <-]. simpl. rewrite E1, E2. now rewrite (IH _ eq_refl).
Qed.

Lemma match_regex_pred_bounds kw s n :
  match_regex_pred kw s = Some n -> 1 <= n <= String.length s.
Proof.
  unfold match_regex_pred.
  destruct (Str.strip_prefix_ci _ s) as [rest|] eqn:E; [|discriminate].
  destruct (lazy_to_slash rest) as [m|] eqn:L; [|discriminate].
  intros [= <-]. apply strip_prefix_ci_length in E. apply lazy_to_slash_bounds in L.
  rewrite length_app in E. simpl in E. lia.
Qed.

Lemma match_regex_pred_stable kw s n r :
  match_regex_pred kw s = Some n ->
  match_regex_pred kw (Str.take n s +:+ r) = Some n.
Proof.
  unfold match_regex_pred.
  destruct (Str.strip_prefix_ci _ s) as [rest|] eqn:E; [|discriminate].
  destruct (lazy_to_slash rest) as [m|] eqn:L; [|discriminate].
  intros [= <-].
  assert (String.length kw + 2 + m = String.length (kw +:+ ":/") + m) as Hn
    by (rewrite length_app; reflexivity).
  rewrite Hn at 1.
  rewrite (strip_prefix_ci_take _ _ _ m r E).
  now rewrite (lazy_to_slash_take _ _ r L).
Qed.

Lemma match_keyword_bounds kw s n :
  kw <> EmptyString ->
  match_keyword kw s = Some n -> 1 <= n <= String.length s.
Proof.
  unfold match_keyword. intros Hkw.
  destruct (Str.strip_prefix_ci _ s) as [rest|] eqn:E; [|discriminate].
  intros [= <-]. apply strip_prefix_ci_length in E. destruct kw; [congruence|simpl in *; lia].
Qed.

Lemma match_keyword_stable kw s n r :
  match_keyword kw s = Some n ->
  match_keyword kw (Str.take n s +:+ r) = Some n.
Proof.
  unfold match_keyword.
  destruct (Str.strip_prefix_ci _ s) as [rest|] eqn:E; [|discriminate].
  intros [= <-].
  replace (String.length kw) with (String.length kw + 0) at 1 by lia.
  now rewrite (strip_prefix_ci_take _ _ _ 0 r E).
Qed.

Lemma match_date_bounds s n :
  match_date s = Some n -> 1 <= n <= String.length s.
Proof.
  unfold match_date.
  destruct (Str.strip_prefix_ci _ s) as [[|c rest]|] eqn:E; try discriminate.
  destruct (_ || _); [|discriminate].
  pose proof (take_while_length non_space rest).
  destruct (String.length (Str.take_while non_space rest)) as [|k] eqn:L; [discriminate|].
  intros [= <-]. apply strip_prefix_ci_length in E. simpl in E. lia.
Qed.

Lemma match_date_stable s n r :
  match_date s = Some n -> blank_head r = true ->
  match_date (Str.take n s +:+ r) = Some n.
Proof.
  unfold match_date.
  destruct (Str.strip_prefix_ci _ s) as [[|c rest]|] eqn:E; try discriminate.
  destruct (_ || _) eqn:Ec; [|discriminate].
  destruct (String.length (Str.take_while non_space rest)) as [|k] eqn:L; [discriminate|].
  intros [= <-] Hr.
  pose proof (strip_prefix_ci_take "DATE" s _ (S (S k)) r E) as E'.
  cbn [String.length Nat.add] in E'.
  rewrite E'. rewrite take_S. cbn [append]. rewrite Ec.
  rewrite <- L, take_take_while.
  rewrite take_while_app.
  - rewrite L. reflexivity.
  - unfold blank_head, non_space in *. destruct r; auto. now rewrite negb_involutive.
Qed.

Lemma strip_prefix_ci_drop p s rest :
  Str.strip_prefix_ci p s = Some rest -> Str.drop (String.length p) s = rest.
Proof.
  revert s; induction p as [|k p IH]; intros [|c s]; simpl; try discriminate.
  - now intros [= <-].
  - now intros [= <-].
  - destruct (Ascii.eqb k (Str.upper c)); [|discriminate]. apply IH.
Qed.

Lemma match_date_rest s n :
  match_date s = Some n -> blank_head (Str.drop n s) = true.
Proof.
  unfold match_date.
  destruct (Str.strip_prefix_ci _ s) as [[|c rest]|] eqn:E; try discriminate.
  destruct (_ || _) eqn:Ec; [|discriminate].
  destruct (String.length (Str.take_while non_space rest)) as [|k] eqn:L; [discriminate|].
  intros [= <-]. apply strip_prefix_ci_drop in E.
  cbn [String.length] in E.
  pose proof (drop_add 4 (S (S k)) s) as Hd. cbn [Nat.add] in Hd.
  cbn [Nat.add]. rewrite Hd, E, drop_S, <- L, drop_take_while.
  pose proof (drop_while_head non_space rest) as H.
  unfold blank_head. destruct (Str.drop_while non_space rest); auto.
  unfold non_space in H. now rewrite negb_involutive in H.
Qed.

Lemma match_regex_pred_head k kw c s :
  Ascii.eqb k (Str.upper c) = false ->
  match_regex_pred (String k kw) (String c s) = None.
Proof.
  intros H. unfold match_regex_pred. cbn [append Str.strip_prefix_ci].
  now rewrite H.
Qed.

Lemma match_keyword_head k kw c s :
  Ascii.eqb k (Str.upper c) = false ->
  match_keyword (String k kw) (String c s) = None.
Proof.
  intros H. unfold match_keyword. cbn [Str.strip_prefix_ci]. now rewrite H.
Qed.

Lemma match_date_head c s :
  Ascii.eqb "D" (Str.upper c) = false -> match_date (String c s) = None.
Proof.
  intros H. unfold match_date. cbn [Str.strip_prefix_ci]. now rewrite H.
Qed.

Lemma match_regex_pred_start k kw c s n :
  match_regex_pred (String k kw) (String c s) = Some n -> Str.upper c = k.
Proof.
  destruct (Ascii.eqb k (Str.upper c)) eqn:E.
  - intros _. symmetry. now apply Ascii.eqb_eq.
  - now rewrite match_regex_pred_head.
Qed.

Lemma match_keyword_start k kw c s n :
  match_keyword (String k kw) (String c s) = Some n -> Str.upper c = k.
Proof.
  destruct (Ascii.eqb k (Str.upper c)) eqn:E.
  - intros _. symmetry. now apply Ascii.eqb_eq.
  - now rewrite match_keyword_head.
Qed.

Lemma match_date_start c s n :
  match_date (String c s) = Some n -> Str.upper c = "D"%char.
Proof.
  destruct (Ascii.eqb "D" (Str.upper c)) eqn:E.
  - intros _. symmetry. now apply Ascii.eqb_eq.
  - now rewrite match_date_head.
Qed.

Lemma match_token_bounds s n :
  match_token s = Some n -> 1 <= n <= String.length s.
Proof.
  unfold match_token, first_of.
  repeat match goal with
  | |- context [match match_regex_pred ?kw s with _ => _ end] =>
      let E := fresh "E" in
      destruct (match_regex_pred kw s) eqn:E;
      [intros [= <-]; eapply match_regex_pred_bounds; eassumption|]
  | |- context [match match_date s with _ => _ end] =>
      let E := fresh "E" in
      destruct (match_date s) eqn:E;
      [intros [= <-]; eapply match_date_bounds; eassumption|]
  | |- context [match match_keyword ?kw s with _ => _ end] =>
      let E := fresh "E" in
      destruct (match_keyword kw s) eqn:E;
      [intros [= <-]; eapply match_keyword_bounds; [|eassumption]; discriminate|]
  end.
  intros Hlast. eapply match_keyword_bounds; [|eassumption]; discriminate.
Qed.

Lemma match_token_stable s n r :
  match_token s = Some n ->
  match_date s = None \/ blank_head r = true ->
  match_token (Str.take n s +:+ r) = Some n.
Proof.
  intros H Hr. pose proof (match_token_bounds _ _ H) as Hn.
  destruct s as [|c s]; [discriminate|].
  destruct n as [|n]; [lia|].
  assert (exists tl, Str.take (S n) (String c s) +:+ r = String c tl) as [tl Htl]
    by (eexists; reflexivity).
  revert H. unfold match_token, first_of.
  repeat match goal with
  | |- context [match match_regex_pred ?kw (String c s) with _ => _ end] =>
      let E := fresh "E" in
      destruct (match_regex_pred kw (String c s)) eqn:E;
      [ intros [= ->]; pose proof (match_regex_pred_start _ _ _ _ _ E) as Hu;
        apply (match_regex_pred_stable _ _ _ r) in E; rewrite Htl in *;
        rewrite ?match_regex_pred_head by (rewrite Hu; reflexivity);
        rewrite E; reflexivity |]
  | |- context [match match_date (String c s) with _ => _ end] =>
      let E := fresh "E" in
      destruct (match_date (String c s)) eqn:E;
      [ intros [= ->]; pose proof (match_date_start _ _ _ E) as Hu;
        destruct Hr as [Hr|Hr]; [discriminate|];
        apply (match_date_stable _ _ r) in E; [|assumption]; rewrite Htl in *;
        rewrite ?match_regex_pred_head by (rewrite Hu; reflexivity);
        rewrite E; reflexivity |]
  | |- context [match match_keyword ?kw (String c s) with _ => _ end] =>
      let E := fresh "E" in
      destruct (match_keyword kw (String c s)) eqn:E;
      [ intros [= ->]; pose proof (match_keyword_start _ _ _ _ _ E) as Hu;
        apply (match_keyword_stable _ _ _ r) in E; rewrite Htl in *;
        rewrite ?match_regex_pred_head by (rewrite Hu; reflexivity);
        rewrite ?match_date_head by (rewrite Hu; reflexivity);
        rewrite ?match_keyword_head by (rewrite Hu; reflexivity);
        rewrite E; reflexivity |]
  end.
  intros Hlast. pose proof (match_keyword_start _ _ _ _ _ Hlast) as Hu.
  apply (match_keyword_stable _ _ _ r) in Hlast; rewrite Htl in *.
  rewrite ?match_regex_pred_head by (rewrite Hu; reflexivity).
  rewrite ?match_date_head by (rewrite Hu; reflexivity).
  rewrite ?match_keyword_head by (rewrite Hu; reflexivity).
  exact Hlast.
Qed.

Lemma match_token_space c s : Str.is_space c = true -> match_token (String c s) = None.
Proof.
  intros H.
  assert (forall k, token_start_char k = true -> Ascii.eqb k (Str.upper c) = false) as Hk.
  { intros k Hk. destruct c as [[] [] [] [] [] [] [] []]; try discriminate H;
      destruct k as [[] [] [] [] [] [] [] []]; try discriminate Hk; reflexivity. }
  unfold match_token, first_of.
  rewrite !match_regex_pred_head, match_date_head, !match_keyword_head by (apply Hk; reflexivity).
  reflexivity.
Qed.

Lemma scan_skip k s : scan k s = scan 0 (Str.drop k s).
Proof.
  revert k; induction s as [|c s IH]; intros [|k]; try reflexivity.
  cbn [scan Str.drop]. apply IH.
Qed.

Lemma findall_skip k s : findall k s = findall 0 (Str.drop k s).
Proof.
  revert k; induction s as [|c s IH]; intros [|k]; try reflexivity.
  cbn [findall Str.drop]. apply IH.
Qed.

Lemma drop_pred n c s : 1 <= n -> Str.drop (n - 1) s = Str.drop n (String c s).
Proof. destruct n; [lia|]. intros _. simpl. now rewrite Nat.sub_0_r. Qed.

Lemma scan_unfold c s :
  scan 0 (String c s) =
  match match_token (String c s) with
  | Some n => Tok (Str.take n (String c s)) :: scan 0 (Str.drop n (String c s))
  | None => Stray c :: scan 0 s
  end.
Proof.
  cbn [scan]. destruct (match_token (String c s)) as [n|] eqn:E; [|reflexivity].
  apply match_token_bounds in E. now rewrite scan_skip, (drop_pred n c).
Qed.

Lemma findall_unfold c s :
  findall 0 (String c s) =
  match match_token (String c s) with
  | Some n => Str.take n (String c s) :: findall 0 (Str.drop n (String c s))
  | None => findall 0 s
  end.
Proof.
  cbn [findall]. destruct (match_token (String c s)) as [n|] eqn:E; [|reflexivity].
  apply match_token_bounds in E. now rewrite findall_skip, (drop_pred n c).
Qed.

Lemma findall_scan k s : findall k s = omap seg_token (scan k s).
Proof.
  revert k; induction s as [|c s IH]; intros [|k]; try reflexivity.
  - cbn [findall scan]. destruct (match_token (String c s)); cbn; now rewrite IH.
  - cbn [findall scan]. apply IH.
Qed.

Lemma concat_cons a l : Str.concat (a :: l) = a +:+ Str.concat l.
Proof. reflexivity. Qed.

Lemma scan_text k s : Str.concat (List.map seg_text (scan k s)) = Str.drop k s.
Proof.
  revert k; induction s as [|c s IH]; intros [|k]; try reflexivity.
  - cbn [scan]. destruct (match_token (String c s)) as [n|] eqn:E.
    + cbn [List.map seg_text]. rewrite concat_cons, IH.
      apply match_token_bounds in E.
      rewrite (drop_pred n c) by lia. apply take_drop.
    + cbn [List.map seg_text]. rewrite concat_cons, IH. reflexivity.
  - cbn [scan Str.drop]. apply IH.
Qed.

Lemma strip_stray_unfold c s :
  strip_stray (String c s) =
  match match_token (String c s) with
  | Some n => Str.take n (String c s) +:+ strip_stray (Str.drop n (String c s))
  | None => seg_kept (Stray c) +:+ strip_stray s
  end.
Proof.
  unfold strip_stray. rewrite scan_unfold.
  destruct (match_token (String c s)); reflexivity.
Qed.

Lemma strip_stray_blank s : blank_head s = true -> blank_head (strip_stray s) = true.
Proof.
  destruct s as [|c s]; [reflexivity|]. cbn [blank_head]. intros H.
  rewrite strip_stray_unfold, (match_token_space _ _ H). cbn [seg_kept].
  rewrite H. exact H.
Qed.

Lemma findall_token s n r :
  match_token s = Some n -> match_date s = None \/ blank_head r = true ->
  findall 0 (Str.take n s +:+ r) = Str.take n s :: findall 0 r.
Proof.
  intros H Hr. pose proof (match_token_bounds _ _ H) as Hn.
  pose proof (match_token_stable _ _ r H Hr) as H'.
  pose proof (take_length n s ltac:(lia)) as Hlen.
  destruct (Str.take n s +:+ r) as [|c x] eqn:Ex.
  { apply (f_equal String.length) in Ex. rewrite length_app in Ex. simpl in Ex. lia. }
  rewrite findall_unfold, H', <- Ex.
  now rewrite take_app, drop_app.
Qed.

Lemma findall_strip_stray s : findall 0 (strip_stray s) = findall 0 s.
Proof.
  remember (String.length s) as n eqn:Hn.
  revert s Hn. induction n as [n IH] using lt_wf_ind. intros s Hn.
  destruct s as [|c s]; [reflexivity|].
  rewrite strip_stray_unfold, findall_unfold.
  destruct (match_token (String c s)) as [k|] eqn:E.
  - pose proof (match_token_bounds _ _ E) as Hk.
    rewrite findall_token.
    + f_equal. eapply IH; [|reflexivity]. rewrite drop_length. lia.
    + assumption.
    + destruct (match_date (String c s)) as [k'|] eqn:Ed; [right|now left].
      apply strip_stray_blank.
      assert (k' = k) as ->.
      { revert E. unfold match_token, first_of.
        rewrite !match_regex_pred_head, Ed
          by (rewrite (match_date_start _ _ _ Ed); reflexivity).
        congruence. }
      now apply match_date_rest.
  - cbn [seg_kept]. destruct (Str.is_space c) eqn:Es.
    + cbn [append]. rewrite findall_unfold, (match_token_space _ _ Es).
      eapply IH; [|reflexivity]. simpl in Hn. lia.
    + cbn [append]. eapply IH; [|reflexivity]. simpl in Hn. lia.
Qed.

Lemma upper_operator t : is_operator t = true -> Str.map Str.upper t = t.
Proof.
  unfold is_operator. intros H. apply orb_true_iff in H as [H|H];
    apply String.eqb_eq in H; subst; reflexivity.
Qed.

Lemma tokenize_findall rule : tokenize rule = findall 0 rule.
Proof.
  unfold tokenize. destruct rule as [|c s]; [reflexivity|].
  induction (findall 0 (String c s)) as [|t l IH]; [reflexivity|].
  cbn [List.map]. rewrite IH. f_equal.
  destruct (is_operator t) eqn:E; [now apply upper_operator|reflexivity].
Qed.

Lemma token_shape_take s n :
  match_token s = Some n -> token_shape (Str.take n s) = true.
Proof.
  intros H. unfold token_shape.
  pose proof (match_token_stable s n "" H (or_intror eq_refl)) as H'.
  pose proof (match_token_bounds _ _ H).
  assert (Str.take n s +:+ "" = Str.take n s) as Ha.
  { generalize (Str.take n s). induction s0; simpl; congruence. }
  rewrite Ha in H'. rewrite H', take_length by lia. apply Nat.eqb_refl.
Qed.

Lemma findall_shapes k s : Forall (fun t => token_shape t = true) (findall k s).
Proof.
  revert k; induction s as [|c s IH]; intros [|k]; cbn [findall]; auto.
  destruct (match_token (String c s)) as [n|] eqn:E; auto.
  constructor; auto. now apply token_shape_take.
Qed.

(** ** Facts about the parsers *)


Lemma token_is_lt tokens idx t : token_is tokens idx t = true -> idx < length tokens.
Proof.
  unfold token_is. destruct (tokens !! idx) eqn:E; [|discriminate].
  intros _. eapply lookup_lt_Some; eauto.
Qed.

Lemma token_is_app_l pre rest idx t :
  idx < length pre -> token_is (pre ++ rest) idx t = token_is pre idx t.
Proof. intros H. unfold token_is. now rewrite lookup_app_l. Qed.

Lemma token_is_app_end pre rest t :
  token_is (pre ++ rest) (length pre) t = token_is rest 0 t.
Proof.
  unfold token_is. rewrite lookup_app_r by lia. now rewrite Nat.sub_diag.
Qed.

Lemma eval_date_token_fuel rt token mail_dt :
  eval_date_token rt token mail_dt <> OutOfFuel.
Proof.
  unfold eval_date_token, int_of_digits, timedelta, dt_sub, dt_compare.
  repeat (match goal with
          | |- context [match ?x with _ => _ end] => destruct x
          | |- context [if ?x then _ else _] => destruct x
          end; simpl; try discriminate).
Qed.

Lemma search_subject_fuel rt pattern subject :
  search_subject rt pattern subject <> OutOfFuel.
Proof. unfold search_subject. now destruct (re_compile rt pattern). Qed.

Lemma search_addrs_fuel rt pattern addrs :
  search_addrs rt pattern addrs <> OutOfFuel.
Proof. unfold search_addrs. now destruct (re_compile rt pattern). Qed.

Lemma pop3_eval_predicate_fuel rt subject fa ta ca mail_dt tok :
  Pop3.eval_predicate rt subject fa ta ca mail_dt tok <> OutOfFuel.
Proof.
  unfold Pop3.eval_predicate.
  repeat (match goal with
          | |- eval_date_token _ _ _ <> _ => apply eval_date_token_fuel
          | |- search_subject _ _ _ <> _ => apply search_subject_fuel
          | |- search_addrs _ _ _ <> _ => apply search_addrs_fuel
          | |- context [match ?x with _ => _ end] => destruct x
          end; try discriminate).
Qed.

Lemma eml_eval_predicate_fuel rt subject fa ta ca mail_dt tok :
  Eml.eval_predicate rt subject fa ta ca mail_dt tok <> OutOfFuel.
Proof.
  unfold Eml.eval_predicate.
  repeat (match goal with
          | |- eval_date_token _ _ _ <> _ => apply eval_date_token_fuel
          | |- search_subject _ _ _ <> _ => apply search_subject_fuel
          | |- search_addrs _ _ _ <> _ => apply search_addrs_fuel
          | |- context [if ?x then _ else _] => destruct x
          end; try discriminate).
Qed.

(** *** POP3 entry point *)

Section Pop3Parser.
Context (rt : Runtime) (subject : string)
          (from_addrs to_addrs cc_addrs : list string)
          (mail_dt : option datetime).
Abbreviation parse_expr := (Pop3.parse_expr rt subject from_addrs to_addrs cc_addrs mail_dt).
Abbreviation parse_term := (Pop3.parse_term rt subject from_addrs to_addrs cc_addrs mail_dt).
Abbreviation parse_factor := (Pop3.parse_factor rt subject from_addrs to_addrs cc_addrs mail_dt).
Abbreviation parse_expr_loop := (Pop3.parse_expr_loop rt subject from_addrs to_addrs cc_addrs mail_dt).
Abbreviation parse_term_loop := (Pop3.parse_term_loop rt subject from_addrs to_addrs cc_addrs mail_dt).

Lemma pop3_parse_progress tokens fuel : forall idx,
  (forall v i, parse_expr tokens fuel idx = Ok (v, i) -> idx < i <= length tokens) /\
  (forall v i, parse_term tokens fuel idx = Ok (v, i) -> idx < i <= length tokens) /\
  (forall v i, parse_factor tokens fuel idx = Ok (v, i) -> idx < i <= length tokens) /\
  (forall v0 v i, parse_expr_loop tokens fuel v0 idx = Ok (v, i) -> idx <= length tokens -> idx <= i <= length tokens) /\
  (forall v0 v i, parse_term_loop tokens fuel v0 idx = Ok (v, i) -> idx <= length tokens -> idx <= i <= length tokens).
Proof.
  induction fuel as [|fuel IH]; intros idx.
  { repeat split; intros; discriminate. }
  repeat apply conj; simpl.
  - intros v i. destruct (parse_term tokens fuel idx) as [[v1 i1]| |] eqn:E1; try discriminate.
    simpl. intros E2.
    apply IH in E1. apply IH in E2; lia.
  - intros v i. destruct (parse_factor tokens fuel idx) as [[v1 i1]| |] eqn:E1; try discriminate.
    simpl. intros E2.
    apply IH in E1. apply IH in E2; lia.
  - intros v i. destruct (tokens !! idx) as [tok|] eqn:Etok; try discriminate.
    apply lookup_lt_Some in Etok.
    destruct (String.eqb tok "(").
    + destruct (parse_expr tokens fuel (idx + 1)) as [[v1 i1]| |] eqn:E1; try discriminate.
      simpl. destruct (token_is tokens i1 ")") eqn:Ep; try discriminate.
      intros [= <- <-]. apply IH in E1. apply token_is_lt in Ep. lia.
    + destruct (Pop3.eval_predicate _ _ _ _ _ _ tok); try discriminate.
      simpl. intros [= <- <-]. lia.
  - intros v0 v i. destruct (token_is tokens idx "OR") eqn:Et.
    + apply token_is_lt in Et.
      destruct (parse_term tokens fuel (idx + 1)) as [[v1 i1]| |] eqn:E1; try discriminate.
      simpl. intros E2 _. apply IH in E1. apply IH in E2; lia.
    + intros [= <- <-]. lia.
  - intros v0 v i. destruct (token_is tokens idx "AND") eqn:Et.
    + apply token_is_lt in Et.
      destruct (parse_factor tokens fuel (idx + 1)) as [[v1 i1]| |] eqn:E1; try discriminate.
      simpl. intros E2 _. apply IH in E1. apply IH in E2; lia.
    + intros [= <- <-]. lia.
Qed.

Lemma pop3_parse_fuel_enough tokens fuel : forall idx,
  (3 * ((length tokens) - idx) + 3 <= fuel -> returns_within idx (length tokens) true (parse_expr tokens fuel idx)) /\
  (3 * ((length tokens) - idx) + 2 <= fuel -> returns_within idx (length tokens) true (parse_term tokens fuel idx)) /\
  (3 * ((length tokens) - idx) + 1 <= fuel -> returns_within idx (length tokens) true (parse_factor tokens fuel idx)) /\
  (forall v, 3 * ((length tokens) - idx) + 1 <= fuel -> idx <= (length tokens) -> returns_within idx (length tokens) false (parse_expr_loop tokens fuel v idx)) /\
  (forall v, 3 * ((length tokens) - idx) + 1 <= fuel -> idx <= (length tokens) -> returns_within idx (length tokens) false (parse_term_loop tokens fuel v idx)).
Proof.
  induction fuel as [|fuel IH]; intros idx.
  { repeat split; intros; lia. }
  repeat split.
  - intros Hf. simpl.
    destruct (IH idx) as (_ & Ht & _). specialize (Ht ltac:(lia)).
    destruct (parse_term tokens fuel idx) as [[v i]| |]; simpl in *; auto.
    destruct (IH i) as (_ & _ & _ & Hl & _).
    specialize (Hl v ltac:(lia) ltac:(lia)).
    destruct (parse_expr_loop tokens fuel v i) as [[v' i']| |]; simpl in *; auto; lia.
  - intros Hf. simpl.
    destruct (IH idx) as (_ & _ & Ht & _). specialize (Ht ltac:(lia)).
    destruct (parse_factor tokens fuel idx) as [[v i]| |]; simpl in *; auto.
    destruct (IH i) as (_ & _ & _ & _ & Hl).
    specialize (Hl v ltac:(lia) ltac:(lia)).
    destruct (parse_term_loop tokens fuel v i) as [[v' i']| |]; simpl in *; auto; lia.
  - intros Hf. simpl.
    destruct (tokens !! idx) as [tok|] eqn:Etok; simpl; auto.
    apply lookup_lt_Some in Etok.
    destruct (String.eqb tok "(").
    + destruct (IH (idx + 1)) as (He & _). specialize (He ltac:(lia)).
      destruct (parse_expr tokens fuel (idx + 1)) as [[v i]| |]; simpl in *; auto.
      destruct (token_is tokens i ")") eqn:Ep; simpl; auto.
      apply token_is_lt in Ep. lia.
    + pose proof (pop3_eval_predicate_fuel rt subject from_addrs to_addrs
                    cc_addrs mail_dt tok) as Hp.
      destruct (Pop3.eval_predicate _ _ _ _ _ _ tok); simpl; auto.
      lia.
  - intros v Hf Hidx. simpl.
    destruct (token_is tokens idx "OR") eqn:Eor; simpl; [|lia].
    apply token_is_lt in Eor.
    destruct (IH (idx + 1)) as (_ & Ht & _). specialize (Ht ltac:(lia)).
    destruct (parse_term tokens fuel (idx + 1)) as [[rhs i]| |]; simpl in *; auto.
    destruct (IH i) as (_ & _ & _ & Hl & _).
    specialize (Hl (v || rhs) ltac:(lia) ltac:(lia)).
    destruct (parse_expr_loop tokens fuel (v || rhs) i) as [[v' i']| |]; simpl in *; auto; lia.
  - intros v Hf Hidx. simpl.
    destruct (token_is tokens idx "AND") eqn:Eor; simpl; [|lia].
    apply token_is_lt in Eor.
    destruct (IH (idx + 1)) as (_ & _ & Ht & _). specialize (Ht ltac:(lia)).
    destruct (parse_factor tokens fuel (idx + 1)) as [[rhs i]| |]; simpl in *; auto.
    destruct (IH i) as (_ & _ & _ & _ & Hl).
    specialize (Hl (v && rhs) ltac:(lia) ltac:(lia)).
    destruct (parse_term_loop tokens fuel (v && rhs) i) as [[v' i']| |]; simpl in *; auto; lia.
Qed.

Lemma pop3_parse_fuel_mono tokens fuel : forall fuel' idx, fuel <= fuel' ->
  (parse_expr tokens fuel idx <> OutOfFuel -> parse_expr tokens fuel' idx = parse_expr tokens fuel idx) /\
  (parse_term tokens fuel idx <> OutOfFuel -> parse_term tokens fuel' idx = parse_term tokens fuel idx) /\
  (parse_factor tokens fuel idx <> OutOfFuel -> parse_factor tokens fuel' idx = parse_factor tokens fuel idx) /\
  (forall v, parse_expr_loop tokens fuel v idx <> OutOfFuel -> parse_expr_loop tokens fuel' v idx = parse_expr_loop tokens fuel v idx) /\
  (forall v, parse_term_loop tokens fuel v idx <> OutOfFuel -> parse_term_loop tokens fuel' v idx = parse_term_loop tokens fuel v idx).
Proof.
  induction fuel as [|fuel IH]; intros fuel' idx Hle.
  { repeat split; intros; simpl in *; congruence. }
  destruct fuel' as [|fuel']; [lia|]. apply Nat.succ_le_mono in Hle.
  repeat apply conj; simpl.
  - destruct (IH fuel' idx Hle) as (_ & Ht & _).
    destruct (parse_term tokens fuel idx) as [[v1 i1]| |] eqn:E1;
      simpl; try congruence; (rewrite Ht by discriminate); simpl;
      try congruence.
    intros H. now apply IH.
  - destruct (IH fuel' idx Hle) as (_ & _ & Ht & _).
    destruct (parse_factor tokens fuel idx) as [[v1 i1]| |] eqn:E1;
      simpl; try congruence; (rewrite Ht by discriminate); simpl;
      try congruence.
    intros H. now apply IH.
  - destruct (tokens !! idx) as [tok|]; [|reflexivity].
    destruct (String.eqb tok "("); [|reflexivity].
    destruct (IH fuel' (idx + 1) Hle) as (Ht & _).
    destruct (parse_expr tokens fuel (idx + 1)) as [[v1 i1]| |] eqn:E1;
      simpl; try congruence; (rewrite Ht by discriminate); simpl;
      congruence.
  - intros v. destruct (token_is tokens idx "OR"); [|reflexivity].
    destruct (IH fuel' (idx + 1) Hle) as (_ & Ht & _).
    destruct (parse_term tokens fuel (idx + 1)) as [[v1 i1]| |] eqn:E1;
      simpl; try congruence; (rewrite Ht by discriminate); simpl;
      try congruence.
    intros H. now apply IH.
  - intros v. destruct (token_is tokens idx "AND"); [|reflexivity].
    destruct (IH fuel' (idx + 1) Hle) as (_ & _ & Ht & _).
    destruct (parse_factor tokens fuel (idx + 1)) as [[v1 i1]| |] eqn:E1;
      simpl; try congruence; (rewrite Ht by discriminate); simpl;
      try congruence.
    intros H. now apply IH.
Qed.

Section Pop3Extend.
Context (pre rest : list string).
Hypothesis rest_or : token_is rest 0 "OR" = false.
Hypothesis rest_and : token_is rest 0 "AND" = false.

Lemma pop3_token_is_extend idx t :
  idx <= length pre -> (t = "OR" \/ t = "AND") ->
  token_is (pre ++ rest) idx t = token_is pre idx t.
Proof.
  intros Hle Ht.
  destruct (decide (idx < length pre)) as [Hlt|Hge].
  - now apply token_is_app_l.
  - assert (idx = length pre) as -> by lia.
    rewrite token_is_app_end. unfold token_is at 2.
    rewrite lookup_ge_None_2 by lia.
    destruct Ht as [-> | ->]; assumption.
Qed.

Lemma pop3_parse_extend fuel : forall idx,
  (forall v i, parse_expr pre fuel idx = Ok (v, i) -> parse_expr (pre ++ rest) fuel idx = Ok (v, i)) /\
  (forall v i, parse_term pre fuel idx = Ok (v, i) -> parse_term (pre ++ rest) fuel idx = Ok (v, i)) /\
  (forall v i, parse_factor pre fuel idx = Ok (v, i) -> parse_factor (pre ++ rest) fuel idx = Ok (v, i)) /\
  (forall v0 v i, idx <= length pre -> parse_expr_loop pre fuel v0 idx = Ok (v, i) -> parse_expr_loop (pre ++ rest) fuel v0 idx = Ok (v, i)) /\
  (forall v0 v i, idx <= length pre -> parse_term_loop pre fuel v0 idx = Ok (v, i) -> parse_term_loop (pre ++ rest) fuel v0 idx = Ok (v, i)).
Proof.
  induction fuel as [|fuel IH]; intros idx.
  { repeat split; intros; discriminate. }
  repeat apply conj; simpl.
  - intros v i.
    destruct (parse_term pre fuel idx) as [[v1 i1]| |] eqn:E1; try discriminate.
    simpl. intros E2. pose proof (proj1 (proj2 (pop3_parse_progress pre fuel idx)) _ _ E1).
    apply IH in E1 as ->. simpl. apply IH; [lia|assumption].
  - intros v i.
    destruct (parse_factor pre fuel idx) as [[v1 i1]| |] eqn:E1; try discriminate.
    simpl. intros E2. pose proof (proj1 (proj2 (proj2 (pop3_parse_progress pre fuel idx))) _ _ E1).
    apply IH in E1 as ->. simpl. apply IH; [lia|assumption].
  - intros v i. destruct (pre !! idx) as [tok|] eqn:Etok; try discriminate.
    rewrite (lookup_app_l_Some _ _ _ _ Etok).
    destruct (String.eqb tok "("); [|trivial].
    destruct (parse_expr pre fuel (idx + 1)) as [[v1 i1]| |] eqn:E1; try discriminate.
    simpl. apply IH in E1 as ->. simpl.
    destruct (token_is pre i1 ")") eqn:Ep; try discriminate.
    rewrite token_is_app_l by (eapply token_is_lt; eauto). now rewrite Ep.
  - intros v0 v i Hle. rewrite pop3_token_is_extend by auto.
    destruct (token_is pre idx "OR") eqn:Et; [|trivial].
    destruct (parse_term pre fuel (idx + 1)) as [[v1 i1]| |] eqn:E1; try discriminate.
    simpl. intros E2. pose proof (proj1 (proj2 (pop3_parse_progress pre fuel _)) _ _ E1).
    apply IH in E1 as ->. simpl. apply IH; [lia|assumption].
  - intros v0 v i Hle. rewrite pop3_token_is_extend by auto.
    destruct (token_is pre idx "AND") eqn:Et; [|trivial].
    destruct (parse_factor pre fuel (idx + 1)) as [[v1 i1]| |] eqn:E1; try discriminate.
    simpl. intros E2. pose proof (proj1 (proj2 (proj2 (pop3_parse_progress pre fuel _))) _ _ E1).
    apply IH in E1 as ->. simpl. apply IH; [lia|assumption].
Qed.
End Pop3Extend.
End Pop3Parser.

(** *** EML entry point *)

Section EmlParser.
Context (rt : Runtime) (subject : string)
          (from_addrs to_addrs cc_addrs : list string)
          (mail_dt : option datetime).
Abbreviation parse_expr := (Eml.parse_expr rt subject from_addrs to_addrs cc_addrs mail_dt).
Abbreviation parse_term := (Eml.parse_term rt subject from_addrs to_addrs cc_addrs mail_dt).
Abbreviation parse_factor := (Eml.parse_factor rt subject from_addrs to_addrs cc_addrs mail_dt).
Abbreviation parse_expr_loop := (Eml.parse_expr_loop rt subject from_addrs to_addrs cc_addrs mail_dt).
Abbreviation parse_term_loop := (Eml.parse_term_loop rt subject from_addrs to_addrs cc_addrs mail_dt).

Lemma eml_parse_progress tokens fuel : forall idx,
  (forall v i, parse_expr tokens fuel idx = Ok (v, i) -> idx < i <= length tokens) /\
  (forall v i, parse_term tokens fuel idx = Ok (v, i) -> idx < i <= length tokens) /\
  (forall v i, parse_factor tokens fuel idx = Ok (v, i) -> idx < i <= length tokens) /\
  (forall v0 v i, parse_expr_loop tokens fuel v0 idx = Ok (v, i) -> idx <= length tokens -> idx <= i <= length tokens) /\
  (forall v0 v i, parse_term_loop tokens fuel v0 idx = Ok (v, i) -> idx <= length tokens -> idx <= i <= length tokens).
Proof.
  induction fuel as [|fuel IH]; intros idx.
  { repeat split; intros; discriminate. }
  repeat apply conj; simpl.
  - intros v i. destruct (parse_term tokens fuel idx) as [[v1 i1]| |] eqn:E1; try discriminate.
    simpl. intros E2.
    apply IH in E1. apply IH in E2; lia.
  - intros v i. destruct (parse_factor tokens fuel idx) as [[v1 i1]| |] eqn:E1; try discriminate.
    simpl. intros E2.
    apply IH in E1. apply IH in E2; lia.
  - intros v i. destruct (tokens !! idx) as [tok|] eqn:Etok; try discriminate.
    apply lookup_lt_Some in Etok.
    destruct (String.eqb tok "(").
    + destruct (parse_expr tokens fuel (idx + 1)) as [[v1 i1]| |] eqn:E1; try discriminate.
      simpl. destruct (token_is tokens i1 ")") eqn:Ep; try discriminate.
      intros [= <- <-]. apply IH in E1. apply token_is_lt in Ep. lia.
    + destruct (Eml.eval_predicate _ _ _ _ _ _ tok); try discriminate.
      simpl. intros [= <- <-]. lia.
  - intros v0 v i. destruct (token_is tokens idx "OR") eqn:Et.
    + apply token_is_lt in Et. destruct v0.
      * intros E2 _. apply IH in E2; lia.
      * destruct (parse_term tokens fuel (idx + 1)) as [[v1 i1]| |] eqn:E1; try discriminate.
        simpl. intros E2 _. apply IH in E1. apply IH in E2; lia.
    + intros [= <- <-]. lia.
  - intros v0 v i. destruct (token_is tokens idx "AND") eqn:Et.
    + apply token_is_lt in Et. destruct v0.
      * destruct (parse_factor tokens fuel (idx + 1)) as [[v1 i1]| |] eqn:E1; try discriminate.
        simpl. intros E2 _. apply IH in E1. apply IH in E2; lia.
      * intros E2 _. apply IH in E2; lia.
    + intros [= <- <-]. lia.
Qed.

Lemma eml_parse_fuel_enough tokens fuel : forall idx,
  (3 * ((length tokens) - idx) + 3 <= fuel -> returns_within idx (length tokens) true (parse_expr tokens fuel idx)) /\
  (3 * ((length tokens) - idx) + 2 <= fuel -> returns_within idx (length tokens) true (parse_term tokens fuel idx)) /\
  (3 * ((length tokens) - idx) + 1 <= fuel -> returns_within idx (length tokens) true (parse_factor tokens fuel idx)) /\
  (forall v, 3 * ((length tokens) - idx) + 1 <= fuel -> idx <= (length tokens) -> returns_within idx (length tokens) false (parse_expr_loop tokens fuel v idx)) /\
  (forall v, 3 * ((length tokens) - idx) + 1 <= fuel -> idx <= (length tokens) -> returns_within idx (length tokens) false (parse_term_loop tokens fuel v idx)).
Proof.
  induction fuel as [|fuel IH]; intros idx.
  { repeat split; intros; lia. }
  repeat split.
  - intros Hf. simpl.
    destruct (IH idx) as (_ & Ht & _). specialize (Ht ltac:(lia)).
    destruct (parse_term tokens fuel idx) as [[v i]| |]; simpl in *; auto.
    destruct (IH i) as (_ & _ & _ & Hl & _).
    specialize (Hl v ltac:(lia) ltac:(lia)).
    destruct (parse_expr_loop tokens fuel v i) as [[v' i']| |]; simpl in *; auto; lia.
  - intros Hf. simpl.
    destruct (IH idx) as (_ & _ & Ht & _). specialize (Ht ltac:(lia)).
    destruct (parse_factor tokens fuel idx) as [[v i]| |]; simpl in *; auto.
    destruct (IH i) as (_ & _ & _ & _ & Hl).
    specialize (Hl v ltac:(lia) ltac:(lia)).
    destruct (parse_term_loop tokens fuel v i) as [[v' i']| |]; simpl in *; auto; lia.
  - intros Hf. simpl.
    destruct (tokens !! idx) as [tok|] eqn:Etok; simpl; auto.
    apply lookup_lt_Some in Etok.
    destruct (String.eqb tok "(").
    + destruct (IH (idx + 1)) as (He & _). specialize (He ltac:(lia)).
      destruct (parse_expr tokens fuel (idx + 1)) as [[v i]| |]; simpl in *; auto.
      destruct (token_is tokens i ")") eqn:Ep; simpl; auto.
      apply token_is_lt in Ep. lia.
    + pose proof (eml_eval_predicate_fuel rt subject from_addrs to_addrs
                    cc_addrs mail_dt tok) as Hp.
      destruct (Eml.eval_predicate _ _ _ _ _ _ tok); simpl; auto.
      lia.
  - intros v Hf Hidx. simpl.
    destruct (token_is tokens idx "OR") eqn:Eor; simpl; [|lia].
    apply token_is_lt in Eor.
    destruct v.
    { destruct (IH (idx + 1)) as (_ & _ & _ & Hl & _).
      specialize (Hl true ltac:(lia) ltac:(lia)).
      destruct (parse_expr_loop tokens fuel true (idx + 1)) as [[v' i']| |];
        simpl in *; auto; lia. }
    destruct (IH (idx + 1)) as (_ & Ht & _). specialize (Ht ltac:(lia)).
    destruct (parse_term tokens fuel (idx + 1)) as [[rhs i]| |]; simpl in *; auto.
    destruct (IH i) as (_ & _ & _ & Hl & _).
    specialize (Hl rhs ltac:(lia) ltac:(lia)).
    destruct (parse_expr_loop tokens fuel rhs i) as [[v' i']| |]; simpl in *; auto; lia.
  - intros v Hf Hidx. simpl.
    destruct (token_is tokens idx "AND") eqn:Eor; simpl; [|lia].
    apply token_is_lt in Eor.
    destruct v; cycle 1.
    { destruct (IH (idx + 1)) as (_ & _ & _ & _ & Hl).
      specialize (Hl false ltac:(lia) ltac:(lia)).
      destruct (parse_term_loop tokens fuel false (idx + 1)) as [[v' i']| |];
        simpl in *; auto; lia. }
    destruct (IH (idx + 1)) as (_ & _ & Ht & _). specialize (Ht ltac:(lia)).
    destruct (parse_factor tokens fuel (idx + 1)) as [[rhs i]| |]; simpl in *; auto.
    destruct (IH i) as (_ & _ & _ & _ & Hl).
    specialize (Hl rhs ltac:(lia) ltac:(lia)).
    destruct (parse_term_loop tokens fuel rhs i) as [[v' i']| |]; simpl in *; auto; lia.
Qed.

Lemma eml_parse_fuel_mono tokens fuel : forall fuel' idx, fuel <= fuel' ->
  (parse_expr tokens fuel idx <> OutOfFuel -> parse_expr tokens fuel' idx = parse_expr tokens fuel idx) /\
  (parse_term tokens fuel idx <> OutOfFuel -> parse_term tokens fuel' idx = parse_term tokens fuel idx) /\
  (parse_factor tokens fuel idx <> OutOfFuel -> parse_factor tokens fuel' idx = parse_factor tokens fuel idx) /\
  (forall v, parse_expr_loop tokens fuel v idx <> OutOfFuel -> parse_expr_loop tokens fuel' v idx = parse_expr_loop tokens fuel v idx) /\
  (forall v, parse_term_loop tokens fuel v idx <> OutOfFuel -> parse_term_loop tokens fuel' v idx = parse_term_loop tokens fuel v idx).
Proof.
  induction fuel as [|fuel IH]; intros fuel' idx Hle.
  { repeat split; intros; simpl in *; congruence. }
  destruct fuel' as [|fuel']; [lia|]. apply Nat.succ_le_mono in Hle.
  repeat apply conj; simpl.
  - destruct (IH fuel' idx Hle) as (_ & Ht & _).
    destruct (parse_term tokens fuel idx) as [[v1 i1]| |] eqn:E1;
      simpl; try congruence; (rewrite Ht by discriminate); simpl;
      try congruence.
    intros H. now apply IH.
  - destruct (IH fuel' idx Hle) as (_ & _ & Ht & _).
    destruct (parse_factor tokens fuel idx) as [[v1 i1]| |] eqn:E1;
      simpl; try congruence; (rewrite Ht by discriminate); simpl;
      try congruence.
    intros H. now apply IH.
  - destruct (tokens !! idx) as [tok|]; [|reflexivity].
    destruct (String.eqb tok "("); [|reflexivity].
    destruct (IH fuel' (idx + 1) Hle) as (Ht & _).
    destruct (parse_expr tokens fuel (idx + 1)) as [[v1 i1]| |] eqn:E1;
      simpl; try congruence; (rewrite Ht by discriminate); simpl;
      congruence.
  - intros v. destruct (token_is tokens idx "OR"); [|reflexivity].
    destruct v; [intros H; now apply IH|].
    destruct (IH fuel' (idx + 1) Hle) as (_ & Ht & _).
    destruct (parse_term tokens fuel (idx + 1)) as [[v1 i1]| |] eqn:E1;
      simpl; try congruence; (rewrite Ht by discriminate); simpl;
      try congruence.
    intros H. now apply IH.
  - intros v. destruct (token_is tokens idx "AND"); [|reflexivity].
    destruct v; [|intros H; now apply IH].
    destruct (IH fuel' (idx + 1) Hle) as (_ & _ & Ht & _).
    destruct (parse_factor tokens fuel (idx + 1)) as [[v1 i1]| |] eqn:E1;
      simpl; try congruence; (rewrite Ht by discriminate); simpl;
      try congruence.
    intros H. now apply IH.
Qed.

Section EmlExtend.
Context (pre rest : list string).
Hypothesis rest_or : token_is rest 0 "OR" = false.
Hypothesis rest_and : token_is rest 0 "AND" = false.

Lemma eml_token_is_extend idx t :
  idx <= length pre -> (t = "OR" \/ t = "AND") ->
  token_is (pre ++ rest) idx t = token_is pre idx t.
Proof.
  intros Hle Ht.
  destruct (decide (idx < length pre)) as [Hlt|Hge].
  - now apply token_is_app_l.
  - assert (idx = length pre) as -> by lia.
    rewrite token_is_app_end. unfold token_is at 2.
    rewrite lookup_ge_None_2 by lia.
    destruct Ht as [-> | ->]; assumption.
Qed.

Lemma eml_parse_extend fuel : forall idx,
  (forall v i, parse_expr pre fuel idx = Ok (v, i) -> parse_expr (pre ++ rest) fuel idx = Ok (v, i)) /\
  (forall v i, parse_term pre fuel idx = Ok (v, i) -> parse_term (pre ++ rest) fuel idx = Ok (v, i)) /\
  (forall v i, parse_factor pre fuel idx = Ok (v, i) -> parse_factor (pre ++ rest) fuel idx = Ok (v, i)) /\
  (forall v0 v i, idx <= length pre -> parse_expr_loop pre fuel v0 idx = Ok (v, i) -> parse_expr_loop (pre ++ rest) fuel v0 idx = Ok (v, i)) /\
  (forall v0 v i, idx <= length pre -> parse_term_loop pre fuel v0 idx = Ok (v, i) -> parse_term_loop (pre ++ rest) fuel v0 idx = Ok (v, i)).
Proof.
  induction fuel as [|fuel IH]; intros idx.
  { repeat split; intros; discriminate. }
  repeat apply conj; simpl.
  - intros v i.
    destruct (parse_term pre fuel idx) as [[v1 i1]| |] eqn:E1; try discriminate.
    simpl. intros E2. pose proof (proj1 (proj2 (eml_parse_progress pre fuel idx)) _ _ E1).
    apply IH in E1 as ->. simpl. apply IH; [lia|assumption].
  - intros v i.
    destruct (parse_factor pre fuel idx) as [[v1 i1]| |] eqn:E1; try discriminate.
    simpl. intros E2. pose proof (proj1 (proj2 (proj2 (eml_parse_progress pre fuel idx))) _ _ E1).
    apply IH in E1 as ->. simpl. apply IH; [lia|assumption].
  - intros v i. destruct (pre !! idx) as [tok|] eqn:Etok; try discriminate.
    rewrite (lookup_app_l_Some _ _ _ _ Etok).
    destruct (String.eqb tok "("); [|trivial].
    destruct (parse_expr pre fuel (idx + 1)) as [[v1 i1]| |] eqn:E1; try discriminate.
    simpl. apply IH in E1 as ->. simpl.
    destruct (token_is pre i1 ")") eqn:Ep; try discriminate.
    rewrite token_is_app_l by (eapply token_is_lt; eauto). now rewrite Ep.
  - intros v0 v i Hle. rewrite eml_token_is_extend by auto.
    destruct (token_is pre idx "OR") eqn:Et; [|trivial].
    apply token_is_lt in Et.
    destruct v0; [apply IH; lia|].
    destruct (parse_term pre fuel (idx + 1)) as [[v1 i1]| |] eqn:E1; try discriminate.
    simpl. intros E2. pose proof (proj1 (proj2 (eml_parse_progress pre fuel _)) _ _ E1).
    apply IH in E1 as ->. simpl. apply IH; [lia|assumption].
  - intros v0 v i Hle. rewrite eml_token_is_extend by auto.
    destruct (token_is pre idx "AND") eqn:Et; [|trivial].
    apply token_is_lt in Et.
    destruct v0; [|apply IH; lia].
    destruct (parse_factor pre fuel (idx + 1)) as [[v1 i1]| |] eqn:E1; try discriminate.
    simpl. intros E2. pose proof (proj1 (proj2 (proj2 (eml_parse_progress pre fuel _))) _ _ E1).
    apply IH in E1 as ->. simpl. apply IH; [lia|assumption].
Qed.
End EmlExtend.
End EmlParser.


Section Totality.
Context (rt : Runtime) (subject : string)
        (from_addrs to_addrs cc_addrs : list string)
        (mail_dt : option datetime).

Lemma pop3_eval_tokens_total tokens :
  Pop3.eval_tokens rt subject from_addrs to_addrs cc_addrs mail_dt tokens
  <> OutOfFuel.
Proof.
  unfold Pop3.eval_tokens. destruct tokens as [|t l]; [discriminate|].
  pose proof (proj1 (pop3_parse_fuel_enough rt subject from_addrs to_addrs
                cc_addrs mail_dt (t :: l) (fuel_for (t :: l)) 0)) as H.
  specialize (H ltac:(unfold fuel_for; lia)).
  destruct (Pop3.parse_expr _ _ _ _ _ _ _ _ _) as [[v i]| |];
    simpl in *; try discriminate; contradiction.
Qed.

Lemma eml_eval_tokens_total tokens :
  Eml.eval_tokens rt subject from_addrs to_addrs cc_addrs mail_dt tokens
  <> OutOfFuel.
Proof.
  unfold Eml.eval_tokens. destruct tokens as [|t l]; [discriminate|].
  pose proof (proj1 (eml_parse_fuel_enough rt subject from_addrs to_addrs
                cc_addrs mail_dt (t :: l) (fuel_for (t :: l)) 0)) as H.
  specialize (H ltac:(unfold fuel_for; lia)).
  destruct (Eml.parse_expr _ _ _ _ _ _ _ _ _) as [[v i]| |];
    simpl in *; try discriminate; contradiction.
Qed.

Lemma fuel_for_app pre rest : fuel_for pre <= fuel_for (pre ++ rest).
Proof. unfold fuel_for. rewrite List.length_app. lia. Qed.

Lemma pop3_eval_tokens_extend pre rest v :
  pre <> [] ->
  token_is rest 0 "OR" = false -> token_is rest 0 "AND" = false ->
  Pop3.eval_tokens rt subject from_addrs to_addrs cc_addrs mail_dt pre
  = Ok v ->
  Pop3.eval_tokens rt subject from_addrs to_addrs cc_addrs mail_dt
                   (pre ++ rest) = Ok v.
Proof.
  intros Hne Hor Hand. unfold Pop3.eval_tokens.
  destruct pre as [|t l]; [congruence|]. cbn [app].
  change (t :: l ++ rest) with ((t :: l) ++ rest).
  destruct (Pop3.parse_expr _ _ _ _ _ _ (t :: l) _ _) as [[v' i]| |] eqn:E;
    try discriminate.
  cbn [bind]. intros [= ->].
  pose proof (pop3_parse_fuel_mono rt subject from_addrs to_addrs cc_addrs
                mail_dt (t :: l) _ _ 0 (fuel_for_app (t :: l) rest)) as (Hm & _).
  rewrite E in Hm. specialize (Hm ltac:(discriminate)).
  apply (pop3_parse_extend rt subject from_addrs to_addrs cc_addrs mail_dt
           (t :: l) rest Hor Hand) in Hm.
  now rewrite Hm.
Qed.

Lemma eml_eval_tokens_extend pre rest v :
  pre <> [] ->
  token_is rest 0 "OR" = false -> token_is rest 0 "AND" = false ->
  Eml.eval_tokens rt subject from_addrs to_addrs cc_addrs mail_dt pre
  = Ok v ->
  Eml.eval_tokens rt subject from_addrs to_addrs cc_addrs mail_dt
                  (pre ++ rest) = Ok v.
Proof.
  intros Hne Hor Hand. unfold Eml.eval_tokens.
  destruct pre as [|t l]; [congruence|]. cbn [app].
  change (t :: l ++ rest) with ((t :: l) ++ rest).
  destruct (Eml.parse_expr _ _ _ _ _ _ (t :: l) _ _) as [[v' i]| |] eqn:E;
    try discriminate.
  cbn [bind]. intros [= ->].
  pose proof (eml_parse_fuel_mono rt subject from_addrs to_addrs cc_addrs
                mail_dt (t :: l) _ _ 0 (fuel_for_app (t :: l) rest)) as (Hm & _).
  rewrite E in Hm. specialize (Hm ltac:(discriminate)).
  apply (eml_parse_extend rt subject from_addrs to_addrs cc_addrs mail_dt
           (t :: l) rest Hor Hand) in Hm.
  now rewrite Hm.
Qed.
End Totality.

(** ** One step of each parser *)

Section Pop3Steps.
Context (rt : Runtime) (subject : string)
        (from_addrs to_addrs cc_addrs : list string)
        (mail_dt : option datetime) (tokens : list string).
Abbreviation pred := (Pop3.eval_predicate rt subject from_addrs to_addrs cc_addrs mail_dt).
Abbreviation parse_expr := (Pop3.parse_expr rt subject from_addrs to_addrs cc_addrs mail_dt tokens).
Abbreviation parse_term := (Pop3.parse_term rt subject from_addrs to_addrs cc_addrs mail_dt tokens).
Abbreviation parse_factor := (Pop3.parse_factor rt subject from_addrs to_addrs cc_addrs mail_dt tokens).
Abbreviation parse_expr_loop := (Pop3.parse_expr_loop rt subject from_addrs to_addrs cc_addrs mail_dt tokens).
Abbreviation parse_term_loop := (Pop3.parse_term_loop rt subject from_addrs to_addrs cc_addrs mail_dt tokens).

Lemma pop3_predicate_not_paren tok v :
  pred tok = Ok v -> String.eqb tok "(" = false.
Proof.
  destruct (String.eqb tok "(") eqn:E; [|reflexivity].
  apply String.eqb_eq in E. subst tok. discriminate.
Qed.

Lemma pop3_parse_expr_S fuel idx :
  parse_expr (S fuel) idx
  = do '(value, i) <- parse_term fuel idx; parse_expr_loop fuel value i.
Proof. reflexivity. Qed.

Lemma pop3_parse_term_S fuel idx :
  parse_term (S fuel) idx
  = do '(value, i) <- parse_factor fuel idx; parse_term_loop fuel value i.
Proof. reflexivity. Qed.

Lemma pop3_parse_factor_pred fuel idx tok v :
  tokens !! idx = Some tok -> pred tok = Ok v ->
  parse_factor (S fuel) idx = Ok (v, idx + 1).
Proof.
  intros Ht Hp. cbn [Pop3.parse_factor].
  now rewrite Ht, (pop3_predicate_not_paren _ _ Hp), Hp.
Qed.

Lemma pop3_parse_factor_tok fuel idx tok :
  tokens !! idx = Some tok -> String.eqb tok "(" = false ->
  parse_factor (S fuel) idx = do ok <- pred tok; Ok (ok, idx + 1).
Proof. intros Ht Hp. cbn [Pop3.parse_factor]. now rewrite Ht, Hp. Qed.

Lemma pop3_parse_factor_paren fuel idx :
  tokens !! idx = Some "(" ->
  parse_factor (S fuel) idx
  = do '(val, i) <- parse_expr fuel (idx + 1);
    if token_is tokens i ")" then Ok (val, i + 1) else Raise missing_paren.
Proof. intros Ht. cbn [Pop3.parse_factor]. now rewrite Ht. Qed.

Lemma pop3_parse_factor_end fuel idx :
  tokens !! idx = None -> parse_factor (S fuel) idx = Raise unexpected_end.
Proof. intros Ht. cbn [Pop3.parse_factor]. now rewrite Ht. Qed.

Lemma pop3_expr_loop_or fuel value idx :
  token_is tokens idx "OR" = true ->
  parse_expr_loop (S fuel) value idx
  = do '(rhs, i) <- parse_term fuel (idx + 1);
    parse_expr_loop fuel (value || rhs) i.
Proof. intros Ht. cbn [Pop3.parse_expr_loop]. now rewrite Ht. Qed.

Lemma pop3_expr_loop_stop fuel value idx :
  token_is tokens idx "OR" = false ->
  parse_expr_loop (S fuel) value idx = Ok (value, idx).
Proof. intros Ht. cbn [Pop3.parse_expr_loop]. now rewrite Ht. Qed.

Lemma pop3_term_loop_and fuel value idx :
  token_is tokens idx "AND" = true ->
  parse_term_loop (S fuel) value idx
  = do '(rhs, i) <- parse_factor fuel (idx + 1);
    parse_term_loop fuel (value && rhs) i.
Proof. intros Ht. cbn [Pop3.parse_term_loop]. now rewrite Ht. Qed.

Lemma pop3_term_loop_stop fuel value idx :
  token_is tokens idx "AND" = false ->
  parse_term_loop (S fuel) value idx = Ok (value, idx).
Proof. intros Ht. cbn [Pop3.parse_term_loop]. now rewrite Ht. Qed.
End Pop3Steps.

Ltac pop3_step :=
  first
    [ rewrite pop3_parse_expr_S
    | rewrite pop3_parse_term_S
    | erewrite pop3_parse_factor_pred by (first [reflexivity | eassumption])
    | rewrite pop3_parse_factor_paren by reflexivity
    | rewrite pop3_parse_factor_end by reflexivity
    | rewrite pop3_expr_loop_or by reflexivity
    | rewrite pop3_expr_loop_stop by reflexivity
    | rewrite pop3_term_loop_and by reflexivity
    | rewrite pop3_term_loop_stop by reflexivity
    | match goal with
      | |- context [token_is ?l ?i ?t] =>
          let b := eval cbv in (token_is l i t) in
          change (token_is l i t) with b; cbv iota
      end ];
  cbn [bind Nat.add].

(** A rule whose first token is a predicate and whose second token, if
    any, is neither [AND] nor [OR] has the outcome of that predicate. *)
Lemma pop3_eval_first_predicate rt subject fa ta ca dt tok rest :
  String.eqb tok "(" = false ->
  token_is rest 0 "AND" = false -> token_is rest 0 "OR" = false ->
  Pop3.eval_tokens rt subject fa ta ca dt (tok :: rest)
  = Pop3.eval_predicate rt subject fa ta ca dt tok.
Proof.
  intros Hp Hand Hor. unfold Pop3.eval_tokens, fuel_for. cbn [length].
  replace (3 * S (length rest) + 3)
    with (S (S (S (S (S (S (3 * length rest))))))) by lia.
  rewrite pop3_parse_expr_S, pop3_parse_term_S,
    (pop3_parse_factor_tok rt subject fa ta ca dt (tok :: rest) _ 0 tok
       eq_refl Hp).
  destruct (Pop3.eval_predicate rt subject fa ta ca dt tok) as [v|e|];
    cbn [bind]; try reflexivity.
  rewrite pop3_term_loop_stop by exact Hand. cbn [bind].
  rewrite pop3_expr_loop_stop by exact Hor. reflexivity.
Qed.

Section Precedence.
Context (rt : Runtime) (subject : string)
        (from_addrs to_addrs cc_addrs : list string)
        (mail_dt : option datetime).
Abbreviation eval := (Pop3.eval_tokens rt subject from_addrs to_addrs cc_addrs mail_dt).

(** On the POP3 engine AND binds tighter than OR, and parentheses
    override that, whatever the three predicates are. *)
Lemma pop3_precedence a b c va vb vc :
  Pop3.eval_predicate rt subject from_addrs to_addrs cc_addrs mail_dt a
  = Ok va ->
  Pop3.eval_predicate rt subject from_addrs to_addrs cc_addrs mail_dt b
  = Ok vb ->
  Pop3.eval_predicate rt subject from_addrs to_addrs cc_addrs mail_dt c
  = Ok vc ->
  eval [a; "OR"; b; "AND"; c] = Ok (va || (vb && vc))
  /\ eval ["("; a; "OR"; b; ")"; "AND"; c] = Ok ((va || vb) && vc).
Proof.
  intros Ha Hb Hc. split.
  - unfold Pop3.eval_tokens.
    change (fuel_for [a; "OR"; b; "AND"; c]) with 18.
    repeat pop3_step. reflexivity.
  - unfold Pop3.eval_tokens.
    change (fuel_for ["("; a; "OR"; b; ")"; "AND"; c]) with 24.
    repeat pop3_step. reflexivity.
Qed.
End Precedence.

Section EmlSteps.
Context (rt : Runtime) (subject : string)
        (from_addrs to_addrs cc_addrs : list string)
        (mail_dt : option datetime) (tokens : list string).
Abbreviation pred := (Eml.eval_predicate rt subject from_addrs to_addrs cc_addrs mail_dt).
Abbreviation parse_expr := (Eml.parse_expr rt subject from_addrs to_addrs cc_addrs mail_dt tokens).
Abbreviation parse_term := (Eml.parse_term rt subject from_addrs to_addrs cc_addrs mail_dt tokens).
Abbreviation parse_factor := (Eml.parse_factor rt subject from_addrs to_addrs cc_addrs mail_dt tokens).
Abbreviation parse_expr_loop := (Eml.parse_expr_loop rt subject from_addrs to_addrs cc_addrs mail_dt tokens).
Abbreviation parse_term_loop := (Eml.parse_term_loop rt subject from_addrs to_addrs cc_addrs mail_dt tokens).

Lemma eml_predicate_not_paren tok v :
  pred tok = Ok v -> String.eqb tok "(" = false.
Proof.
  destruct (String.eqb tok "(") eqn:E; [|reflexivity].
  apply String.eqb_eq in E. subst tok. discriminate.
Qed.

Lemma eml_token_is_pred idx tok v op :
  tokens !! idx = Some tok -> pred tok = Ok v ->
  op = "OR" \/ op = "AND" \/ op = ")" ->
  token_is tokens idx op = false.
Proof.
  intros Ht Hp Hop. unfold token_is. rewrite Ht.
  destruct (String.eqb tok op) eqn:E; [|reflexivity].
  apply String.eqb_eq in E. subst tok.
  destruct Hop as [-> | [-> | ->]]; discriminate.
Qed.

Lemma eml_parse_expr_S fuel idx :
  parse_expr (S fuel) idx
  = do '(val, i) <- parse_term fuel idx; parse_expr_loop fuel val i.
Proof. reflexivity. Qed.

Lemma eml_parse_term_S fuel idx :
  parse_term (S fuel) idx
  = do '(val, i) <- parse_factor fuel idx; parse_term_loop fuel val i.
Proof. reflexivity. Qed.

Lemma eml_parse_factor_pred fuel idx tok v :
  tokens !! idx = Some tok -> pred tok = Ok v ->
  parse_factor (S fuel) idx = Ok (v, idx + 1).
Proof.
  intros Ht Hp. cbn [Eml.parse_factor].
  now rewrite Ht, (eml_predicate_not_paren _ _ Hp), Hp.
Qed.

Lemma eml_parse_factor_tok fuel idx tok :
  tokens !! idx = Some tok -> String.eqb tok "(" = false ->
  parse_factor (S fuel) idx = do ok <- pred tok; Ok (ok, idx + 1).
Proof. intros Ht Hp. cbn [Eml.parse_factor]. now rewrite Ht, Hp. Qed.

Lemma eml_parse_factor_paren fuel idx :
  tokens !! idx = Some "(" ->
  parse_factor (S fuel) idx
  = do '(val, i) <- parse_expr fuel (idx + 1);
    if token_is tokens i ")" then Ok (val, i + 1) else Raise missing_paren.
Proof. intros Ht. cbn [Eml.parse_factor]. now rewrite Ht. Qed.

Lemma eml_expr_loop_skip fuel idx :
  token_is tokens idx "OR" = true ->
  parse_expr_loop (S fuel) true idx = parse_expr_loop fuel true (idx + 1).
Proof. intros Ht. cbn [Eml.parse_expr_loop]. now rewrite Ht. Qed.

Lemma eml_expr_loop_or fuel idx :
  token_is tokens idx "OR" = true ->
  parse_expr_loop (S fuel) false idx
  = do '(rhs, i) <- parse_term fuel (idx + 1); parse_expr_loop fuel rhs i.
Proof. intros Ht. cbn [Eml.parse_expr_loop]. now rewrite Ht. Qed.

Lemma eml_expr_loop_stop fuel val idx :
  token_is tokens idx "OR" = false ->
  parse_expr_loop (S fuel) val idx = Ok (val, idx).
Proof. intros Ht. cbn [Eml.parse_expr_loop]. now rewrite Ht. Qed.

Lemma eml_term_loop_and fuel idx :
  token_is tokens idx "AND" = true ->
  parse_term_loop (S fuel) true idx
  = do '(rhs, i) <- parse_factor fuel (idx + 1); parse_term_loop fuel rhs i.
Proof. intros Ht. cbn [Eml.parse_term_loop]. now rewrite Ht. Qed.

Lemma eml_term_loop_skip fuel idx :
  token_is tokens idx "AND" = true ->
  parse_term_loop (S fuel) false idx = parse_term_loop fuel false (idx + 1).
Proof. intros Ht. cbn [Eml.parse_term_loop]. now rewrite Ht. Qed.

Lemma eml_term_loop_stop fuel val idx :
  token_is tokens idx "AND" = false ->
  parse_term_loop (S fuel) val idx = Ok (val, idx).
Proof. intros Ht. cbn [Eml.parse_term_loop]. now rewrite Ht. Qed.
End EmlSteps.

Ltac eml_step :=
  first
    [ rewrite eml_parse_expr_S
    | rewrite eml_parse_term_S
    | erewrite eml_parse_factor_pred by (first [reflexivity | eassumption])
    | rewrite eml_parse_factor_paren by reflexivity
    | rewrite eml_expr_loop_skip by reflexivity
    | rewrite eml_expr_loop_or by reflexivity
    | rewrite eml_expr_loop_stop
        by first [ reflexivity
                 | eapply eml_token_is_pred; [reflexivity|eassumption|tauto] ]
    | rewrite eml_term_loop_and by reflexivity
    | rewrite eml_term_loop_skip by reflexivity
    | rewrite eml_term_loop_stop
        by first [ reflexivity
                 | eapply eml_token_is_pred; [reflexivity|eassumption|tauto] ]
    | erewrite eml_token_is_pred by (first [reflexivity | eassumption | tauto])
    | match goal with
      | |- context [token_is ?l ?i ?t] =>
          let b := eval cbv in (token_is l i t) in
          change (token_is l i t) with b; cbv iota
      end ];
  cbn [bind Nat.add].

(** A rule whose first token is a predicate and whose second token, if
    any, is neither [AND] nor [OR] has the outcome of that predicate. *)
Lemma eml_eval_first_predicate rt subject fa ta ca dt tok rest :
  String.eqb tok "(" = false ->
  token_is rest 0 "AND" = false -> token_is rest 0 "OR" = false ->
  Eml.eval_tokens rt subject fa ta ca dt (tok :: rest)
  = Eml.eval_predicate rt subject fa ta ca dt tok.
Proof.
  intros Hp Hand Hor. unfold Eml.eval_tokens, fuel_for. cbn [length].
  replace (3 * S (length rest) + 3)
    with (S (S (S (S (S (S (3 * length rest))))))) by lia.
  rewrite eml_parse_expr_S, eml_parse_term_S,
    (eml_parse_factor_tok rt subject fa ta ca dt (tok :: rest) _ 0 tok
       eq_refl Hp).
  destruct (Eml.eval_predicate rt subject fa ta ca dt tok) as [v|e|];
    cbn [bind]; try reflexivity.
  rewrite eml_term_loop_stop by exact Hand. cbn [bind].
  rewrite eml_expr_loop_stop by exact Hor. reflexivity.
Qed.

(** ** Facts about the HTML tree *)

Lemma node_ind_nested (P : node -> Prop) :
  (forall s, P (Text s)) ->
  (forall name attrs children,
      Forall P children -> P (Element name attrs children)) ->
  forall n, P n.
Proof.
  intros HT HE. fix IH 1. intros [s|name attrs children].
  - apply HT.
  - apply HE. induction children as [|c l IHl]; constructor.
    + apply IH.
    + apply IHl.
Qed.

Lemma strip_pixels_top_eq soup :
  strip_pixels_top soup
  = List.map strip_pixels (List.filter (fun c => negb (removed c)) soup).
Proof.
  induction soup as [|c l IH]; [reflexivity|].
  cbn [strip_pixels_top List.filter List.map].
  destruct (removed c); cbn [negb List.map]; now rewrite IH.
Qed.

Lemma strip_pixels_element name attrs children :
  strip_pixels (Element name attrs children)
  = Element name attrs (strip_pixels_top children).
Proof.
  reflexivity.
Qed.

Lemma removed_strip_pixels n : removed (strip_pixels n) = removed n.
Proof. destruct n; reflexivity. Qed.


Lemma pixel_free_element name attrs children :
  removed (Element name attrs children) = false ->
  Forall pixel_free children ->
  pixel_free (Element name attrs children).
Proof.
  intros Hr Hc. unfold pixel_free. cbn [descendants].
  constructor; [exact Hr|]. clear Hr.
  induction Hc as [|c l Hc _ IH]; [constructor|].
  cbn [List.map List.concat]. apply Forall_app. split; [exact Hc|exact IH].
Qed.

Lemma strip_pixels_pixel_free n :
  removed n = false -> pixel_free (strip_pixels n).
Proof.
  induction n as [s|name attrs children IH] using node_ind_nested; intros Hr.
  - repeat constructor.
  - rewrite strip_pixels_element. apply pixel_free_element; [exact Hr|].
    clear Hr. induction IH as [|c l Hc _ IHl]; [constructor|].
    cbn [strip_pixels_top]. destruct (removed c) eqn:E; [exact IHl|].
    constructor; [now apply Hc|exact IHl].
Qed.

Lemma strip_pixels_top_pixel_free soup :
  Forall pixel_free (strip_pixels_top soup).
Proof.
  induction soup as [|c l IH]; [constructor|].
  cbn [strip_pixels_top]. destruct (removed c) eqn:E; [exact IH|].
  constructor; [now apply strip_pixels_pixel_free|exact IH].
Qed.

Lemma is_tracking_pixel_spec attrs :
  is_tracking_pixel attrs = true <->
  exists w h : Z,
    py_int (attr_get "width" "0" attrs) = Some w
    /\ py_int (attr_get "height" "0" attrs) = Some h
    /\ ((w <> 0 /\ w <= 1) \/ (h <> 0 /\ h <= 1))%Z.
Proof.
  unfold is_tracking_pixel.
  destruct (py_int (attr_get "width" "0" attrs)) as [w|];
    destruct (py_int (attr_get "height" "0" attrs)) as [h|].
  - rewrite orb_true_iff, !andb_true_iff, !negb_true_iff, !Z.eqb_neq, !Z.leb_le.
    split.
    + intros H. exists w, h. auto.
    + intros (w' & h' & [= <-] & [= <-] & H). exact H.
  - split; [discriminate|]. intros (w' & h' & _ & [=] & _).
  - split; [discriminate|]. intros (w' & h' & [=] & _).
  - split; [discriminate|]. intros (w' & h' & [=] & _).
Qed.

Lemma pixel_free_inv name attrs children :
  pixel_free (Element name attrs children) ->
  removed (Element name attrs children) = false
  /\ Forall pixel_free children.
Proof.
  unfold pixel_free. cbn [descendants]. intros H.
  apply List.Forall_cons_iff in H as [Hr Hc]. split; [exact Hr|].
  clear Hr. induction children as [|c l IH]; [constructor|].
  cbn [List.map List.concat] in Hc. apply Forall_app in Hc as [Hc Hl].
  constructor; [exact Hc|now apply IH].
Qed.

Lemma pixel_free_root n : pixel_free n -> removed n = false.
Proof.
  unfold pixel_free. destruct n; cbn [descendants]; intros H;
    now apply List.Forall_cons_iff in H as [Hr _].
Qed.

(** A tree that holds no tracking pixel is left as it is. *)
Lemma strip_pixels_fixed n : pixel_free n -> strip_pixels n = n.
Proof.
  induction n as [s|name attrs children IH] using node_ind_nested;
    [reflexivity|].
  intros [_ Hc]%pixel_free_inv. rewrite strip_pixels_element. f_equal.
  induction IH as [|c l Hfix _ IHl]; [reflexivity|].
  apply List.Forall_cons_iff in Hc as [Hpc Hpl].
  cbn [strip_pixels_top]. rewrite (pixel_free_root c Hpc).
  now rewrite (Hfix Hpc), (IHl Hpl).
Qed.

Lemma strip_pixels_top_fixed soup :
  Forall pixel_free soup -> strip_pixels_top soup = soup.
Proof.
  induction 1 as [|c l Hc _ IH]; [reflexivity|].
  cbn [strip_pixels_top]. rewrite (pixel_free_root c Hc).
  now rewrite (strip_pixels_fixed c Hc), IH.
Qed.

Lemma int_digits_all s : forall acc,
  Str.forallb Str.is_digit s = true ->
  int_digits acc true s = Some (int_of_digits_acc acc s).
Proof.
  induction s as [|c s IH]; intros acc; [reflexivity|].
  cbn [Str.forallb int_digits int_of_digits_acc].
  intros [-> Hs]%andb_true_iff. now apply IH.
Qed.

Lemma count_digits_all s :
  Str.forallb Str.is_digit s = true -> count_digits s = String.length s.
Proof.
  induction s as [|c s IH]; [reflexivity|].
  cbn [Str.forallb count_digits String.length].
  intros [-> Hs]%andb_true_iff. now rewrite IH.
Qed.

Lemma digit_not_int_space c : Str.is_digit c = true -> is_int_space c = false.
Proof.
  destruct c as [[] [] [] [] [] [] [] []]; try discriminate; reflexivity.
Qed.

Lemma rstrip_int_space_digits s :
  Str.forallb Str.is_digit s = true -> rstrip_int_space s = s.
Proof.
  induction s as [|c s IH]; [reflexivity|].
  cbn [Str.forallb rstrip_int_space].
  intros [Hc Hs]%andb_true_iff. rewrite (IH Hs).
  destruct s; [now rewrite (digit_not_int_space c Hc)|reflexivity].
Qed.

(** [int] on a string of digits and nothing else. *)
Lemma py_int_digits s :
  s <> "" -> Str.forallb Str.is_digit s = true ->
  py_int s = if Nat.ltb int_max_str_digits (String.length s) then None
             else Some (digits_value s).
Proof.
  intros Hne Hd. unfold py_int.
  destruct s as [|c s]; [congruence|].
  pose proof Hd as Hd'. cbn [Str.forallb] in Hd'.
  apply andb_true_iff in Hd' as [Hc Hs].
  assert (Str.drop_while is_int_space (String c s) = String c s) as ->.
  { cbn [Str.drop_while]. now rewrite (digit_not_int_space c Hc). }
  rewrite (rstrip_int_space_digits _ Hd), (count_digits_all _ Hd).
  cbv zeta.
  destruct (Nat.ltb int_max_str_digits (String.length (String c s)));
    [reflexivity|].
  assert (Ascii.eqb c "-" = false) as ->
    by (destruct c as [[] [] [] [] [] [] [] []]; try discriminate;
        reflexivity).
  assert (Ascii.eqb c "+" = false) as ->
    by (destruct c as [[] [] [] [] [] [] [] []]; try discriminate;
        reflexivity).
  cbn [int_digits]. rewrite Hc. unfold digits_value.
  cbn [int_of_digits_acc]. now apply int_digits_all.
Qed.

(** ** Facts about body extraction *)


Section BodyFacts.
Context (decode : string -> list Byte.byte -> option string)
        (decode_utf8 : list Byte.byte -> string)
        (html_to_text : string -> string).
Abbreviation content := (part_content decode decode_utf8).
Abbreviation step := (walk_step decode decode_utf8).


Lemma walk_fold walk text_body html_raw :
  fold_left step walk (text_body, html_raw)
  = (or_else text_body
       (option_map (fun p => Str.strip (content p))
                   (first_part "text/plain" walk)),
     or_else html_raw
       (option_map content (first_part "text/html" walk))).
Proof.
  revert text_body html_raw.
  induction walk as [|p l IH]; intros text_body html_raw.
  { destruct text_body, html_raw; reflexivity. }
  cbn [fold_left first_part List.find]. unfold first_part in IH.
  unfold walk_step at 2.
  destruct (is_attachment p); cbn [negb andb]; [apply IH|].
  destruct (String.eqb (content_type p) "text/plain") eqn:Ep.
  - apply String.eqb_eq in Ep.
    assert (String.eqb (content_type p) "text/html" = false) as Eh
      by (rewrite Ep; reflexivity).
    rewrite Eh. cbn [andb].
    destruct text_body as [t|]; cbn [is_Some_b negb or_else option_map];
      rewrite IH; reflexivity.
  - cbn [andb].
    destruct (String.eqb (content_type p) "text/html") eqn:Eh; cbn [andb].
    + destruct html_raw as [h|]; cbn [is_Some_b negb or_else option_map];
        rewrite IH; reflexivity.
    + apply IH.
Qed.
End BodyFacts.

Lemma first_part_filter ctype walk :
  first_part ctype walk = first_of_type ctype (body_parts (Multipart walk)).
Proof.
  unfold first_part, first_of_type. cbn [body_parts].
  induction walk as [|p l IH]; [reflexivity|].
  cbn [List.find List.filter].
  destruct (is_attachment p); cbn [negb andb List.find]; [exact IH|].
  now rewrite IH.
Qed.

Lemma truthy_default (x : option string) :
  (if truthy x then default "" x else "") = default "" x.
Proof. destruct x as [[|c s]|]; reflexivity. Qed.

(** ** Facts about the identity key *)

Lemma msg_get_case msg :
  msg_get "Message-ID" msg = msg_get "Message-Id" msg.
Proof.
  induction msg as [|[k v] l IH]; [reflexivity|].
  cbn [msg_get]. now rewrite IH.
Qed.

Lemma py_or_default (a : option string) :
  default "" (py_or (py_or a a) (Some "")) = default "" a.
Proof. destruct a as [[|c s]|]; reflexivity. Qed.

(** ** Facts about predicate tokens *)

Lemma date_token_not_other c rest :
  Str.startswith_ci "DATE" (String c rest) = true ->
  Str.startswith "SUBJECT:/" (String c rest) = false
  /\ Str.startswith_ci "SUBJECT:/" (String c rest) = false
  /\ Str.startswith_ci "FROM:/" (String c rest) = false
  /\ Str.startswith_ci "TO:/" (String c rest) = false
  /\ Str.startswith_ci "CC:/" (String c rest) = false.
Proof.
  unfold Str.startswith_ci, Str.startswith.
  cbn [Str.strip_prefix_ci Str.strip_prefix].
  destruct (Ascii.eqb "D" (Str.upper c)) eqn:E; [|discriminate].
  intros _. apply Ascii.eqb_eq in E.
  assert (Ascii.eqb "S" c = false) as ->.
  { destruct (Ascii.eqb "S" c) eqn:Es; [|reflexivity].
    apply Ascii.eqb_eq in Es. subst c. discriminate. }
  rewrite <- E. repeat split; reflexivity.
Qed.

Lemma last_snoc p c : Str.last (p +:+ String c "") = Some c.
Proof.
  induction p as [|d p IH]; [reflexivity|].
  cbn [append Str.last]. rewrite IH.
  destruct (p +:+ String c "") eqn:E; [|reflexivity].
  destruct p; discriminate.
Qed.

Lemma init_snoc p c : Str.init (p +:+ String c "") = p.
Proof.
  induction p as [|d p IH]; [reflexivity|].
  cbn [append Str.init]. rewrite IH.
  destruct (p +:+ String c "") eqn:E; [destruct p; discriminate|reflexivity].
Qed.

Lemma last_cons d s c : Str.last s = Some c -> Str.last (String d s) = Some c.
Proof. destruct s; [discriminate|]. intros H. exact H. Qed.

Lemma endswith_slash_pred (kw pat : string) :
  Str.endswith_char "/" (kw +:+ pat +:+ "/") = true.
Proof.
  unfold Str.endswith_char.
  assert (Str.last (kw +:+ pat +:+ "/") = Some "/"%char) as ->.
  { induction kw as [|d kw IH]; [apply last_snoc|].
    cbn [append]. now apply last_cons. }
  reflexivity.
Qed.

Lemma match_pred_token_pat (kw pfx pat : string) :
  Str.strip_prefix_ci (kw +:+ ":/") (pfx +:+ pat +:+ "/")
  = Some (pat +:+ "/") ->
  match_pred_token kw (pfx +:+ pat +:+ "/") = Some pat.
Proof.
  intros H. unfold match_pred_token. rewrite H.
  unfold Str.endswith_char. rewrite last_snoc, init_snoc. reflexivity.
Qed.

Lemma subject_not_other tok :
  Str.startswith_ci "SUBJECT:/" tok = true ->
  Str.startswith_ci "FROM:/" tok = false
  /\ Str.startswith_ci "TO:/" tok = false
  /\ Str.startswith_ci "CC:/" tok = false
  /\ Str.startswith_ci "DATE" tok = false.
Proof.
  unfold Str.startswith_ci. destruct tok as [|c s]; [discriminate|].
  cbn [Str.strip_prefix_ci].
  destruct (Ascii.eqb "S" (Str.upper c)) eqn:E; [|discriminate].
  apply Ascii.eqb_eq in E. rewrite <- E. intros _. repeat split.
Qed.

Lemma strip_prefix_ci_spells kw : forall KW r rest,
  spells KW kw ->
  Str.strip_prefix_ci (KW +:+ r) (kw +:+ rest) = Str.strip_prefix_ci r rest.
Proof.
  unfold spells.
  induction kw as [|c kw IH]; intros KW r rest <-; [reflexivity|].
  cbn [Str.map String.append Str.strip_prefix_ci].
  rewrite Ascii.eqb_refl. now apply IH.
Qed.

Lemma strip_prefix_other_case p : forall kw r rest,
  String.length kw = String.length p -> kw <> p ->
  Str.strip_prefix (p +:+ r) (kw +:+ rest) = None.
Proof.
  induction p as [|a p IH]; intros [|c kw] r rest Hlen Hne;
    try discriminate; [congruence|].
  cbn [String.append Str.strip_prefix].
  destruct (Ascii.eqb_spec a c) as [->|_]; [|reflexivity].
  apply IH; [now injection Hlen|congruence].
Qed.

Lemma map_length f s : String.length (Str.map f s) = String.length s.
Proof. induction s; cbn; congruence. Qed.

(** What the regex of a predicate and the tests around it find in a
    token whose keyword is [KW] in some letter case. *)
Lemma pred_token_reads KW kw pat :
  spells KW kw ->
  let tok := kw +:+ ":/" +:+ pat +:+ "/" in
  Str.startswith_ci (KW +:+ ":/") tok = true
  /\ Str.endswith_char "/" tok = true
  /\ match_pred_token KW tok = Some pat.
Proof.
  intros Hsp tok.
  assert (Str.strip_prefix_ci (KW +:+ ":/") tok = Some (pat +:+ "/")) as Hp.
  { unfold tok. now rewrite (strip_prefix_ci_spells kw KW) by exact Hsp. }
  repeat apply conj.
  - unfold Str.startswith_ci. now rewrite Hp.
  - exact (endswith_slash_pred kw (":/" +:+ pat)).
  - unfold match_pred_token. rewrite Hp.
    unfold Str.endswith_char. now rewrite last_snoc, init_snoc.
Qed.

(** The first character of such a token. *)
Lemma spelled_head K KW kw rest :
  spells (String K KW) kw ->
  exists c s, kw +:+ rest = String c s /\ Str.upper c = K.
Proof.
  unfold spells. destruct kw as [|c kw]; [discriminate|].
  cbn [Str.map]. intros [= Hc _]. now exists c, (kw +:+ rest).
Qed.

Lemma startswith_ci_head a p c s :
  Ascii.eqb a (Str.upper c) = false ->
  Str.startswith_ci (String a p) (String c s) = false.
Proof.
  intros H. unfold Str.startswith_ci. cbn [Str.strip_prefix_ci].
  now rewrite H.
Qed.

Lemma startswith_head a p c s :
  Str.upper a = a -> Ascii.eqb a (Str.upper c) = false ->
  Str.startswith (String a p) (String c s) = false.
Proof.
  intros Ha H. unfold Str.startswith. cbn [Str.strip_prefix].
  destruct (Ascii.eqb_spec a c) as [<-|_]; [|reflexivity].
  now rewrite Ha, Ascii.eqb_refl in H.
Qed.

Section PredicateReads.
Context (rt : Runtime) (subject : string)
        (from_addrs to_addrs cc_addrs : list string)
        (mail_dt : option datetime) (kw pat : string).
Abbreviation tok := (kw +:+ ":/" +:+ pat +:+ "/").
Abbreviation pop3 :=
  (Pop3.eval_predicate rt subject from_addrs to_addrs cc_addrs mail_dt tok).
Abbreviation eml :=
  (Eml.eval_predicate rt subject from_addrs to_addrs cc_addrs mail_dt tok).

Ltac read_token Hsp p :=
  let Hs := fresh "Hs" in
  let He := fresh "He" in
  let Hm := fresh "Hm" in
  let c := fresh "c" in
  let s := fresh "s" in
  let Et := fresh "Et" in
  let Hc := fresh "Hc" in
  destruct (pred_token_reads _ kw pat Hsp) as (Hs & He & Hm);
  change (Str.startswith_ci p tok = true) in Hs;
  destruct (spelled_head _ _ kw (":/" +:+ pat +:+ "/") Hsp)
    as (c & s & Et & Hc);
  change (tok = String c s) in Et;
  unfold Pop3.eval_predicate, Eml.eval_predicate;
  rewrite Hs, He, Hm; rewrite Et;
  rewrite ?startswith_head, ?startswith_ci_head
    by (rewrite ?Hc; reflexivity);
  reflexivity.

Lemma eml_subject_reads :
  spells "SUBJECT" kw -> eml = search_subject rt pat subject.
Proof.
  intros Hsp. read_token Hsp "SUBJECT:/".
Qed.

Lemma eml_from_reads :
  spells "FROM" kw -> eml = search_addrs rt pat from_addrs.
Proof.
  intros Hsp. read_token Hsp "FROM:/".
Qed.

Lemma eml_to_reads :
  spells "TO" kw -> eml = search_addrs rt pat to_addrs.
Proof.
  intros Hsp. read_token Hsp "TO:/".
Qed.

Lemma eml_cc_reads :
  spells "CC" kw -> eml = search_addrs rt pat cc_addrs.
Proof.
  intros Hsp. read_token Hsp "CC:/".
Qed.

Lemma pop3_from_reads :
  spells "FROM" kw -> pop3 = search_addrs rt pat from_addrs.
Proof.
  intros Hsp. read_token Hsp "FROM:/".
Qed.

Lemma pop3_to_reads :
  spells "TO" kw -> pop3 = search_addrs rt pat to_addrs.
Proof.
  intros Hsp. read_token Hsp "TO:/".
Qed.

Lemma pop3_cc_reads :
  spells "CC" kw -> pop3 = search_addrs rt pat cc_addrs.
Proof.
  intros Hsp. read_token Hsp "CC:/".
Qed.

Lemma pop3_subject_reads :
  kw = "SUBJECT" -> pop3 = search_subject rt pat subject.
Proof.
  intros ->.
  change ("SUBJECT" +:+ ":/" +:+ pat +:+ "/")
    with ("SUBJECT:/" +:+ pat +:+ "/").
  unfold Pop3.eval_predicate.
  rewrite (endswith_slash_pred "SUBJECT:/" pat),
          (match_pred_token_pat "SUBJECT" "SUBJECT:/" pat eq_refl).
  reflexivity.
Qed.

Lemma pop3_subject_other_case :
  spells "SUBJECT" kw -> kw <> "SUBJECT" -> pop3 = Raise (unexpected_token tok).
Proof.
  intros Hsp Hne.
  destruct (pred_token_reads _ kw pat Hsp) as (Hs & He & Hm).
  change (Str.startswith_ci "SUBJECT:/" tok = true) in Hs.
  destruct (subject_not_other _ Hs) as (Hf & Ht & Hc & Hd).
  unfold Pop3.eval_predicate. rewrite Hf, Ht, Hc, Hd.
  assert (Str.startswith "SUBJECT:/" tok = false) as ->; [|reflexivity].
  unfold Str.startswith.
  change (Str.strip_prefix "SUBJECT:/" tok)
    with (Str.strip_prefix ("SUBJECT" +:+ ":/") tok).
  rewrite strip_prefix_other_case; [reflexivity| |exact Hne].
  unfold spells in Hsp. now rewrite <- Hsp, map_length.
Qed.

End PredicateReads.

Lemma token_shape_spec t :
  token_shape t = true -> match_token t = Some (String.length t).
Proof.
  unfold token_shape. destruct (match_token t) as [n|]; [|discriminate].
  intros H. apply Nat.eqb_eq in H. now subst.
Qed.

Lemma take_all s : Str.take (String.length s) s = s.
Proof. induction s; cbn; congruence. Qed.

Lemma append_empty s : s +:+ "" = s.
Proof. induction s; cbn; congruence. Qed.

(** A token followed by white space, or by nothing, is the first token
    of the text, and the scan goes on behind it. *)
Lemma tokenize_token t r :
  token_shape t = true -> blank_head r = true ->
  tokenize (t +:+ r) = t :: tokenize r.
Proof.
  intros Ht Hr. apply token_shape_spec in Ht. rewrite !tokenize_findall.
  pose proof (findall_token t _ r Ht (or_intror Hr)) as H.
  now rewrite take_all in H.
Qed.

Lemma strip_prefix_ci_spelled kw : forall KW rest,
  spells KW kw -> Str.strip_prefix_ci KW (kw +:+ rest) = Some rest.
Proof.
  intros KW rest Hsp.
  rewrite <- (append_empty KW), (strip_prefix_ci_spells kw KW) by exact Hsp.
  reflexivity.
Qed.

Lemma lazy_to_slash_plain pat r :
  Str.contains_char "/" pat = false -> Str.contains_char nl pat = false ->
  lazy_to_slash (pat +:+ String "/" r) = Some (S (String.length pat)).
Proof.
  induction pat as [|c pat IH]; [reflexivity|].
  cbn [Str.contains_char String.append lazy_to_slash String.length].
  intros [Hs Hp]%orb_false_iff [Hn Hq]%orb_false_iff.
  rewrite (Ascii.eqb_sym c "/"), Hs, (Ascii.eqb_sym c nl), Hn.
  now rewrite IH.
Qed.

Ltac token_head Hsp rest :=
  let c := fresh "c" in
  let s := fresh "s" in
  let Et := fresh "Et" in
  let Hc := fresh "Hc" in
  destruct (spelled_head _ _ _ rest Hsp) as (c & s & Et & Hc);
  unfold token_shape, match_token, first_of;
  rewrite Et;
  rewrite ?match_regex_pred_head by (rewrite Hc; reflexivity);
  rewrite ?match_date_head by (rewrite Hc; reflexivity);
  rewrite ?match_keyword_head by (rewrite Hc; reflexivity);
  rewrite <- Et.

(** The shapes of [TOKEN_REGEX], keywords in any letter case. *)
Lemma shape_regex_pred KW kw pat :
  In KW ["SUBJECT"; "FROM"; "TO"; "CC"] -> spells KW kw ->
  Str.contains_char "/" pat = false -> Str.contains_char nl pat = false ->
  token_shape (kw +:+ ":/" +:+ pat +:+ "/") = true.
Proof.
  intros HKW Hsp Hs Hn.
  assert (match_regex_pred KW (kw +:+ ":/" +:+ pat +:+ "/")
          = Some (String.length (kw +:+ ":/" +:+ pat +:+ "/"))) as Hm.
  { unfold match_regex_pred.
    rewrite (strip_prefix_ci_spells kw KW) by exact Hsp.
    change (Str.strip_prefix_ci ":/" (":/" +:+ pat +:+ "/"))
      with (Some (pat +:+ String "/" "")).
    cbv iota beta. rewrite (lazy_to_slash_plain pat "") by assumption.
    cbn [option_map].
    rewrite !length_app. unfold spells in Hsp.
    rewrite <- Hsp, map_length. cbn [String.length]. f_equal. lia. }
  cbn [In] in HKW.
  destruct HKW as [<- | [<- | [<- | [<- | []]]]];
    token_head Hsp (":/" +:+ pat +:+ "/"); rewrite Hm;
    apply Nat.eqb_refl.
Qed.

Lemma shape_date kw op v :
  spells "DATE" kw -> v <> "" -> Str.forallb non_space v = true ->
  token_shape (kw +:+ op_text op +:+ v) = true.
Proof.
  intros Hsp Hne Hv.
  assert (String.length kw = 4) as Hlen
    by (unfold spells in Hsp; now rewrite <- (map_length Str.upper), Hsp).
  assert (match_date (kw +:+ op_text op +:+ v)
          = Some (String.length (kw +:+ op_text op +:+ v))) as Hm.
  { unfold match_date. rewrite strip_prefix_ci_spelled by exact Hsp.
    rewrite !length_app, Hlen.
    destruct v as [|c v]; [congruence|].
    assert (Str.take_while non_space (String c v) = String c v) as Hall.
    { clear -Hv. revert Hv. generalize (String c v) as x.
      induction x as [|d x IH]; [reflexivity|]. cbn.
      intros [-> Hx]%andb_true_iff. now rewrite IH. }
    destruct op; cbn [op_text String.append Ascii.eqb Bool.eqb orb andb];
      cbv iota.
    all: try change (Str.take_while non_space (String "=" (String c v)))
           with (String "=" (Str.take_while non_space (String c v))).
    all: rewrite Hall; cbn [String.length]; f_equal; lia. }
  token_head Hsp (op_text op +:+ v). rewrite Hm. apply Nat.eqb_refl.
Qed.

Lemma shape_operator KW kw :
  In KW ["AND"; "OR"] -> spells KW kw -> token_shape kw = true.
Proof.
  intros HKW Hsp.
  assert (match_keyword KW kw = Some (String.length kw)) as Hm.
  { unfold match_keyword.
    rewrite <- (append_empty kw) at 1.
    rewrite strip_prefix_ci_spelled by exact Hsp.
    unfold spells in Hsp. now rewrite <- Hsp, map_length. }
  rewrite <- (append_empty kw).
  cbn [In] in HKW. destruct HKW as [<- | [<- | []]];
    token_head Hsp ""; rewrite append_empty, Hm; apply Nat.eqb_refl.
Qed.

(** * The claims *)

(** C1 (the filter engines of the two entry points behave identically:
    same boolean on every well-formed rule, raising under the same
    conditions) fails on the code.  The POP3 engine parses both operands
    of an operator before combining them; the EML engine parses the right
    operand inside [val or ...] / [val and ...], so an operand that is
    short-circuited is never consumed.  On [A AND B OR C] with A, B false
    and C true the POP3 engine returns true and the EML engine false; on
    [(A OR B) AND C] with A and C true the POP3 engine returns true and
    the EML engine raises; a lower-case [subject:/c/] raises on the POP3
    engine only. *)
Theorem C1_engines_diverge :
  (forall rt,
      Pop3.parse_and_eval rt
        "DATE<2000-01-01 AND DATE<2000-01-01 OR DATE>2000-01-01"
        "" [] [] [] (Some Lit.noon_2020) = Ok true
      /\ Eml.parse_and_eval rt
        "DATE<2000-01-01 AND DATE<2000-01-01 OR DATE>2000-01-01"
        "" [] [] [] (Some Lit.noon_2020) = Ok false)
  /\ (forall rt,
      Pop3.parse_and_eval rt
        "(DATE>2000-01-01 OR DATE<2000-01-01 ) AND DATE>2000-01-01"
        "" [] [] [] (Some Lit.noon_2020) = Ok true
      /\ Eml.parse_and_eval rt
        "(DATE>2000-01-01 OR DATE<2000-01-01 ) AND DATE>2000-01-01"
        "" [] [] [] (Some Lit.noon_2020) = Raise missing_paren)
  /\ Pop3.parse_and_eval Lit.rt
       "SUBJECT:/a/ AND SUBJECT:/b/ OR SUBJECT:/c/" "c" [] [] [] None
     = Ok true
  /\ Eml.parse_and_eval Lit.rt
       "SUBJECT:/a/ AND SUBJECT:/b/ OR SUBJECT:/c/" "c" [] [] [] None
     = Ok false
  /\ Pop3.parse_and_eval Lit.rt "subject:/c/" "c" [] [] [] None
     = Raise (unexpected_token "subject:/c/")
  /\ Eml.parse_and_eval Lit.rt "subject:/c/" "c" [] [] [] None = Ok true.
Proof.
  split; [|split]; [intros rt; split; vm_compute; reflexivity ..|].
  repeat apply conj; vm_compute; reflexivity.
Qed.

(** C2 (every structurally malformed rule makes [parse_and_eval] raise,
    and the message is then excluded) fails on the code for one kind of
    malformed rule.  Whenever [parse_and_eval] raises the per-message loop
    excludes the message, an unclosed parenthesis raises and a dangling
    operator raises; but tokens left over after one complete expression
    are never looked at, so a rule with a stray closing parenthesis
    returns the value of what precedes it and the message is included. *)
Theorem C2_trailing_tokens_not_rejected :
  (forall rt rule subject fa ta ca dt,
      raises (Pop3.parse_and_eval rt rule subject fa ta ca dt) = true ->
      Pop3.passes_filter rt rule subject fa ta ca dt = false)
  /\ (forall rt,
        Pop3.parse_and_eval rt "DATE>2000-01-01 )" "" [] [] []
                            (Some Lit.noon_2020) = Ok true
        /\ Pop3.passes_filter rt "DATE>2000-01-01 )" "" [] [] []
                              (Some Lit.noon_2020) = true)
  /\ Pop3.parse_and_eval Lit.rt "SUBJECT:/a/ )" "a" [] [] [] None = Ok true
  /\ Pop3.passes_filter Lit.rt "SUBJECT:/a/ )" "a" [] [] [] None = true
  /\ Pop3.parse_and_eval Lit.rt "(SUBJECT:/a/ AND SUBJECT:/b/" "ab" [] [] []
                         None = Raise missing_paren
  /\ Pop3.parse_and_eval Lit.rt "SUBJECT:/a/ AND" "a" [] [] [] None
     = Raise unexpected_end.
Proof.
  split.
  - intros rt rule subject fa ta ca dt. unfold Pop3.passes_filter.
    destruct rule; [discriminate|].
    destruct (Pop3.parse_and_eval _ _ _ _ _ _ _); simpl; congruence.
  - split; [intros rt; split; vm_compute; reflexivity|].
    repeat apply conj; vm_compute; reflexivity.
Qed.

(** C3 (AND binds tighter than OR, both associate to the left, and
    parentheses override: [A OR B AND C] is A or (B and C), and
    [(A OR B) AND C] with A true, B and C false is false).  On the POP3
    engine this holds for all predicates A, B, C.  The EML engine agrees
    on [A OR B AND C], but on [(A OR B) AND C] with A true it
    short-circuits past B, finds B where the closing parenthesis should
    be, and raises instead of returning a boolean. *)
Theorem C3_precedence :
  (forall rt subject fa ta ca dt (a b c : string) (va vb vc : bool),
      Pop3.eval_predicate rt subject fa ta ca dt a = Ok va ->
      Pop3.eval_predicate rt subject fa ta ca dt b = Ok vb ->
      Pop3.eval_predicate rt subject fa ta ca dt c = Ok vc ->
      Pop3.eval_tokens rt subject fa ta ca dt [a; "OR"; b; "AND"; c]
      = Ok (va || (vb && vc))
      /\ Pop3.eval_tokens rt subject fa ta ca dt
           ["("; a; "OR"; b; ")"; "AND"; c] = Ok ((va || vb) && vc))
  /\ (forall rt subject fa ta ca dt (a b c : string) (va vb vc : bool),
        Eml.eval_predicate rt subject fa ta ca dt a = Ok va ->
        Eml.eval_predicate rt subject fa ta ca dt b = Ok vb ->
        Eml.eval_predicate rt subject fa ta ca dt c = Ok vc ->
        Eml.eval_tokens rt subject fa ta ca dt [a; "OR"; b; "AND"; c]
        = Ok (va || (vb && vc))
        /\ Eml.eval_tokens rt subject fa ta ca dt
             ["("; a; "OR"; b; ")"; "AND"; c]
           = if va then Raise missing_paren else Ok (vb && vc))
  /\ (forall rt,
        Pop3.parse_and_eval rt
          "(DATE>2000-01-01 OR DATE<2000-01-01 ) AND DATE<2000-01-01"
          "" [] [] [] (Some Lit.noon_2020) = Ok false
        /\ Eml.parse_and_eval rt
          "(DATE>2000-01-01 OR DATE<2000-01-01 ) AND DATE<2000-01-01"
          "" [] [] [] (Some Lit.noon_2020) = Raise missing_paren).
Proof.
  split; [|split].
  - intros. now apply pop3_precedence.
  - intros rt subject fa ta ca dt a b c va vb vc Ha Hb Hc. split.
    + unfold Eml.eval_tokens.
      change (fuel_for [a; "OR"; b; "AND"; c]) with 18.
      destruct va, vb; repeat eml_step; reflexivity.
    + unfold Eml.eval_tokens.
      change (fuel_for ["("; a; "OR"; b; ")"; "AND"; c]) with 24.
      destruct va, vb; repeat eml_step; reflexivity.
  - intros rt. split; vm_compute; reflexivity.
Qed.

Lemma C3_precedence_witness :
  Pop3.eval_tokens Lit.rt "a" [] [] [] None
    ["SUBJECT:/a/"; "OR"; "SUBJECT:/b/"; "AND"; "SUBJECT:/c/"]
  = Ok (true || (false && false))
  /\ Pop3.eval_tokens Lit.rt "a" [] [] [] None
       ["("; "SUBJECT:/a/"; "OR"; "SUBJECT:/b/"; ")"; "AND"; "SUBJECT:/c/"]
     = Ok ((true || false) && false).
Proof.
  apply (proj1 C3_precedence Lit.rt "a" [] [] [] None
           "SUBJECT:/a/" "SUBJECT:/b/" "SUBJECT:/c/" true false false);
    reflexivity.
Defined.

(** C4: for every DATE token - whatever its comparator and its right-hand
    side, well-formed or not - [eval_date_token] returns false when the
    record has no timestamp ([mail_dt] is [None]); it does so before the
    right-hand side is resolved, so nothing can raise.  Hence every token
    that starts with DATE evaluates to false in both engines. *)
Theorem C4_date_false_without_timestamp :
  (forall rt (token : string), eval_date_token rt token None = Ok false)
  /\ (forall rt subject fa ta ca (tok : string),
        Str.startswith_ci "DATE" tok = true ->
        Pop3.eval_predicate rt subject fa ta ca None tok = Ok false
        /\ Eml.eval_predicate rt subject fa ta ca None tok = Ok false).
Proof.
  assert (forall rt token, eval_date_token rt token None = Ok false) as Hd.
  { intros rt token. unfold eval_date_token.
    destruct (match_date_token token) as [[op rhs]|]; reflexivity. }
  split; [exact Hd|].
  intros rt subject fa ta ca tok Hs.
  destruct tok as [|c rest]; [discriminate|].
  destruct (date_token_not_other c rest Hs) as (H1 & H2 & H3 & H4 & H5).
  unfold Pop3.eval_predicate, Eml.eval_predicate.
  rewrite H1, H2, H3, H4, H5, Hs. cbn [andb]. split; apply Hd.
Qed.

Lemma C4_date_false_without_timestamp_witness :
  Pop3.eval_predicate Lit.rt "s" [] [] [] None "DATE>=NOW-7d" = Ok false
  /\ Eml.eval_predicate Lit.rt "s" [] [] [] None "DATE>=NOW-7d" = Ok false.
Proof.
  apply (proj2 C4_date_false_without_timestamp Lit.rt "s" [] [] []
           "DATE>=NOW-7d").
  reflexivity.
Defined.




(** C6, as amended: with [bs4] available, [sanitize_html] and
    [html_to_text] work on the parsed tree with every [img] removed whose
    width and height attributes both parse as integers (an absent one
    counting as 0) and one of them is a non-zero integer at most 1.  Such
    an element goes with what it holds; nothing else changes: the other
    nodes stay in their order, texts and the names and attributes of
    elements as they are, and a tree without such an image is returned
    as it is.  No such element is left anywhere in the tree.  An [img]
    one of whose two attributes does not parse is kept, whatever the
    other attribute is, and so is one whose declared sizes are 0; a
    string of digits parses as the number it writes when it has at most
    4300 digits and does not parse when it has more; white space around
    the number, a sign and single underscores between digits are read,
    U+001C before the number is not.  The image of width 1 and height 1
    is removed.  Without [bs4], [sanitize_html] returns
    its input unchanged. *)
Theorem C6_tracking_pixels :
  (forall soup : list node,
      strip_pixels_top soup
      = List.map strip_pixels
                 (List.filter (fun n => negb (removed n)) soup)
      /\ Forall pixel_free (strip_pixels_top soup))
  /\ (forall (soup : list node) (n : node),
        In n soup -> removed n = false ->
        In (strip_pixels n) (strip_pixels_top soup))
  /\ (forall s, strip_pixels (Text s) = Text s)
  /\ (forall name attrs children,
        strip_pixels (Element name attrs children)
        = Element name attrs (strip_pixels_top children))
  /\ (forall soup, Forall pixel_free soup -> strip_pixels_top soup = soup)
  /\ (forall name attrs children,
        removed (Element name attrs children) = true <->
        name = "img"
        /\ exists w h : Z,
             py_int (attr_get "width" "0" attrs) = Some w
             /\ py_int (attr_get "height" "0" attrs) = Some h
             /\ ((w <> 0 /\ w <= 1) \/ (h <> 0 /\ h <= 1))%Z)
  /\ (forall attrs children,
        py_int (attr_get "width" "0" attrs) = None
        \/ py_int (attr_get "height" "0" attrs) = None ->
        removed (Element "img" attrs children) = false)
  /\ (forall digits,
        digits <> "" -> Str.forallb Str.is_digit digits = true ->
        (String.length digits <= int_max_str_digits ->
         py_int digits = Some (digits_value digits))
        /\ (int_max_str_digits < String.length digits ->
            py_int digits = None))
  /\ List.map py_int [" 1 "; "+1"; "-1"; "1_0"; "1px"; ""; "1.0"; "- 1";
                      String (ascii_of_N 28) "1"]
     = [Some 1; Some 1; Some (-1); Some 10; None; None; None; None;
        None]%Z
  /\ strip_pixels_top
       [Element "p" [] [Text "a";
                        Element "img" [("width", "1"); ("height", "1");
                                       ("src", "x")] [];
                        Text "b"]]
     = [Element "p" [] [Text "a"; Text "b"]]
  /\ (forall bs unescape_entities html,
        html <> "" ->
        sanitize_html (Some bs) html
        = bs_str bs (strip_pixels_top (bs_parse bs html))
        /\ html_to_text (Some bs) unescape_entities html
           = Str.strip
               (unescape unescape_entities
                  (bs_get_text bs (strip_pixels_top (bs_parse bs html)))))
  /\ (forall html, sanitize_html None html = html).
Proof.
  repeat apply conj.
  - intros soup. split;
      [apply strip_pixels_top_eq|apply strip_pixels_top_pixel_free].
  - intros soup n Hin Hr. rewrite strip_pixels_top_eq.
    apply in_map. apply filter_In. split; [exact Hin|]. now rewrite Hr.
  - reflexivity.
  - apply strip_pixels_element.
  - apply strip_pixels_top_fixed.
  - intros name attrs children. cbn [removed].
    rewrite andb_true_iff, String.eqb_eq, is_tracking_pixel_spec.
    reflexivity.
  - intros attrs children H. cbn [removed]. unfold is_tracking_pixel.
    destruct H as [-> | ->]; [reflexivity|].
    now destruct (py_int (attr_get "width" "0" attrs)).
  - intros digits Hne Hd. rewrite py_int_digits by assumption. split.
    + intros Hlen. apply Nat.ltb_ge in Hlen. now rewrite Hlen.
    + intros Hlen. apply Nat.ltb_lt in Hlen. now rewrite Hlen.
  - vm_compute. reflexivity.
  - vm_compute. reflexivity.
  - intros bs ue html Hne. destruct html; [congruence|]. split; reflexivity.
  - intros html. now destruct html.
Qed.

Lemma C6_tracking_pixels_witness :
  In (strip_pixels (Element "img" [("width", "abc"); ("height", "1")] []))
     (strip_pixels_top
        [Element "img" [("width", "1"); ("height", "1")] [];
         Element "img" [("width", "abc"); ("height", "1")] []]).
Proof.
  apply (proj1 (proj2 C6_tracking_pixels)).
  - right. left. reflexivity.
  - reflexivity.
Defined.

(** C6 as stated fails: an [img] whose declared width and height are 0,
    integers at most 1, is not removed; and without [bs4] the 1x1 image
    of the claim is still in the output of [sanitize_html]. *)
Lemma C6_zero_size_image_kept :
  py_int "0" = Some 0%Z
  /\ strip_pixels_top
       [Element "img" [("width", "0"); ("height", "0"); ("src", "x")] []]
     = [Element "img" [("width", "0"); ("height", "0"); ("src", "x")] []]
  /\ sanitize_html None "<img width='1' height='1' src='x'>"
     = "<img width='1' height='1' src='x'>".
Proof. repeat apply conj; reflexivity. Qed.




(** C8, as amended: [tokenize] returns, in order, exactly the matches of
    the token pattern found by one left-to-right scan: the rule is the
    concatenation of the scanned segments, the tokens are its matched
    segments, each token is as a whole one match of the pattern, and every
    other character is passed over.  Deleting all stray text from a rule
    (the white space that separates tokens stays) changes neither its
    tokens nor what either engine returns or raises.  The matches are the
    token shapes, keywords in any letter case: a regex predicate up to a
    closing slash, [DATE] with an operator and a value free of white
    space, [AND], [OR] and the parentheses; such a text, followed by
    white space or by the end of the rule, is the next token.  A
    misspelled keyword is passed over as far as it holds none of these
    shapes. *)
Theorem C8_tokenize_discards_stray_text :
  (forall rule : string,
      tokenize rule = omap seg_token (scan 0 rule)
      /\ Str.concat (List.map seg_text (scan 0 rule)) = rule
      /\ Forall (fun t => token_shape t = true) (tokenize rule)
      /\ tokenize (strip_stray rule) = tokenize rule
      /\ (forall rt subject fa ta ca dt,
            Pop3.parse_and_eval rt (strip_stray rule) subject fa ta ca dt
            = Pop3.parse_and_eval rt rule subject fa ta ca dt
            /\ Eml.parse_and_eval rt (strip_stray rule) subject fa ta ca dt
               = Eml.parse_and_eval rt rule subject fa ta ca dt))
  /\ (forall t rest : string,
        token_shape t = true -> blank_head rest = true ->
        tokenize (t +:+ rest) = t :: tokenize rest)
  /\ (forall KW kw pat : string,
        In KW ["SUBJECT"; "FROM"; "TO"; "CC"] -> spells KW kw ->
        Str.contains_char "/" pat = false ->
        Str.contains_char nl pat = false ->
        token_shape (kw +:+ ":/" +:+ pat +:+ "/") = true)
  /\ (forall (kw : string) op (v : string),
        spells "DATE" kw -> v <> "" -> Str.forallb non_space v = true ->
        token_shape (kw +:+ op_text op +:+ v) = true)
  /\ (forall KW kw : string,
        In KW ["AND"; "OR"] -> spells KW kw -> token_shape kw = true)
  /\ token_shape "(" = true
  /\ token_shape ")" = true
  /\ scan 0 "(A#ND SUBJCT:/x/"
     = [Tok "("; Stray "A"; Stray "#"; Stray "N"; Stray "D"; Stray " ";
        Stray "S"; Stray "U"; Stray "B"; Stray "J"; Stray "C"; Stray "T";
        Stray ":"; Stray "/"; Stray "x"; Stray "/"]%char
  /\ strip_stray "SUBJECT:/a/ AND SUBJCT:/b/ OR FROM:/c/, DATE>=NOW-7d ;"
     = "SUBJECT:/a/ AND  OR FROM:/c/ DATE>=NOW-7d "
  /\ tokenize "SUBJECT:/a/ AND SUBJCT:/b/ OR FROM:/c/, DATE>=NOW-7d ;"
     = ["SUBJECT:/a/"; "AND"; "OR"; "FROM:/c/"; "DATE>=NOW-7d"].
Proof.
  split; [|repeat apply conj].
  - intros rule.
    assert (tokenize (strip_stray rule) = tokenize rule) as Hstrip
      by (rewrite !tokenize_findall; apply findall_strip_stray).
    repeat apply conj.
    + rewrite tokenize_findall. apply findall_scan.
    + apply (scan_text 0).
    + rewrite tokenize_findall. apply findall_shapes.
    + exact Hstrip.
    + intros. unfold Pop3.parse_and_eval, Eml.parse_and_eval.
      now rewrite Hstrip.
  - apply tokenize_token.
  - apply shape_regex_pred.
  - apply shape_date.
  - apply shape_operator.
  - reflexivity.
  - reflexivity.
  - vm_compute. reflexivity.
  - vm_compute. reflexivity.
  - vm_compute. reflexivity.
Qed.

Lemma C8_tokenize_discards_stray_text_witness :
  tokenize ("from:/a b@c/" +:+ " or (Date<=2020-01-01")
  = "from:/a b@c/" :: tokenize " or (Date<=2020-01-01".
Proof.
  apply (proj1 (proj2 C8_tokenize_discards_stray_text)
               "from:/a b@c/" " or (Date<=2020-01-01").
  - apply (proj1 (proj2 (proj2 C8_tokenize_discards_stray_text))
                 "FROM" "from" "a b@c");
      [right; left; reflexivity | reflexivity ..].
  - reflexivity.
Defined.

(** C8 as stated fails: the misspelled keyword of [FORM:/x/] holds the
    token OR, which stays; on a message with subject b the rule is
    satisfied, and the same rule without the misspelled predicate is
    not. *)
Lemma C8_misspelled_keyword_leaves_token :
  tokenize "SUBJECT:/a/ FORM:/x/ SUBJECT:/b/"
  = ["SUBJECT:/a/"; "OR"; "SUBJECT:/b/"]
  /\ tokenize "SUBJECT:/a/  SUBJECT:/b/" = ["SUBJECT:/a/"; "SUBJECT:/b/"]
  /\ Pop3.parse_and_eval Lit.rt "SUBJECT:/a/ FORM:/x/ SUBJECT:/b/"
                         "b" [] [] [] None = Ok true
  /\ Pop3.parse_and_eval Lit.rt "SUBJECT:/a/  SUBJECT:/b/"
                         "b" [] [] [] None = Ok false
  /\ Eml.parse_and_eval Lit.rt "SUBJECT:/a/ FORM:/x/ SUBJECT:/b/"
                        "b" [] [] [] None = Ok true
  /\ Eml.parse_and_eval Lit.rt "SUBJECT:/a/  SUBJECT:/b/"
                        "b" [] [] [] None = Ok false.
Proof. repeat apply conj; vm_compute; reflexivity. Qed.

(** C9, as amended: the identity key of an EML message is the value of
    its Message-Id header with surrounding white space stripped, when
    that is not empty; otherwise it is [SHA1-] followed by the SHA-1 hex
    digest of the raw bytes, which is never of the form of a Message-Id
    (it does not start with an angle bracket). *)
Theorem C9_uidl :
  forall sha1_hexdigest (msg_bytes : list Byte.byte)
         (msg : list (string * string)),
    make_uidl_for_eml sha1_hexdigest msg_bytes msg
    = match Str.strip (default "" (msg_get "Message-Id" msg)) with
      | EmptyString => "SHA1-" +:+ sha1_hexdigest msg_bytes
      | mid => mid
      end
    /\ is_msg_id ("SHA1-" +:+ sha1_hexdigest msg_bytes) = false.
Proof.
  intros sha msg_bytes msg. split; [|reflexivity].
  unfold make_uidl_for_eml. rewrite msg_get_case, py_or_default.
  destruct (Str.strip _); reflexivity.
Qed.

(** C9 as stated fails: the header value is present and not blank, and
    the key is not that value verbatim. *)
Lemma C9_message_id_is_stripped :
  msg_get "Message-Id" [("Subject", "x"); ("Message-ID", "<a@b> ")]
  = Some "<a@b> "
  /\ make_uidl_for_eml Lit.sha1_hexdigest []
       [("Subject", "x"); ("Message-ID", "<a@b> ")] = "<a@b>".
Proof. split; reflexivity. Qed.

(** C10: [parse_and_eval] does not require all tokens to be consumed.  In
    both engines, when a non-empty token list evaluates to a value,
    appending any tokens that do not begin with [AND] or [OR] still
    gives that value, without error.  So a rule with a stray closing
    parenthesis after its first predicate, with a lower-case [and] (the
    tokenizer matches it but only the exact strings AND and OR are
    operators), or with a second predicate and no operator has the
    outcome of the first predicate alone. *)
Theorem C10_trailing_tokens_ignored :
  (forall rt subject fa ta ca dt (pre rest : list string) v,
      pre <> [] ->
      token_is rest 0 "OR" = false -> token_is rest 0 "AND" = false ->
      (Pop3.eval_tokens rt subject fa ta ca dt pre = Ok v ->
       Pop3.eval_tokens rt subject fa ta ca dt (pre ++ rest) = Ok v)
      /\ (Eml.eval_tokens rt subject fa ta ca dt pre = Ok v ->
          Eml.eval_tokens rt subject fa ta ca dt (pre ++ rest) = Ok v))
  /\ (forall rt subject fa ta ca dt,
        let first := search_subject rt "a" subject in
        Pop3.parse_and_eval rt "SUBJECT:/a/" subject fa ta ca dt = first
        /\ Pop3.parse_and_eval rt "SUBJECT:/a/ )" subject fa ta ca dt
           = first
        /\ Pop3.parse_and_eval rt "SUBJECT:/a/ and SUBJECT:/b/"
                               subject fa ta ca dt = first
        /\ Pop3.parse_and_eval rt "SUBJECT:/a/ SUBJECT:/b/"
                               subject fa ta ca dt = first
        /\ Eml.parse_and_eval rt "SUBJECT:/a/" subject fa ta ca dt = first
        /\ Eml.parse_and_eval rt "SUBJECT:/a/ )" subject fa ta ca dt = first
        /\ Eml.parse_and_eval rt "SUBJECT:/a/ and SUBJECT:/b/"
                              subject fa ta ca dt = first
        /\ Eml.parse_and_eval rt "SUBJECT:/a/ SUBJECT:/b/"
                              subject fa ta ca dt = first).
Proof.
  split.
  - intros. split.
    + now apply pop3_eval_tokens_extend.
    + now apply eml_eval_tokens_extend.
  - intros rt subject fa ta ca dt first.
    unfold Pop3.parse_and_eval, Eml.parse_and_eval.
    replace (tokenize "SUBJECT:/a/") with ["SUBJECT:/a/"]
      by (vm_compute; reflexivity).
    replace (tokenize "SUBJECT:/a/ )") with ["SUBJECT:/a/"; ")"]
      by (vm_compute; reflexivity).
    replace (tokenize "SUBJECT:/a/ and SUBJECT:/b/")
      with ["SUBJECT:/a/"; "and"; "SUBJECT:/b/"]
      by (vm_compute; reflexivity).
    replace (tokenize "SUBJECT:/a/ SUBJECT:/b/")
      with ["SUBJECT:/a/"; "SUBJECT:/b/"] by (vm_compute; reflexivity).
    rewrite !pop3_eval_first_predicate, !eml_eval_first_predicate
      by reflexivity.
    repeat apply conj; reflexivity.
Qed.

Lemma C10_trailing_tokens_ignored_witness :
  Pop3.eval_tokens Lit.rt "xay" [] [] [] None
                   (["SUBJECT:/a/"] ++ [")"; "OR"])
  = Ok true.
Proof.
  apply (proj1 (proj1 C10_trailing_tokens_ignored Lit.rt "xay" [] [] []
                 None ["SUBJECT:/a/"] [")"; "OR"] true
                 ltac:(discriminate) eq_refl eq_refl)).
  reflexivity.
Defined.

(** * Further properties *)

(** Evaluation of a rule always finishes, in both engines: on every rule
    and every message [parse_and_eval] either returns a boolean or raises;
    the fuel of the model never runs out. *)
Theorem parse_and_eval_total :
  forall rt rule subject fa ta ca dt,
    ((exists b, Pop3.parse_and_eval rt rule subject fa ta ca dt = Ok b)
     \/ (exists e, Pop3.parse_and_eval rt rule subject fa ta ca dt = Raise e))
    /\ ((exists b, Eml.parse_and_eval rt rule subject fa ta ca dt = Ok b)
        \/ (exists e,
              Eml.parse_and_eval rt rule subject fa ta ca dt = Raise e)).
Proof.
  intros rt rule subject fa ta ca dt.
  unfold Pop3.parse_and_eval, Eml.parse_and_eval. split.
  - pose proof (pop3_eval_tokens_total rt subject fa ta ca dt (tokenize rule))
      as H.
    destruct (Pop3.eval_tokens _ _ _ _ _ _ _) as [b|e|]; [left|right|]; eauto.
    congruence.
  - pose proof (eml_eval_tokens_total rt subject fa ta ca dt (tokenize rule))
      as H.
    destruct (Eml.eval_tokens _ _ _ _ _ _ _) as [b|e|]; [left|right|]; eauto.
    congruence.
Qed.

(** A rule without any token - the empty rule, or one that consists of
    white space and stray text only - lets every message through, in both
    entry points. *)
Theorem rule_without_tokens_keeps_all :
  forall rt rule subject fa ta ca dt,
    tokenize rule = [] ->
    Pop3.passes_filter rt rule subject fa ta ca dt = true
    /\ Eml.passes_filter rt rule subject fa ta ca dt = true.
Proof.
  intros rt rule subject fa ta ca dt Hr.
  unfold Pop3.passes_filter, Eml.passes_filter,
    Pop3.parse_and_eval, Eml.parse_and_eval.
  rewrite Hr. destruct rule; split; reflexivity.
Qed.

Lemma rule_without_tokens_keeps_all_witness :
  Pop3.passes_filter Lit.rt " subjct ; " "s" [] [] [] None = true
  /\ Eml.passes_filter Lit.rt " subjct ; " "s" [] [] [] None = true.
Proof.
  apply (rule_without_tokens_keeps_all Lit.rt " subjct ; " "s" [] [] [] None).
  vm_compute. reflexivity.
Defined.

(** ** The POP3 parser against the grammar of rules *)

Section Pop3Grammar.
Context (rt : Runtime) (subject : string)
        (from_addrs to_addrs cc_addrs : list string)
        (mail_dt : option datetime).
Abbreviation pred := (Pop3.eval_predicate rt subject from_addrs to_addrs cc_addrs mail_dt).

Section Runs.
Context (tokens : list string).
Abbreviation parse_expr := (Pop3.parse_expr rt subject from_addrs to_addrs cc_addrs mail_dt tokens).
Abbreviation parse_term := (Pop3.parse_term rt subject from_addrs to_addrs cc_addrs mail_dt tokens).
Abbreviation parse_factor := (Pop3.parse_factor rt subject from_addrs to_addrs cc_addrs mail_dt tokens).
Abbreviation parse_expr_loop := (Pop3.parse_expr_loop rt subject from_addrs to_addrs cc_addrs mail_dt tokens).
Abbreviation parse_term_loop := (Pop3.parse_term_loop rt subject from_addrs to_addrs cc_addrs mail_dt tokens).

Lemma pop3_runs_expr idx v i r :
  runs (fun f => parse_term f idx) (v, i) ->
  runs (fun f => parse_expr_loop f v i) r ->
  runs (fun f => parse_expr f idx) r.
Proof.
  intros [f1 H1] [f2 H2]. exists (S (f1 `max` f2)).
  rewrite pop3_parse_expr_S.
  rewrite (proj1 (proj2 (pop3_parse_fuel_mono rt subject from_addrs to_addrs
            cc_addrs mail_dt tokens f1 (f1 `max` f2) idx ltac:(lia))))
    by (rewrite H1; discriminate).
  rewrite H1. cbn [bind].
  rewrite (proj1 (proj2 (proj2 (proj2 (pop3_parse_fuel_mono rt subject
            from_addrs to_addrs cc_addrs mail_dt tokens f2 (f1 `max` f2) i
            ltac:(lia))))) v)
    by (rewrite H2; discriminate).
  exact H2.
Qed.

Lemma pop3_runs_term idx v i r :
  runs (fun f => parse_factor f idx) (v, i) ->
  runs (fun f => parse_term_loop f v i) r ->
  runs (fun f => parse_term f idx) r.
Proof.
  intros [f1 H1] [f2 H2]. exists (S (f1 `max` f2)).
  rewrite pop3_parse_term_S.
  rewrite (proj1 (proj2 (proj2 (pop3_parse_fuel_mono rt subject from_addrs
            to_addrs cc_addrs mail_dt tokens f1 (f1 `max` f2) idx
            ltac:(lia)))))
    by (rewrite H1; discriminate).
  rewrite H1. cbn [bind].
  rewrite (proj2 (proj2 (proj2 (proj2 (pop3_parse_fuel_mono rt subject
            from_addrs to_addrs cc_addrs mail_dt tokens f2 (f1 `max` f2) i
            ltac:(lia))))) v)
    by (rewrite H2; discriminate).
  exact H2.
Qed.

Lemma pop3_runs_pred idx tok v :
  tokens !! idx = Some tok -> pred tok = Ok v ->
  runs (fun f => parse_factor f idx) (v, idx + 1).
Proof.
  intros Ht Hp. exists 1.
  exact (pop3_parse_factor_pred rt subject from_addrs to_addrs cc_addrs
           mail_dt tokens 0 idx tok v Ht Hp).
Qed.

Lemma pop3_runs_paren idx v i :
  tokens !! idx = Some "(" ->
  runs (fun f => parse_expr f (idx + 1)) (v, i) ->
  token_is tokens i ")" = true ->
  runs (fun f => parse_factor f idx) (v, i + 1).
Proof.
  intros Ht [f H] Hc. exists (S f).
  rewrite pop3_parse_factor_paren by exact Ht.
  rewrite H. cbn [bind]. now rewrite Hc.
Qed.

Lemma pop3_runs_or idx v rhs i r :
  token_is tokens idx "OR" = true ->
  runs (fun f => parse_term f (idx + 1)) (rhs, i) ->
  runs (fun f => parse_expr_loop f (v || rhs) i) r ->
  runs (fun f => parse_expr_loop f v idx) r.
Proof.
  intros Ht [f1 H1] [f2 H2]. exists (S (f1 `max` f2)).
  rewrite pop3_expr_loop_or by exact Ht.
  rewrite (proj1 (proj2 (pop3_parse_fuel_mono rt subject from_addrs to_addrs
            cc_addrs mail_dt tokens f1 (f1 `max` f2) (idx + 1) ltac:(lia))))
    by (rewrite H1; discriminate).
  rewrite H1. cbn [bind].
  rewrite (proj1 (proj2 (proj2 (proj2 (pop3_parse_fuel_mono rt subject
            from_addrs to_addrs cc_addrs mail_dt tokens f2 (f1 `max` f2) i
            ltac:(lia))))) (v || rhs))
    by (rewrite H2; discriminate).
  exact H2.
Qed.

Lemma pop3_runs_and idx v rhs i r :
  token_is tokens idx "AND" = true ->
  runs (fun f => parse_factor f (idx + 1)) (rhs, i) ->
  runs (fun f => parse_term_loop f (v && rhs) i) r ->
  runs (fun f => parse_term_loop f v idx) r.
Proof.
  intros Ht [f1 H1] [f2 H2]. exists (S (f1 `max` f2)).
  rewrite pop3_term_loop_and by exact Ht.
  rewrite (proj1 (proj2 (proj2 (pop3_parse_fuel_mono rt subject from_addrs
            to_addrs cc_addrs mail_dt tokens f1 (f1 `max` f2) (idx + 1)
            ltac:(lia)))))
    by (rewrite H1; discriminate).
  rewrite H1. cbn [bind].
  rewrite (proj2 (proj2 (proj2 (proj2 (pop3_parse_fuel_mono rt subject
            from_addrs to_addrs cc_addrs mail_dt tokens f2 (f1 `max` f2) i
            ltac:(lia))))) (v && rhs))
    by (rewrite H2; discriminate).
  exact H2.
Qed.

Lemma pop3_runs_or_stop idx v :
  token_is tokens idx "OR" = false ->
  runs (fun f => parse_expr_loop f v idx) (v, idx).
Proof. intros Ht. exists 1. now apply pop3_expr_loop_stop. Qed.

Lemma pop3_runs_and_stop idx v :
  token_is tokens idx "AND" = false ->
  runs (fun f => parse_term_loop f v idx) (v, idx).
Proof. intros Ht. exists 1. now apply pop3_term_loop_stop. Qed.

(** A run found with some fuel is the run of [parse_and_eval]. *)
Lemma pop3_runs_eval_tokens v i :
  runs (fun f => parse_expr f 0) (v, i) ->
  Pop3.eval_tokens rt subject from_addrs to_addrs cc_addrs mail_dt tokens
  = Ok v.
Proof.
  intros [f H]. unfold Pop3.eval_tokens.
  destruct tokens as [|t l] eqn:Et.
  { destruct f; [discriminate|]. rewrite pop3_parse_expr_S in H.
    destruct f; [discriminate|]. rewrite pop3_parse_term_S in H.
    destruct f; [discriminate|].
    rewrite pop3_parse_factor_end in H by reflexivity. discriminate. }
  rewrite <- Et in *.
  pose proof (proj1 (pop3_parse_fuel_enough rt subject from_addrs to_addrs
                cc_addrs mail_dt tokens (fuel_for tokens) 0)
                ltac:(unfold fuel_for; lia)) as Hen.
  assert (parse_expr (fuel_for tokens) 0 = Ok (v, i)) as ->; [|reflexivity].
  destruct (decide (f <= fuel_for tokens)) as [Hle|Hgt].
  - rewrite (proj1 (pop3_parse_fuel_mono rt subject from_addrs to_addrs
               cc_addrs mail_dt tokens f (fuel_for tokens) 0 Hle))
      by (rewrite H; discriminate).
    exact H.
  - rewrite <- H. symmetry.
    apply (pop3_parse_fuel_mono rt subject from_addrs to_addrs
             cc_addrs mail_dt tokens (fuel_for tokens) f 0); [lia|].
    intros Hout. rewrite Hout in Hen. exact Hen.
Qed.

End Runs.

Context (val : string -> bool).
Abbreviation P_factor T := (fun f => Pop3.parse_factor rt subject from_addrs to_addrs cc_addrs mail_dt T f).
Abbreviation f_ok := (factor_ok rt subject from_addrs to_addrs cc_addrs mail_dt val).
Abbreviation t_ok := (term_ok rt subject from_addrs to_addrs cc_addrs mail_dt val).
Abbreviation e_ok := (expr_ok rt subject from_addrs to_addrs cc_addrs mail_dt val).

Lemma token_is_behind (pre mid rest : list string) t :
  token_is (pre ++ mid ++ rest) (length pre + length mid) t
  = token_is rest 0 t.
Proof.
  rewrite app_assoc, <- List.length_app. apply token_is_app_end.
Qed.

Lemma lookup_behind (pre rest : list string) t :
  (pre ++ t :: rest) !! length pre = Some t.
Proof. now rewrite list_lookup_middle. Qed.

Lemma pop3_term_of_factor e :
  render 1 e = render 2 e -> f_ok e -> t_ok e.
Proof.
  intros Hr Hf T pre rest r -> Hl. rewrite Hr in *.
  eapply pop3_runs_term; [|exact Hl]. now apply (Hf _ pre rest).
Qed.

Lemma pop3_expr_of_term e :
  render 0 e = render 1 e -> t_ok e -> e_ok e.
Proof.
  intros Hr Ht T pre rest r -> Hand Hl. rewrite Hr in *.
  eapply pop3_runs_expr; [|exact Hl].
  apply (Ht _ pre rest); [reflexivity|].
  apply pop3_runs_and_stop. now rewrite token_is_behind.
Qed.

Lemma pop3_factor_of_expr a T pre rest :
  e_ok a -> T = pre ++ parens (render 0 a) ++ rest ->
  runs (fun f => P_factor T f (length pre))
       (eval_expr val a, length pre + length (parens (render 0 a))).
Proof.
  intros He ->. unfold parens.
  replace (length pre + length ("(" :: render 0 a ++ [")"]))
    with (length (pre ++ ["("]) + length (render 0 a) + 1)
    by (cbn [length]; rewrite !List.length_app; cbn [length]; lia).
  assert (pre ++ ("(" :: render 0 a ++ [")"]) ++ rest
          = (pre ++ ["("]) ++ render 0 a ++ ")" :: rest) as Eq.
  { cbn [app]. now rewrite <- !app_assoc. }
  apply pop3_runs_paren.
  - cbn [app]. apply lookup_behind.
  - replace (length pre + 1) with (length (pre ++ ["("]))
      by (rewrite List.length_app; reflexivity).
    apply (He _ (pre ++ ["("]) (")" :: rest)); [exact Eq|reflexivity|].
    apply pop3_runs_or_stop. rewrite Eq. now rewrite token_is_behind.
  - rewrite Eq. now rewrite token_is_behind.
Qed.

Lemma pop3_grammar_ok e :
  Forall (fun tok => pred tok = Ok (val tok)) (leaves e) ->
  e_ok e /\ t_ok e /\ f_ok e.
Proof.
  induction e as [tok|a IHa b IHb|a IHa b IHb|a IHa]; cbn [leaves]; intros Hl.
  - assert (f_ok (Pred tok)) as Hf.
    { intros T pre rest ->. cbn [render eval_expr length app].
      apply pop3_runs_pred with tok; [apply lookup_behind|].
      now inversion Hl. }
    assert (t_ok (Pred tok)) as Ht by now apply pop3_term_of_factor.
    split; [|split]; [|assumption..]. now apply pop3_expr_of_term.
  - apply Forall_app in Hl as [Hla Hlb].
    destruct (IHa Hla) as (_ & Hta & _). destruct (IHb Hlb) as (_ & _ & Hfb).
    assert (t_ok (And a b)) as Ht.
    { intros T pre rest r -> Hr. cbn [render Nat.ltb Nat.leb eval_expr] in *.
      assert (pre ++ (render 1 a ++ "AND" :: render 2 b) ++ rest
              = pre ++ render 1 a ++ "AND" :: render 2 b ++ rest) as Eq
        by now rewrite <- !app_assoc.
      rewrite Eq in *.
      apply (Hta _ pre ("AND" :: render 2 b ++ rest)); [reflexivity|].
      eapply pop3_runs_and.
      - now rewrite token_is_behind.
      - assert (pre ++ render 1 a ++ "AND" :: render 2 b ++ rest
                = (pre ++ render 1 a ++ ["AND"]) ++ render 2 b ++ rest) as Eq2
          by (rewrite <- !app_assoc; reflexivity).
        replace (length pre + length (render 1 a) + 1)
          with (length (pre ++ render 1 a ++ ["AND"]))
          by (rewrite !List.length_app; cbn [length]; lia).
        apply (Hfb _ _ rest). exact Eq2.
      - replace (length (pre ++ render 1 a ++ ["AND"])
                 + length (render 2 b))
          with (length pre + length (render 1 a ++ "AND" :: render 2 b))
          by (rewrite !List.length_app; cbn [length]; lia).
        exact Hr. }
    assert (e_ok (And a b)) as He by now apply pop3_expr_of_term.
    split; [|split]; [assumption..|].
    intros T pre rest ->.
    exact (pop3_factor_of_expr (And a b) _ pre rest He eq_refl).
  - apply Forall_app in Hl as [Hla Hlb].
    destruct (IHa Hla) as (Hea & _ & _). destruct (IHb Hlb) as (_ & Htb & _).
    assert (e_ok (Or a b)) as He.
    { intros T pre rest r -> Hand Hr.
      cbn [render Nat.ltb Nat.leb eval_expr] in *.
      assert (pre ++ (render 0 a ++ "OR" :: render 1 b) ++ rest
              = pre ++ render 0 a ++ "OR" :: render 1 b ++ rest) as Eq
        by now rewrite <- !app_assoc.
      rewrite Eq in *.
      apply (Hea _ pre ("OR" :: render 1 b ++ rest));
        [reflexivity|reflexivity|].
      assert (pre ++ render 0 a ++ "OR" :: render 1 b ++ rest
              = (pre ++ render 0 a ++ ["OR"]) ++ render 1 b ++ rest) as Eq2
        by (rewrite <- !app_assoc; reflexivity).
      eapply pop3_runs_or.
      - now rewrite token_is_behind.
      - replace (length pre + length (render 0 a) + 1)
          with (length (pre ++ render 0 a ++ ["OR"]))
          by (rewrite !List.length_app; cbn [length]; lia).
        apply (Htb _ _ rest); [exact Eq2|].
        apply pop3_runs_and_stop. rewrite Eq2.
        now rewrite token_is_behind.
      - replace (length (pre ++ render 0 a ++ ["OR"])
                 + length (render 1 b))
          with (length pre + length (render 0 a ++ "OR" :: render 1 b))
          by (rewrite !List.length_app; cbn [length]; lia).
        exact Hr. }
    assert (f_ok (Or a b)) as Hf.
    { intros T pre rest ->.
      exact (pop3_factor_of_expr (Or a b) _ pre rest He eq_refl). }
    split; [|split]; [assumption| |assumption].
    now apply pop3_term_of_factor.
  - destruct (IHa Hl) as (Hea & _ & _).
    assert (f_ok (Paren a)) as Hf.
    { intros T pre rest ->.
      exact (pop3_factor_of_expr a _ pre rest Hea eq_refl). }
    assert (t_ok (Paren a)) as Ht by now apply pop3_term_of_factor.
    split; [|split]; [|assumption..]. now apply pop3_expr_of_term.
Qed.

End Pop3Grammar.

Lemma pop3_eval_render rt subject fa ta ca dt (val : string -> bool) e :
  Forall (fun tok =>
            Pop3.eval_predicate rt subject fa ta ca dt tok = Ok (val tok))
         (leaves e) ->
  Pop3.eval_tokens rt subject fa ta ca dt (render 0 e)
  = Ok (eval_expr val e).
Proof.
  intros Hl.
  destruct (pop3_grammar_ok rt subject fa ta ca dt val e Hl) as (He & _).
  eapply pop3_runs_eval_tokens.
  apply (He (render 0 e) [] []); [now rewrite app_nil_r|reflexivity|].
  apply pop3_runs_or_stop. cbn [app length Nat.add].
  unfold token_is. now rewrite lookup_ge_None_2 by lia.
Qed.

(** The POP3 parser computes the value of a rule expression whose
    parentheses nest no deeper than [max_nesting] levels: when the tokens
    of the expression - operands of [AND] and [OR] in parentheses where
    the grammar needs them, or where the writer put them - are given to
    it and every predicate returns a value, it returns the value of the
    expression, with [AND] binding tighter than [OR] and both associating
    to the left. *)
Theorem pop3_parser_correct :
  forall rt subject fa ta ca dt (val : string -> bool) (e : expr),
    nesting (render 0 e) <= max_nesting ->
    Forall (fun tok =>
              Pop3.eval_predicate rt subject fa ta ca dt tok = Ok (val tok))
           (leaves e) ->
    Pop3.eval_tokens rt subject fa ta ca dt (render 0 e)
    = Ok (eval_expr val e).
Proof.
  intros rt subject fa ta ca dt val e _ Hl.
  destruct (pop3_grammar_ok rt subject fa ta ca dt val e Hl) as (He & _).
  eapply pop3_runs_eval_tokens.
  apply (He (render 0 e) [] []); [now rewrite app_nil_r|reflexivity|].
  apply pop3_runs_or_stop. cbn [app length Nat.add].
  unfold token_is. now rewrite lookup_ge_None_2 by lia.
Qed.

Lemma pop3_parser_correct_witness :
  Pop3.eval_tokens Lit.rt "abc" [] [] [] None
    (render 0 (And (Or (Pred "SUBJECT:/x/") (Pred "SUBJECT:/b/"))
                   (Paren (Or (Pred "SUBJECT:/y/")
                              (And (Pred "SUBJECT:/a/")
                                   (Pred "SUBJECT:/c/"))))))
  = Ok (eval_expr (fun tok => Lit.search
                                (Str.take 1 (Str.drop 9 tok)) "abc")
          (And (Or (Pred "SUBJECT:/x/") (Pred "SUBJECT:/b/"))
               (Paren (Or (Pred "SUBJECT:/y/")
                          (And (Pred "SUBJECT:/a/")
                               (Pred "SUBJECT:/c/")))))).
Proof.
  apply (pop3_parser_correct Lit.rt "abc" [] [] [] None
           (fun tok => Lit.search (Str.take 1 (Str.drop 9 tok)) "abc")).
  - vm_compute. lia.
  - repeat (constructor; [reflexivity|]). constructor.
Defined.

(** ** Rules written out as text *)

Lemma findall_space s : findall 0 (String " " s) = findall 0 s.
Proof.
  rewrite findall_unfold. now rewrite match_token_space by reflexivity.
Qed.

Lemma findall_join ts :
  Forall (fun t => token_shape t = true) ts ->
  findall 0 (join " " ts) = ts.
Proof.
  induction 1 as [|t l Ht Hl IH]; [reflexivity|].
  apply token_shape_spec in Ht.
  destruct l as [|u l].
  - cbn [join].
    pose proof (findall_token t _ "" Ht (or_intror eq_refl)) as H.
    rewrite take_all in H.
    replace (t +:+ "") with t in H by (clear; induction t; cbn; congruence).
    exact H.
  - change (join " " (t :: u :: l)) with (t +:+ " " +:+ join " " (u :: l)).
    pose proof (findall_token t _ (" " +:+ join " " (u :: l)) Ht
                  (or_intror eq_refl)) as H.
    rewrite take_all in H. rewrite H.
    change (" " +:+ join " " (u :: l)) with (String " " (join " " (u :: l))).
    now rewrite findall_space, IH.
Qed.

(** Tokens joined by single spaces are the tokens [tokenize] finds in the
    text; so the tokens of a rule, written out this way, give a rule with
    the same tokens. *)
Theorem tokenize_join :
  (forall ts : list string,
      Forall (fun t => token_shape t = true) ts ->
      tokenize (join " " ts) = ts)
  /\ (forall rule : string,
        tokenize (join " " (tokenize rule)) = tokenize rule).
Proof.
  split.
  - intros ts H. rewrite tokenize_findall. now apply findall_join.
  - intros rule. rewrite !tokenize_findall. apply findall_join.
    apply findall_shapes.
Qed.

Lemma tokenize_join_witness :
  tokenize (join " " ["("; "SUBJECT:/a b/"; "OR"; "date<NOW-7d"; ")"])
  = ["("; "SUBJECT:/a b/"; "OR"; "date<NOW-7d"; ")"].
Proof.
  apply (proj1 tokenize_join).
  repeat (constructor; [reflexivity|]). constructor.
Defined.

Lemma render_shapes e : forall lvl,
  Forall (fun t => token_shape t = true) (leaves e) ->
  Forall (fun t => token_shape t = true) (render lvl e).
Proof.
  assert (forall ts, Forall (fun t => token_shape t = true) ts ->
                     Forall (fun t => token_shape t = true) (parens ts)) as Hp.
  { intros ts H. unfold parens. constructor; [reflexivity|].
    apply Forall_app. split; [exact H|]. now constructor. }
  induction e as [tok|a IHa b IHb|a IHa b IHb|a IHa]; intros lvl;
    cbn [leaves render]; intros Hl.
  - exact Hl.
  - apply Forall_app in Hl as [Hla Hlb].
    assert (Forall (fun t => token_shape t = true)
                   (render 1 a ++ "AND" :: render 2 b)) as H.
    { apply Forall_app. split; [auto|]. constructor; [reflexivity|auto]. }
    destruct (Nat.ltb 1 lvl); auto.
  - apply Forall_app in Hl as [Hla Hlb].
    assert (Forall (fun t => token_shape t = true)
                   (render 0 a ++ "OR" :: render 1 b)) as H.
    { apply Forall_app. split; [auto|]. constructor; [reflexivity|auto]. }
    destruct (Nat.ltb 0 lvl); auto.
  - auto.
Qed.

(** A rule expression written out as text - its tokens with single
    spaces between them - is evaluated by the POP3 entry point to the
    value of the expression, when its parentheses nest no deeper than
    [max_nesting] levels, its predicates are tokens of the tokenizer and
    each returns a value. *)
Theorem pop3_rule_text_correct :
  forall rt subject fa ta ca dt (val : string -> bool) (e : expr),
    nesting (render 0 e) <= max_nesting ->
    Forall (fun tok =>
              token_shape tok = true
              /\ Pop3.eval_predicate rt subject fa ta ca dt tok
                 = Ok (val tok))
           (leaves e) ->
    Pop3.parse_and_eval rt (join " " (render 0 e)) subject fa ta ca dt
    = Ok (eval_expr val e).
Proof.
  intros rt subject fa ta ca dt val e _ Hl.
  apply Forall_and in Hl as [Hs Hv].
  unfold Pop3.parse_and_eval.
  rewrite tokenize_findall, findall_join by now apply render_shapes.
  now apply pop3_eval_render.
Qed.

Lemma pop3_rule_text_correct_witness :
  Pop3.parse_and_eval Lit.rt
    (join " " (render 0 (And (Or (Pred "SUBJECT:/x/") (Pred "SUBJECT:/b/"))
                             (Pred "SUBJECT:/c/"))))
    "abc" [] [] [] None
  = Ok (eval_expr (fun tok => Lit.search
                                (Str.take 1 (Str.drop 9 tok)) "abc")
          (And (Or (Pred "SUBJECT:/x/") (Pred "SUBJECT:/b/"))
               (Pred "SUBJECT:/c/"))).
Proof.
  apply (pop3_rule_text_correct Lit.rt "abc" [] [] [] None
           (fun tok => Lit.search (Str.take 1 (Str.drop 9 tok)) "abc")).
  - vm_compute. lia.
  - repeat (constructor; [split; reflexivity|]). constructor.
Defined.

(** ** The EML parser on plain rules *)

Section EmlRuns.
Context (rt : Runtime) (subject : string)
        (from_addrs to_addrs cc_addrs : list string)
        (mail_dt : option datetime) (tokens : list string).
Abbreviation pred := (Eml.eval_predicate rt subject from_addrs to_addrs cc_addrs mail_dt).
Abbreviation parse_expr := (Eml.parse_expr rt subject from_addrs to_addrs cc_addrs mail_dt tokens).
Abbreviation parse_term := (Eml.parse_term rt subject from_addrs to_addrs cc_addrs mail_dt tokens).
Abbreviation parse_factor := (Eml.parse_factor rt subject from_addrs to_addrs cc_addrs mail_dt tokens).
Abbreviation parse_expr_loop := (Eml.parse_expr_loop rt subject from_addrs to_addrs cc_addrs mail_dt tokens).
Abbreviation parse_term_loop := (Eml.parse_term_loop rt subject from_addrs to_addrs cc_addrs mail_dt tokens).
Abbreviation mono := (eml_parse_fuel_mono rt subject from_addrs to_addrs cc_addrs mail_dt tokens).

Lemma eml_runs_expr idx v i r :
  runs (fun f => parse_term f idx) (v, i) ->
  runs (fun f => parse_expr_loop f v i) r ->
  runs (fun f => parse_expr f idx) r.
Proof.
  intros [f1 H1] [f2 H2]. exists (S (f1 `max` f2)).
  rewrite eml_parse_expr_S.
  rewrite (proj1 (proj2 (mono f1 (f1 `max` f2) idx ltac:(lia))))
    by (rewrite H1; discriminate).
  rewrite H1. cbn [bind].
  rewrite (proj1 (proj2 (proj2 (proj2 (mono f2 (f1 `max` f2) i
            ltac:(lia))))) v)
    by (rewrite H2; discriminate).
  exact H2.
Qed.

Lemma eml_runs_term idx v i r :
  runs (fun f => parse_factor f idx) (v, i) ->
  runs (fun f => parse_term_loop f v i) r ->
  runs (fun f => parse_term f idx) r.
Proof.
  intros [f1 H1] [f2 H2]. exists (S (f1 `max` f2)).
  rewrite eml_parse_term_S.
  rewrite (proj1 (proj2 (proj2 (mono f1 (f1 `max` f2) idx ltac:(lia)))))
    by (rewrite H1; discriminate).
  rewrite H1. cbn [bind].
  rewrite (proj2 (proj2 (proj2 (proj2 (mono f2 (f1 `max` f2) i
            ltac:(lia))))) v)
    by (rewrite H2; discriminate).
  exact H2.
Qed.

Lemma eml_runs_pred idx tok v :
  tokens !! idx = Some tok -> pred tok = Ok v ->
  runs (fun f => parse_factor f idx) (v, idx + 1).
Proof.
  intros Ht Hp. exists 1.
  exact (eml_parse_factor_pred rt subject from_addrs to_addrs cc_addrs
           mail_dt tokens 0 idx tok v Ht Hp).
Qed.

Lemma eml_runs_or idx rhs i r :
  token_is tokens idx "OR" = true ->
  runs (fun f => parse_term f (idx + 1)) (rhs, i) ->
  runs (fun f => parse_expr_loop f rhs i) r ->
  runs (fun f => parse_expr_loop f false idx) r.
Proof.
  intros Ht [f1 H1] [f2 H2]. exists (S (f1 `max` f2)).
  rewrite eml_expr_loop_or by exact Ht.
  rewrite (proj1 (proj2 (mono f1 (f1 `max` f2) (idx + 1) ltac:(lia))))
    by (rewrite H1; discriminate).
  rewrite H1. cbn [bind].
  rewrite (proj1 (proj2 (proj2 (proj2 (mono f2 (f1 `max` f2) i
            ltac:(lia))))) rhs)
    by (rewrite H2; discriminate).
  exact H2.
Qed.

Lemma eml_runs_or_skip idx r :
  token_is tokens idx "OR" = true ->
  runs (fun f => parse_expr_loop f true (idx + 1)) r ->
  runs (fun f => parse_expr_loop f true idx) r.
Proof.
  intros Ht [f H]. exists (S f). now rewrite eml_expr_loop_skip.
Qed.

Lemma eml_runs_and idx rhs i r :
  token_is tokens idx "AND" = true ->
  runs (fun f => parse_factor f (idx + 1)) (rhs, i) ->
  runs (fun f => parse_term_loop f rhs i) r ->
  runs (fun f => parse_term_loop f true idx) r.
Proof.
  intros Ht [f1 H1] [f2 H2]. exists (S (f1 `max` f2)).
  rewrite eml_term_loop_and by exact Ht.
  rewrite (proj1 (proj2 (proj2 (mono f1 (f1 `max` f2) (idx + 1)
            ltac:(lia)))))
    by (rewrite H1; discriminate).
  rewrite H1. cbn [bind].
  rewrite (proj2 (proj2 (proj2 (proj2 (mono f2 (f1 `max` f2) i
            ltac:(lia))))) rhs)
    by (rewrite H2; discriminate).
  exact H2.
Qed.

Lemma eml_runs_and_skip idx r :
  token_is tokens idx "AND" = true ->
  runs (fun f => parse_term_loop f false (idx + 1)) r ->
  runs (fun f => parse_term_loop f false idx) r.
Proof.
  intros Ht [f H]. exists (S f). now rewrite eml_term_loop_skip.
Qed.

Lemma eml_runs_or_stop idx v :
  token_is tokens idx "OR" = false ->
  runs (fun f => parse_expr_loop f v idx) (v, idx).
Proof. intros Ht. exists 1. now apply eml_expr_loop_stop. Qed.

Lemma eml_runs_and_stop idx v :
  token_is tokens idx "AND" = false ->
  runs (fun f => parse_term_loop f v idx) (v, idx).
Proof. intros Ht. exists 1. now apply eml_term_loop_stop. Qed.

Lemma eml_runs_eval_tokens v i :
  runs (fun f => parse_expr f 0) (v, i) ->
  Eml.eval_tokens rt subject from_addrs to_addrs cc_addrs mail_dt tokens
  = Ok v.
Proof.
  intros [f H]. unfold Eml.eval_tokens.
  destruct tokens as [|t l] eqn:Et.
  { destruct f; [discriminate|]. rewrite eml_parse_expr_S in H.
    destruct f; [discriminate|]. rewrite eml_parse_term_S in H.
    destruct f; [discriminate|]. discriminate. }
  rewrite <- Et in *.
  pose proof (proj1 (eml_parse_fuel_enough rt subject from_addrs to_addrs
                cc_addrs mail_dt tokens (fuel_for tokens) 0)
                ltac:(unfold fuel_for; lia)) as Hen.
  assert (parse_expr (fuel_for tokens) 0 = Ok (v, i)) as ->; [|reflexivity].
  destruct (decide (f <= fuel_for tokens)) as [Hle|Hgt].
  - rewrite (proj1 (mono f (fuel_for tokens) 0 Hle))
      by (rewrite H; discriminate).
    exact H.
  - rewrite <- H. symmetry.
    apply (mono (fuel_for tokens) f 0); [lia|].
    intros Hout. rewrite Hout in Hen. exact Hen.
Qed.

(** With [val] true the loop of [parse_expr] passes over every [OR] and
    the token behind it, and returns true. *)
Lemma eml_or_loop_true n : forall idx,
  length tokens <= idx + n ->
  exists i, runs (fun f => parse_expr_loop f true idx) (true, i).
Proof.
  induction n as [|n IH]; intros idx Hn.
  - exists idx. apply eml_runs_or_stop.
    unfold token_is. now rewrite lookup_ge_None_2 by lia.
  - destruct (token_is tokens idx "OR") eqn:Et.
    + destruct (IH (idx + 1) ltac:(lia)) as [i Hi].
      exists i. now apply eml_runs_or_skip.
    + exists idx. now apply eml_runs_or_stop.
Qed.

End EmlRuns.

(** [intersperse op ts]: the tokens [ts] with [op] between them. *)
Lemma eml_or_chain rt subject fa ta ca dt (val : string -> bool) ts :
  Forall (fun tok => Eml.eval_predicate rt subject fa ta ca dt tok
                     = Ok (val tok)) ts ->
  forall pre v, exists i,
    runs (fun f => Eml.parse_expr_loop rt subject fa ta ca dt
                     (pre ++ flat_map (fun t => ["OR"; t]) ts) f v
                     (length pre))
         (v || existsb val ts, i).
Proof.
  induction 1 as [|t l Ht Hl IH]; intros pre v.
  - exists (length pre). rewrite orb_false_r. apply eml_runs_or_stop.
    cbn [flat_map]. rewrite app_nil_r. unfold token_is.
    now rewrite lookup_ge_None_2 by lia.
  - cbn [flat_map existsb app].
    assert (pre ++ "OR" :: t :: flat_map (fun t => ["OR"; t]) l
            = (pre ++ ["OR"; t]) ++ flat_map (fun t => ["OR"; t]) l) as Eq
      by now rewrite <- app_assoc.
    assert (token_is (pre ++ "OR" :: t :: flat_map (fun t => ["OR"; t]) l)
                     (length pre) "OR" = true) as Hor.
    { unfold token_is. now rewrite list_lookup_middle. }
    destruct v.
    + (* the operand is passed over, and the loop ends at it *)
      exists (length pre + 1). cbn [orb]. apply eml_runs_or_skip; [exact Hor|].
      apply eml_runs_or_stop.
      eapply (eml_token_is_pred _ _ _ _ _ _ _ _ t (val t)); [|exact Ht|auto].
      replace (pre ++ "OR" :: t :: flat_map (fun t => ["OR"; t]) l)
        with ((pre ++ ["OR"]) ++ t :: flat_map (fun t => ["OR"; t]) l)
        by now rewrite <- app_assoc.
      replace (length pre + 1) with (length (pre ++ ["OR"]))
        by (rewrite List.length_app; reflexivity).
      now rewrite list_lookup_middle.
    + cbn [orb].
      destruct (val t) eqn:Ev.
      * (* the first true operand decides *)
        destruct (eml_or_loop_true rt subject fa ta ca dt
                    (pre ++ "OR" :: t :: flat_map (fun t => ["OR"; t]) l)
                    (length (pre ++ "OR" :: t
                               :: flat_map (fun t => ["OR"; t]) l))
                    (length pre + 2) ltac:(lia)) as [i Hi].
        exists i. cbn [orb].
        eapply eml_runs_or; [exact Hor| |exact Hi].
        eapply eml_runs_term.
        -- apply eml_runs_pred with t; [|exact Ht].
           replace (pre ++ "OR" :: t :: flat_map (fun t => ["OR"; t]) l)
             with ((pre ++ ["OR"]) ++ t :: flat_map (fun t => ["OR"; t]) l)
             by now rewrite <- app_assoc.
           replace (length pre + 1) with (length (pre ++ ["OR"]))
             by (rewrite List.length_app; reflexivity).
           now rewrite list_lookup_middle.
        -- replace (length pre + 1 + 1) with (length pre + 2) by lia.
           apply eml_runs_and_stop.
           rewrite Eq.
           replace (length pre + 2) with (length (pre ++ ["OR"; t]))
             by (rewrite List.length_app; reflexivity).
           rewrite token_is_app_end.
           destruct l; reflexivity.
      * destruct (IH (pre ++ ["OR"; t]) false) as [i Hi].
        exists i. cbn [orb] in *. rewrite Eq.
        eapply eml_runs_or.
        -- rewrite <- Eq. exact Hor.
        -- eapply eml_runs_term.
           ++ apply eml_runs_pred with t; [|exact Ht].
              rewrite <- Eq.
              replace (pre ++ "OR" :: t :: flat_map (fun t => ["OR"; t]) l)
                with ((pre ++ ["OR"]) ++ t
                        :: flat_map (fun t => ["OR"; t]) l)
                by now rewrite <- app_assoc.
              replace (length pre + 1) with (length (pre ++ ["OR"]))
                by (rewrite List.length_app; reflexivity).
              now rewrite list_lookup_middle.
           ++ replace (length pre + 1 + 1) with (length (pre ++ ["OR"; t]))
                by (rewrite List.length_app; cbn [length]; lia).
              apply eml_runs_and_stop. rewrite token_is_app_end.
              destruct l; reflexivity.
        -- exact Hi.
Qed.

Lemma eml_and_chain rt subject fa ta ca dt (val : string -> bool) ts :
  Forall (fun tok => Eml.eval_predicate rt subject fa ta ca dt tok
                     = Ok (val tok)) ts ->
  forall pre v, exists i,
    runs (fun f => Eml.parse_term_loop rt subject fa ta ca dt
                     (pre ++ flat_map (fun t => ["AND"; t]) ts) f v
                     (length pre))
         (v && forallb val ts, i)
    /\ token_is (pre ++ flat_map (fun t => ["AND"; t]) ts) i "OR" = false.
Proof.
  induction 1 as [|t l Ht Hl IH]; intros pre v.
  - exists (length pre). rewrite andb_true_r.
    cbn [flat_map]. rewrite app_nil_r.
    assert (forall op, token_is pre (length pre) op = false) as Hend.
    { intros op. unfold token_is. now rewrite lookup_ge_None_2 by lia. }
    split; [|apply Hend]. apply eml_runs_and_stop. apply Hend.
  - cbn [flat_map forallb app].
    set (T := pre ++ "AND" :: t :: flat_map (fun t => ["AND"; t]) l).
    assert (T = (pre ++ ["AND"; t]) ++ flat_map (fun t => ["AND"; t]) l)
      as Eq by (unfold T; now rewrite <- app_assoc).
    assert (token_is T (length pre) "AND" = true) as Hand.
    { unfold token_is, T. now rewrite list_lookup_middle. }
    assert (T !! (length pre + 1) = Some t) as Hat.
    { unfold T.
      replace (pre ++ "AND" :: t :: flat_map (fun t => ["AND"; t]) l)
        with ((pre ++ ["AND"]) ++ t :: flat_map (fun t => ["AND"; t]) l)
        by now rewrite <- app_assoc.
      replace (length pre + 1) with (length (pre ++ ["AND"]))
        by (rewrite List.length_app; reflexivity).
      now rewrite list_lookup_middle. }
    destruct v.
    + destruct (IH (pre ++ ["AND"; t]) (val t)) as (i & Hi & Hn).
      rewrite <- Eq in Hi, Hn.
      exists i. cbn [andb]. split; [|exact Hn].
      eapply eml_runs_and; [exact Hand| |].
      * apply eml_runs_pred with t; [exact Hat|exact Ht].
      * replace (length pre + 1 + 1) with (length (pre ++ ["AND"; t]))
          by (rewrite List.length_app; cbn [length]; lia).
        exact Hi.
    + exists (length pre + 1). cbn [andb].
      assert (forall op, op = "OR" \/ op = "AND" \/ op = ")" ->
                token_is T (length pre + 1) op = false) as Hp.
      { intros op Hop.
        exact (eml_token_is_pred rt subject fa ta ca dt T _ t (val t) op
                 Hat Ht Hop). }
      split; [|apply Hp; auto].
      apply eml_runs_and_skip; [exact Hand|].
      apply eml_runs_and_stop. apply Hp. auto.
Qed.

Lemma eml_plain_chains rt subject fa ta ca dt (val : string -> bool) t ts :
  Forall (fun tok => Eml.eval_predicate rt subject fa ta ca dt tok
                     = Ok (val tok)) (t :: ts) ->
  Eml.eval_tokens rt subject fa ta ca dt
                  (t :: flat_map (fun u => ["OR"; u]) ts)
  = Ok (existsb val (t :: ts))
  /\ Eml.eval_tokens rt subject fa ta ca dt
                     (t :: flat_map (fun u => ["AND"; u]) ts)
     = Ok (forallb val (t :: ts)).
Proof.
  intros Hall. inversion Hall as [|? ? Ht Hts]; subst. split.
  - destruct (eml_or_chain rt subject fa ta ca dt val ts Hts [t] (val t))
      as [i Hi].
    eapply eml_runs_eval_tokens, eml_runs_expr; [|exact Hi].
    eapply eml_runs_term.
    + apply eml_runs_pred with t; [reflexivity|exact Ht].
    + apply eml_runs_and_stop. destruct ts; reflexivity.
  - destruct (eml_and_chain rt subject fa ta ca dt val ts Hts [t] (val t))
      as (i & Hi & Hn).
    eapply eml_runs_eval_tokens, eml_runs_expr.
    + eapply eml_runs_term; [|exact Hi].
      apply eml_runs_pred with t; [reflexivity|exact Ht].
    + now apply eml_runs_or_stop.
Qed.

(** The EML engine evaluates a plain list of alternatives and a plain
    list of conditions as written: predicates joined by [OR] only give
    the disjunction of their values, predicates joined by [AND] only
    their conjunction. *)
Theorem eml_plain_rules :
  forall rt subject fa ta ca dt (val : string -> bool) t ts,
    Forall (fun tok => Eml.eval_predicate rt subject fa ta ca dt tok
                       = Ok (val tok)) (t :: ts) ->
    Eml.eval_tokens rt subject fa ta ca dt
                    (t :: flat_map (fun u => ["OR"; u]) ts)
    = Ok (existsb val (t :: ts))
    /\ Eml.eval_tokens rt subject fa ta ca dt
                       (t :: flat_map (fun u => ["AND"; u]) ts)
       = Ok (forallb val (t :: ts)).
Proof.
  intros rt subject fa ta ca dt val t ts Hall.
  inversion Hall as [|? ? Ht Hts]; subst. split.
  - destruct (eml_or_chain rt subject fa ta ca dt val ts Hts [t] (val t))
      as [i Hi].
    eapply eml_runs_eval_tokens, eml_runs_expr; [|exact Hi].
    eapply eml_runs_term.
    + apply eml_runs_pred with t; [reflexivity|exact Ht].
    + apply eml_runs_and_stop. destruct ts; reflexivity.
  - destruct (eml_and_chain rt subject fa ta ca dt val ts Hts [t] (val t))
      as (i & Hi & Hn).
    eapply eml_runs_eval_tokens, eml_runs_expr.
    + eapply eml_runs_term; [|exact Hi].
      apply eml_runs_pred with t; [reflexivity|exact Ht].
    + now apply eml_runs_or_stop.
Qed.

Lemma eml_plain_rules_witness :
  Eml.eval_tokens Lit.rt "abc" [] [] [] None
    ("SUBJECT:/x/" :: flat_map (fun u => ["OR"; u])
                               ["SUBJECT:/b/"; "SUBJECT:/y/"])
  = Ok (existsb (fun tok => String.eqb tok "SUBJECT:/b/")
                ["SUBJECT:/x/"; "SUBJECT:/b/"; "SUBJECT:/y/"])
  /\ Eml.eval_tokens Lit.rt "abc" [] [] [] None
       ("SUBJECT:/x/" :: flat_map (fun u => ["AND"; u])
                                  ["SUBJECT:/b/"; "SUBJECT:/y/"])
     = Ok (forallb (fun tok => String.eqb tok "SUBJECT:/b/")
                   ["SUBJECT:/x/"; "SUBJECT:/b/"; "SUBJECT:/y/"]).
Proof.
  apply (eml_plain_rules Lit.rt "abc" [] [] [] None
           (fun tok => String.eqb tok "SUBJECT:/b/")
           "SUBJECT:/x/" ["SUBJECT:/b/"; "SUBJECT:/y/"]).
  repeat (constructor; [reflexivity|]). constructor.
Defined.

(** Once the left operand of a top-level [OR] is true, the EML engine
    returns true whatever follows the [OR]: nothing, a further operator,
    or tokens that are no rule at all. *)
Theorem eml_true_or_absorbs :
  forall rt subject fa ta ca dt (a : string) (rest : list string),
    Eml.eval_predicate rt subject fa ta ca dt a = Ok true ->
    Eml.eval_tokens rt subject fa ta ca dt (a :: "OR" :: rest) = Ok true.
Proof.
  intros rt subject fa ta ca dt a rest Ha.
  destruct (eml_or_loop_true rt subject fa ta ca dt (a :: "OR" :: rest)
              (length (a :: "OR" :: rest)) 1 ltac:(lia)) as [i Hi].
  eapply eml_runs_eval_tokens, eml_runs_expr; [|exact Hi].
  eapply eml_runs_term.
  - apply eml_runs_pred with a; [reflexivity|exact Ha].
  - now apply eml_runs_and_stop.
Qed.

Lemma eml_true_or_absorbs_witness :
  Eml.eval_tokens Lit.rt "abc" [] [] [] None
                  ["SUBJECT:/b/"; "OR"; ")"; "AND"] = Ok true.
Proof.
  apply (eml_true_or_absorbs Lit.rt "abc" [] [] [] None "SUBJECT:/b/"
           [")"; "AND"]).
  reflexivity.
Defined.

(** ** Where the two engines agree *)

Lemma strip_prefix_upper p : forall s r,
  Str.forallb (fun a => Ascii.eqb a (Str.upper a)) p = true ->
  Str.strip_prefix p s = Some r -> Str.strip_prefix_ci p s = Some r.
Proof.
  induction p as [|a p IH]; intros s r; [trivial|].
  cbn [Str.forallb]. intros [Ha Hp]%andb_true_iff.
  destruct s as [|c s]; [discriminate|].
  cbn [Str.strip_prefix Str.strip_prefix_ci].
  destruct (Ascii.eqb a c) eqn:E; [|discriminate].
  apply Ascii.eqb_eq in E. subst c. rewrite Ha. now apply IH.
Qed.

Lemma startswith_subject tok :
  Str.startswith "SUBJECT:/" tok = true ->
  Str.startswith_ci "SUBJECT:/" tok = true.
Proof.
  unfold Str.startswith, Str.startswith_ci.
  destruct (Str.strip_prefix "SUBJECT:/" tok) as [r|] eqn:E; [|discriminate].
  now rewrite (strip_prefix_upper "SUBJECT:/" _ _ eq_refl E).
Qed.

(** A token the POP3 engine gives a value has the same value in the EML
    engine. *)
Lemma predicate_ok_eml rt subject fa ta ca dt tok v :
  Pop3.eval_predicate rt subject fa ta ca dt tok = Ok v ->
  Eml.eval_predicate rt subject fa ta ca dt tok = Ok v.
Proof.
  unfold Pop3.eval_predicate, Eml.eval_predicate.
  destruct (Str.startswith "SUBJECT:/" tok) eqn:Es.
  - rewrite (startswith_subject tok Es).
    destruct (Str.endswith_char "/" tok); cbn [andb].
    + now destruct (match_pred_token "SUBJECT" tok).
    + now rewrite !andb_false_r.
  - cbn [andb]. destruct (Str.startswith_ci "SUBJECT:/" tok) eqn:Ec.
    + destruct (subject_not_other tok Ec) as (-> & -> & -> & ->).
      discriminate.
    + cbn [andb].
      destruct (Str.startswith_ci "FROM:/" tok && Str.endswith_char "/" tok).
      { now destruct (match_pred_token "FROM" tok). }
      destruct (Str.startswith_ci "TO:/" tok && Str.endswith_char "/" tok).
      { now destruct (match_pred_token "TO" tok). }
      destruct (Str.startswith_ci "CC:/" tok && Str.endswith_char "/" tok).
      { now destruct (match_pred_token "CC" tok). }
      trivial.
Qed.

(** On one predicate token the two engines do the same - the same value,
    the same exception - unless the POP3 engine rejects the token with a
    [ValueError] of its own. *)
Theorem predicates_agree_unless_rejected :
  forall rt subject fa ta ca dt (tok : string),
    Pop3.eval_predicate rt subject fa ta ca dt tok
    = Eml.eval_predicate rt subject fa ta ca dt tok
    \/ exists msg,
         Pop3.eval_predicate rt subject fa ta ca dt tok
         = Raise (ValueError msg).
Proof.
  intros rt subject fa ta ca dt tok.
  unfold Pop3.eval_predicate, Eml.eval_predicate.
  destruct (Str.startswith "SUBJECT:/" tok) eqn:Es.
  - rewrite (startswith_subject tok Es).
    destruct (Str.endswith_char "/" tok); cbn [andb].
    + destruct (match_pred_token "SUBJECT" tok); [now left|right; eauto].
    + rewrite !andb_false_r. now left.
  - cbn [andb].
    destruct (Str.startswith_ci "SUBJECT:/" tok) eqn:Ec.
    + destruct (subject_not_other tok Ec) as (-> & -> & -> & ->).
      cbn [andb]. destruct (Str.endswith_char "/" tok);
        [right; unfold unexpected_token; eauto|now left].
    + cbn [andb].
      destruct (Str.startswith_ci "FROM:/" tok && Str.endswith_char "/" tok).
      { destruct (match_pred_token "FROM" tok); [now left|right; eauto]. }
      destruct (Str.startswith_ci "TO:/" tok && Str.endswith_char "/" tok).
      { destruct (match_pred_token "TO" tok); [now left|right; eauto]. }
      destruct (Str.startswith_ci "CC:/" tok && Str.endswith_char "/" tok).
      { destruct (match_pred_token "CC" tok); [now left|right; eauto]. }
      now left.
Qed.

Lemma render_or_list ts : forall e,
  render 0 (fold_left (fun e u => Or e (Pred u)) ts e)
  = render 0 e ++ flat_map (fun u => ["OR"; u]) ts.
Proof.
  induction ts as [|u ts IH]; intros e; cbn [fold_left flat_map].
  - now rewrite app_nil_r.
  - rewrite IH. cbn [render Nat.ltb Nat.leb app]. now rewrite <- app_assoc.
Qed.

Lemma render_and_list ts : forall e,
  render 1 (fold_left (fun e u => And e (Pred u)) ts e)
  = render 1 e ++ flat_map (fun u => ["AND"; u]) ts.
Proof.
  induction ts as [|u ts IH]; intros e; cbn [fold_left flat_map].
  - now rewrite app_nil_r.
  - rewrite IH. cbn [render Nat.ltb Nat.leb app]. now rewrite <- app_assoc.
Qed.

Lemma and_list_shape ts : forall e,
  render 0 e = render 1 e ->
  render 0 (fold_left (fun e u => And e (Pred u)) ts e)
  = render 1 (fold_left (fun e u => And e (Pred u)) ts e).
Proof.
  induction ts as [|u ts IH]; intros e He; cbn [fold_left]; [exact He|].
  now apply IH.
Qed.

Lemma eval_or_list val ts : forall e,
  eval_expr val (fold_left (fun e u => Or e (Pred u)) ts e)
  = eval_expr val e || existsb val ts.
Proof.
  induction ts as [|u ts IH]; intros e; cbn [fold_left existsb].
  - now rewrite orb_false_r.
  - rewrite IH. cbn [eval_expr]. now rewrite orb_assoc.
Qed.

Lemma eval_and_list val ts : forall e,
  eval_expr val (fold_left (fun e u => And e (Pred u)) ts e)
  = eval_expr val e && forallb val ts.
Proof.
  induction ts as [|u ts IH]; intros e; cbn [fold_left forallb].
  - now rewrite andb_true_r.
  - rewrite IH. cbn [eval_expr]. now rewrite andb_assoc.
Qed.

Lemma leaves_or_list ts : forall e,
  leaves (fold_left (fun e u => Or e (Pred u)) ts e) = leaves e ++ ts.
Proof.
  induction ts as [|u ts IH]; intros e; cbn [fold_left].
  - now rewrite app_nil_r.
  - rewrite IH. cbn [leaves]. now rewrite <- app_assoc.
Qed.

Lemma leaves_and_list ts : forall e,
  leaves (fold_left (fun e u => And e (Pred u)) ts e) = leaves e ++ ts.
Proof.
  induction ts as [|u ts IH]; intros e; cbn [fold_left].
  - now rewrite app_nil_r.
  - rewrite IH. cbn [leaves]. now rewrite <- app_assoc.
Qed.

(** On a plain list of alternatives, and on a plain list of conditions,
    the two entry points return the same: predicates joined by [OR] only
    give the disjunction of their values in both, predicates joined by
    [AND] only their conjunction. *)
Theorem engines_agree_on_plain_rules :
  forall rt subject fa ta ca dt (val : string -> bool) t ts,
    Forall (fun tok => Pop3.eval_predicate rt subject fa ta ca dt tok
                       = Ok (val tok)) (t :: ts) ->
    (Pop3.eval_tokens rt subject fa ta ca dt
                      (t :: flat_map (fun u => ["OR"; u]) ts)
     = Ok (existsb val (t :: ts))
     /\ Eml.eval_tokens rt subject fa ta ca dt
                        (t :: flat_map (fun u => ["OR"; u]) ts)
        = Ok (existsb val (t :: ts)))
    /\ (Pop3.eval_tokens rt subject fa ta ca dt
                         (t :: flat_map (fun u => ["AND"; u]) ts)
        = Ok (forallb val (t :: ts))
        /\ Eml.eval_tokens rt subject fa ta ca dt
                           (t :: flat_map (fun u => ["AND"; u]) ts)
           = Ok (forallb val (t :: ts))).
Proof.
  intros rt subject fa ta ca dt val t ts Hall.
  assert (Forall (fun tok => Eml.eval_predicate rt subject fa ta ca dt tok
                             = Ok (val tok)) (t :: ts)) as Heml.
  { eapply Forall_impl; [exact Hall|]. intros tok.
    apply predicate_ok_eml. }
  destruct (eml_plain_chains rt subject fa ta ca dt val t ts Heml)
    as [Hor Hand].
  split; (split; [|assumption]).
  - pose proof (pop3_eval_render rt subject fa ta ca dt val
                  (fold_left (fun e u => Or e (Pred u)) ts (Pred t))) as H.
    rewrite render_or_list, eval_or_list, leaves_or_list in H.
    now apply H.
  - pose proof (pop3_eval_render rt subject fa ta ca dt val
                  (fold_left (fun e u => And e (Pred u)) ts (Pred t))) as H.
    rewrite and_list_shape, render_and_list, eval_and_list, leaves_and_list
      in H by reflexivity.
    now apply H.
Qed.

Lemma engines_agree_on_plain_rules_witness :
  Pop3.eval_tokens Lit.rt "abc" [] [] [] None
    ("SUBJECT:/a/" :: flat_map (fun u => ["AND"; u])
                               ["SUBJECT:/y/"; "SUBJECT:/c/"])
  = Ok (forallb (fun tok => Lit.search (Str.take 1 (Str.drop 9 tok)) "abc")
                ["SUBJECT:/a/"; "SUBJECT:/y/"; "SUBJECT:/c/"])
  /\ Eml.eval_tokens Lit.rt "abc" [] [] [] None
       ("SUBJECT:/a/" :: flat_map (fun u => ["AND"; u])
                                  ["SUBJECT:/y/"; "SUBJECT:/c/"])
     = Ok (forallb (fun tok => Lit.search (Str.take 1 (Str.drop 9 tok)) "abc")
                   ["SUBJECT:/a/"; "SUBJECT:/y/"; "SUBJECT:/c/"]).
Proof.
  apply (engines_agree_on_plain_rules Lit.rt "abc" [] [] [] None
           (fun tok => Lit.search (Str.take 1 (Str.drop 9 tok)) "abc")
           "SUBJECT:/a/" ["SUBJECT:/y/"; "SUBJECT:/c/"]).
  repeat (constructor; [reflexivity|]). constructor.
Defined.

(** ** DATE predicates *)

Lemma take_while_all p s :
  Str.forallb p s = true -> Str.take_while p s = s.
Proof.
  induction s as [|c s IH]; [reflexivity|]. cbn.
  intros [-> Hs]%andb_true_iff. now rewrite IH.
Qed.

Lemma drop_while_all p s :
  Str.forallb p s = true -> Str.drop_while p s = "".
Proof.
  induction s as [|c s IH]; [reflexivity|]. cbn.
  intros [-> Hs]%andb_true_iff. now apply IH.
Qed.

Lemma forallb_app p a b :
  Str.forallb p (a +:+ b) = Str.forallb p a && Str.forallb p b.
Proof.
  induction a as [|c a IH]; [reflexivity|]. cbn. now rewrite IH, andb_assoc.
Qed.

Lemma forallb_impl (p q : ascii -> bool) s :
  (forall c, p c = true -> q c = true) ->
  Str.forallb p s = true -> Str.forallb q s = true.
Proof.
  intros Hpq. induction s as [|c s IH]; [reflexivity|]. cbn.
  intros [Hc Hs]%andb_true_iff. now rewrite (Hpq c Hc), IH.
Qed.

Lemma digit_non_space c : Str.is_digit c = true -> non_space c = true.
Proof.
  destruct c as [[] [] [] [] [] [] [] []]; try discriminate; reflexivity.
Qed.

Lemma digit_not_letter c k :
  Str.is_digit c = true -> Str.is_digit k = false ->
  Ascii.eqb k (Str.upper c) = false.
Proof.
  intros Hc Hk. destruct (Ascii.eqb k (Str.upper c)) eqn:E; [|reflexivity].
  apply Ascii.eqb_eq in E. subst k.
  destruct c as [[] [] [] [] [] [] [] []]; discriminate.
Qed.

Lemma match_rhs_all rhs :
  rhs <> "" -> Str.forallb non_space rhs = true -> match_rhs rhs = Some rhs.
Proof.
  intros Hne Hall. unfold match_rhs.
  rewrite take_while_all, drop_while_all by exact Hall.
  destruct rhs; [congruence|reflexivity].
Qed.

(** [DATE], a comparison operator and a value free of white space that
    does not begin with [=] are what [eval_date_token] reads them as. *)
Lemma match_date_token_text op rhs :
  rhs <> "" -> Str.forallb non_space rhs = true ->
  Str.startswith "=" rhs = false ->
  match_date_token ("DATE" +:+ op_text op +:+ rhs) = Some (op, rhs).
Proof.
  intros Hne Hall Heq. pose proof (match_rhs_all rhs Hne Hall) as Hr.
  destruct rhs as [|c rhs]; [congruence|].
  assert (Ascii.eqb c "=" = false) as Hc.
  { unfold Str.startswith in Heq. cbn [Str.strip_prefix] in Heq.
    rewrite Ascii.eqb_sym.
    destruct (Ascii.eqb "=" c); [discriminate|reflexivity]. }
  assert (forall x, Str.strip_prefix_ci "DATE"
                      (String "D" (String "A" (String "T" (String "E" x))))
                    = Some x) as Hdate by reflexivity.
  destruct op; cbn [op_text String.append]; unfold match_date_token;
    rewrite Hdate; cbv iota.
  all: change (Ascii.eqb ">" "<") with false;
    change (Ascii.eqb ">" ">") with true;
    change (Ascii.eqb "<" "<") with true; cbv iota zeta.
  all: try change (Ascii.eqb "=" "=") with true; cbv iota.
  all: try rewrite Hc; rewrite Hr; reflexivity.
Qed.

Lemma match_relative_text digits u :
  digits <> "" -> Str.forallb Str.is_digit digits = true ->
  match_relative ("NOW-" +:+ digits +:+ String (unit_char u) "")
  = Some (digits, u).
Proof.
  intros Hne Hd. unfold match_relative.
  change (Str.strip_prefix_ci "NOW-"
            ("NOW-" +:+ digits +:+ String (unit_char u) ""))
    with (Some (digits +:+ String (unit_char u) "")).
  cbv iota.
  assert (Str.is_digit (unit_char u) = false) as Hu by now destruct u.
  assert (Str.take_while Str.is_digit (digits +:+ String (unit_char u) "")
          = digits) as ->.
  { clear Hne. induction digits as [|c ds IH]; cbn.
    - now rewrite Hu.
    - cbn in Hd. apply andb_true_iff in Hd as [-> Hd]. now rewrite IH. }
  assert (Str.drop_while Str.is_digit (digits +:+ String (unit_char u) "")
          = String (unit_char u) "") as ->.
  { clear Hne. induction digits as [|c ds IH]; cbn.
    - now rewrite Hu.
    - cbn in Hd. apply andb_true_iff in Hd as [-> Hd]. now rewrite IH. }
  destruct digits as [|d ds]; [congruence|]. now destruct u.
Qed.

Lemma relative_text_non_space digits u :
  Str.forallb Str.is_digit digits = true ->
  Str.forallb non_space ("NOW-" +:+ digits +:+ String (unit_char u) "")
  = true.
Proof.
  intros Hd. change ("NOW-" +:+ digits +:+ String (unit_char u) "")
    with ("NOW-" +:+ (digits +:+ String (unit_char u) "")).
  rewrite !forallb_app.
  rewrite (forallb_impl _ _ digits digit_non_space Hd).
  now destruct u.
Qed.

Lemma relative_token_read rt op digits u (mail : datetime) :
  digits <> "" -> Str.forallb Str.is_digit digits = true ->
  eval_date_token rt
    ("DATE" +:+ op_text op +:+ "NOW-" +:+ digits +:+ String (unit_char u) "")
    (Some mail)
  = (do amount <- int_of_digits digits;
     do delta <- timedelta u amount;
     do cmp_dt <- dt_sub (now rt (tz_or_JST mail)) delta;
     do c <- dt_compare mail cmp_dt; Ok (compare_by op c)).
Proof.
  intros Hne Hd. unfold eval_date_token.
  rewrite (match_date_token_text op
             ("NOW-" +:+ digits +:+ String (unit_char u) ""))
    by (try discriminate; try reflexivity;
        now apply relative_text_non_space).
  now rewrite match_relative_text by assumption.
Qed.

(** A relative DATE test [NOW-] digits unit, on a message that has a
    date.  When the number has at most 4300 digits, the date carries a UTC
    offset, the span is one that [timedelta] holds and the current time
    less the span is no earlier than [datetime.min], the test compares two
    instants: that of the message, and the current time less the span; the
    offset of the message plays no part.  When the number has more than
    4300 digits, the test raises the [ValueError] of [int], which nothing
    in [eval_date_token] catches. *)
Theorem date_relative_compares_instants :
  forall rt op digits u (mail : datetime),
    digits <> "" -> Str.forallb Str.is_digit digits = true ->
    let token := "DATE" +:+ op_text op +:+ "NOW-" +:+ digits
                 +:+ String (unit_char u) "" in
    (forall off delta,
        String.length digits <= int_max_str_digits ->
        tzinfo mail = Some off ->
        timedelta u (digits_value digits) = Ok delta ->
        (0 <= now_utc rt + off - delta)%Z ->
        eval_date_token rt token (Some mail)
        = Ok (compare_by op ((wall mail - off) ?= (now_utc rt - delta))%Z))
    /\ (int_max_str_digits < String.length digits ->
        eval_date_token rt token (Some mail)
        = Raise (int_limit_exceeded (String.length digits))).
Proof.
  intros rt op digits u mail Hne Hd token. subst token.
  rewrite relative_token_read by assumption. unfold int_of_digits. split.
  - intros off delta Hlen Htz Hdelta Hmin.
    apply Nat.ltb_ge in Hlen. rewrite Hlen. cbn [bind].
    rewrite Hdelta. cbn [bind].
    unfold dt_sub, now, tz_or_JST. rewrite Htz. cbn [wall tzinfo].
    apply Z.leb_le in Hmin. rewrite Hmin. cbn [bind].
    unfold dt_compare. rewrite Htz. cbn [wall tzinfo bind].
    now replace (now_utc rt + off - delta - off)%Z
      with (now_utc rt - delta)%Z by lia.
  - intros Hlen. apply Nat.ltb_lt in Hlen. now rewrite Hlen.
Qed.

Lemma date_relative_compares_instants_witness :
  eval_date_token Lit.rt "DATE>=NOW-7d" (Some Lit.noon_2020)
  = Ok (compare_by OpGe
          ((wall Lit.noon_2020 - JST)
           ?= (now_utc Lit.rt - 7 * usec_per_day))%Z).
Proof.
  refine (proj1 (date_relative_compares_instants Lit.rt OpGe "7" Days
                   Lit.noon_2020 _ _) JST (7 * usec_per_day)%Z _ _ _ _);
    [discriminate | reflexivity | vm_compute; lia | reflexivity
    | reflexivity | vm_compute; discriminate].
Defined.

Lemma calendar_date_text rhs y m d :
  match_calendar_date rhs = Some (y, m, d) ->
  rhs <> "" /\ Str.forallb non_space rhs = true
  /\ Str.startswith "=" rhs = false /\ match_relative rhs = None.
Proof.
  unfold match_calendar_date.
  destruct rhs as [|y1 [|y2 [|y3 [|y4 [|s1 [|m1 [|m2 [|s2 [|d1 [|d2 [|]]]]]]]]]]];
    try discriminate.
  destruct (forallb Str.is_digit [y1; y2; y3; y4; m1; m2; d1; d2]
            && Ascii.eqb s1 "-" && Ascii.eqb s2 "-") eqn:E; [|discriminate].
  intros _.
  apply andb_true_iff in E as [[E E1]%andb_true_iff E2].
  apply Ascii.eqb_eq in E1, E2. subst s1 s2.
  cbn [forallb] in E. rewrite !andb_true_iff in E.
  destruct E as (Hy1 & Hy2 & Hy3 & Hy4 & Hm1 & Hm2 & Hd1 & Hd2 & _).
  repeat apply conj.
  - discriminate.
  - cbn [Str.forallb].
    rewrite (digit_non_space y1), (digit_non_space y2),
      (digit_non_space y3), (digit_non_space y4), (digit_non_space m1),
      (digit_non_space m2), (digit_non_space d1), (digit_non_space d2)
      by assumption.
    reflexivity.
  - unfold Str.startswith. cbn [Str.strip_prefix].
    destruct (Ascii.eqb "=" y1) eqn:Ey; [|reflexivity].
    apply Ascii.eqb_eq in Ey. subst y1. discriminate.
  - unfold match_relative. cbn [Str.strip_prefix_ci].
    now rewrite (digit_not_letter y1 "N") by (assumption || reflexivity).
Qed.

Lemma compare_shift (a b c : Z) : (a - c ?= b - c)%Z = (a ?= b)%Z.
Proof.
  destruct (Z.compare_spec a b) as [H|H|H];
    [apply Z.compare_eq_iff | apply Z.compare_lt_iff
    | apply Z.compare_gt_iff]; lia.
Qed.

(** A DATE test against a calendar day compares the wall-clock reading of
    the message date, in the message's own time zone, with midnight of
    that day; a day that does not exist makes the test false for every
    operator, and a message date without an offset cannot be compared. *)
Theorem date_calendar_compares_wall_clock :
  forall rt op rhs y m d (mail : datetime),
    match_calendar_date rhs = Some (y, m, d) ->
    eval_date_token rt ("DATE" +:+ op_text op +:+ rhs) (Some mail)
    = match make_date y m d (tz_or_JST mail) with
      | None => Ok false
      | Some midnight =>
          match tzinfo mail with
          | Some _ => Ok (compare_by op (wall mail ?= wall midnight)%Z)
          | None => Raise TypeError
          end
      end.
Proof.
  intros rt op rhs y m d mail Hcal.
  destruct (calendar_date_text rhs y m d Hcal) as (Hne & Hns & Heq & Hrel).
  unfold eval_date_token.
  rewrite match_date_token_text, Hrel by assumption.
  unfold absolute_date. rewrite Hcal.
  unfold make_date.
  destruct ((1 <=? y)%Z && (y <=? 9999)%Z && (1 <=? m)%Z && (m <=? 12)%Z
            && (1 <=? d)%Z && (d <=? days_in_month y m)%Z); [|reflexivity].
  unfold dt_compare, tz_or_JST. cbn [wall tzinfo].
  destruct (tzinfo mail) as [off|]; [|reflexivity].
  cbn [bind]. f_equal. f_equal. apply compare_shift.
Qed.

Lemma date_calendar_compares_wall_clock_witness :
  eval_date_token Lit.rt "DATE<2023-02-30" (Some Lit.noon_2020) = Ok false.
Proof.
  apply (date_calendar_compares_wall_clock Lit.rt OpLt "2023-02-30"
           2023 2 30 Lit.noon_2020).
  reflexivity.
Defined.

(** ** The date the loop hands to the filter *)

Lemma dt_compare_aware a b oa ob :
  tzinfo a = Some oa -> tzinfo b = Some ob ->
  exists c, dt_compare a b = Ok c.
Proof. intros Ha Hb. unfold dt_compare. rewrite Ha, Hb. eauto. Qed.

Lemma eval_date_token_aware rt token mail off :
  tzinfo mail = Some off ->
  (exists b, eval_date_token rt token (Some mail) = Ok b)
  \/ eval_date_token rt token (Some mail) = Raise OverflowError
  \/ (exists n, int_max_str_digits < n
                /\ eval_date_token rt token (Some mail)
                   = Raise (int_limit_exceeded n)).
Proof.
  intros Htz. unfold eval_date_token.
  destruct (match_date_token token) as [[op rhs]|]; [|left; eauto].
  destruct (match_relative rhs) as [[digits u]|].
  - unfold int_of_digits.
    destruct (Nat.ltb int_max_str_digits (String.length digits)) eqn:El.
    { right. right. exists (String.length digits).
      split; [now apply Nat.ltb_lt|reflexivity]. }
    cbn [bind]. unfold timedelta.
    destruct u; cbv zeta iota beta;
      (destruct (_ <=? 999999999)%Z; [|now right; left]); cbn [bind];
      unfold dt_sub; (destruct (0 <=? _)%Z; [|now right; left]); cbn [bind];
      unfold dt_compare, now; cbn [tzinfo wall]; rewrite Htz; cbn [bind];
      left; eauto.
  - unfold absolute_date.
    assert (forall cmp ob, tzinfo cmp = Some ob ->
              exists b, (do c <- dt_compare mail cmp;
                         Ok (compare_by op c)) = Ok b) as Hcmp.
    { intros cmp ob Hb.
      destruct (dt_compare_aware mail cmp off ob Htz Hb) as [c ->].
      cbn [bind]. eauto. }
    left. destruct (match_calendar_date rhs) as [[[y m] d]|].
    + unfold make_date.
      destruct (_ && _); [|eauto]. now apply (Hcmp _ (tz_or_JST mail)).
    + destruct (fromisoformat rt rhs) as [cmp|]; [|eauto].
      destruct (tzinfo cmp) as [ob|] eqn:Eb.
      * now apply (Hcmp _ ob).
      * now apply (Hcmp _ (tz_or_JST mail)).
Qed.

(** The date the loop hands to the filter is missing or carries a UTC
    offset - a date without one is read as JST - and is missing exactly
    when the date column is cleared by the [try].  On such a date a DATE
    predicate, whatever its text, returns a boolean, raises
    [OverflowError], or raises the [ValueError] of [int] on a number of
    more than 4300 digits; it never fails on comparing a date without
    offset with one that has an offset. *)
Theorem message_date_is_comparable :
  forall parsedate_to_datetime format_date rt (date_hdr : option string)
         (token : string),
    let mail_dt := snd (message_date parsedate_to_datetime format_date
                                     date_hdr) in
    (mail_dt = None
     \/ exists dt off, mail_dt = Some dt /\ tzinfo dt = Some off)
    /\ (mail_dt = None ->
        fst (message_date parsedate_to_datetime format_date date_hdr) = "")
    /\ ((exists b, eval_date_token rt token mail_dt = Ok b)
        \/ eval_date_token rt token mail_dt = Raise OverflowError
        \/ (exists n, int_max_str_digits < n
                      /\ eval_date_token rt token mail_dt
                         = Raise (int_limit_exceeded n))).
Proof.
  intros parse fmt rt hdr token mail_dt.
  assert (mail_dt = None
          \/ exists dt off, mail_dt = Some dt /\ tzinfo dt = Some off) as H.
  { subst mail_dt. unfold message_date.
    destruct (truthy hdr); [|now left].
    destruct (parse (default "" hdr)) as [dt|]; [|now left].
    destruct (tzinfo dt) as [off|] eqn:Etz.
    - destruct (fmt dt); [|now left]. right. exists dt, off. now split.
    - destruct (fmt _); [|now left]. right. eexists _, JST. now split. }
  repeat apply conj.
  - exact H.
  - subst mail_dt. unfold message_date.
    destruct (truthy hdr); [|reflexivity].
    destruct (parse (default "" hdr)) as [dt|]; [|reflexivity].
    destruct (fmt _); [discriminate|reflexivity].
  - destruct H as [-> | (dt & off & -> & Htz)].
    + left. exists false. unfold eval_date_token.
      now destruct (match_date_token token) as [[op rhs]|].
    + now apply (eval_date_token_aware rt token dt off).
Qed.

(** ** [extract_body_content] and the fallback of [html_to_text] *)

Lemma rstrip_cons c s :
  Str.rstrip (String c s)
  = match Str.rstrip s with
    | EmptyString => if Str.is_space c then "" else String c ""
    | r => String c r
    end.
Proof. reflexivity. Qed.

Lemma rstrip_idem s : Str.rstrip (Str.rstrip s) = Str.rstrip s.
Proof.
  induction s as [|c s IH]; [reflexivity|].
  rewrite rstrip_cons. destruct (Str.rstrip s) as [|d r] eqn:E.
  - destruct (Str.is_space c) eqn:Ec; [reflexivity|].
    rewrite rstrip_cons. cbn [Str.rstrip]. now rewrite Ec.
  - rewrite rstrip_cons, IH. reflexivity.
Qed.

Lemma rstrip_head s :
  blank_head s = false -> blank_head (Str.rstrip s) = false.
Proof.
  destruct s as [|c s]; [discriminate|]. cbn [blank_head]. intros Hc.
  rewrite rstrip_cons. destruct (Str.rstrip s); [now rewrite Hc|exact Hc].
Qed.

Lemma lstrip_head s :
  Str.lstrip s = "" \/ blank_head (Str.lstrip s) = false.
Proof.
  unfold Str.lstrip. induction s as [|c s IH]; [now left|].
  cbn [Str.drop_while]. destruct (Str.is_space c) eqn:Ec; [exact IH|].
  right. exact Ec.
Qed.

Lemma lstrip_fixed s :
  s = "" \/ blank_head s = false -> Str.lstrip s = s.
Proof.
  intros [-> | H]; [reflexivity|].
  destruct s as [|c s]; [discriminate|].
  unfold Str.lstrip. cbn [Str.drop_while blank_head] in *. now rewrite H.
Qed.

Lemma strip_idem s : Str.strip (Str.strip s) = Str.strip s.
Proof.
  unfold Str.strip. rewrite (lstrip_fixed (Str.rstrip (Str.lstrip s))).
  - apply rstrip_idem.
  - destruct (lstrip_head s) as [-> | H]; [now left|].
    right. now apply rstrip_head.
Qed.

Lemma forallb_drop_while p q s :
  Str.forallb p s = true -> Str.forallb p (Str.drop_while q s) = true.
Proof.
  induction s as [|c s IH]; [reflexivity|]. cbn [Str.drop_while].
  destruct (q c); [|trivial].
  cbn. intros [_ Hs]%andb_true_iff. now apply IH.
Qed.

Lemma forallb_rstrip p s :
  Str.forallb p s = true -> Str.forallb p (Str.rstrip s) = true.
Proof.
  induction s as [|c s IH]; [reflexivity|].
  cbn [Str.forallb]. intros [Hc Hs]%andb_true_iff.
  rewrite rstrip_cons. specialize (IH Hs).
  destruct (Str.rstrip s) as [|a r].
  - destruct (Str.is_space c); cbn; [reflexivity|now rewrite Hc].
  - change (p c && Str.forallb p (String a r) = true). now rewrite Hc, IH.
Qed.

Lemma forallb_strip p s :
  Str.forallb p s = true -> Str.forallb p (Str.strip s) = true.
Proof.
  intros H. apply forallb_rstrip. now apply forallb_drop_while.
Qed.

Lemma forallb_drop p n : forall s,
  Str.forallb p s = true -> Str.forallb p (Str.drop n s) = true.
Proof.
  induction n as [|n IH]; intros [|c s]; cbn; trivial.
  intros [_ Hs]%andb_true_iff. now apply IH.
Qed.

Lemma forallb_take p n : forall s,
  Str.forallb p s = true -> Str.forallb p (Str.take n s) = true.
Proof.
  induction n as [|n IH]; intros [|c s]; cbn; trivial.
  intros [-> Hs]%andb_true_iff. now apply IH.
Qed.

(** Deleting matches leaves characters of the text only. *)
Lemma forallb_re_sub p m s : forall k,
  Str.forallb p s = true -> Str.forallb p (re_sub m "" k s) = true.
Proof.
  induction s as [|c s IH]; intros k; [reflexivity|].
  cbn [Str.forallb re_sub]. intros [Hc Hs]%andb_true_iff.
  destruct k as [|k]; [|now apply IH].
  destruct (m (String c s)) as [[|n]|]; cbn [String.append Str.forallb];
    rewrite ?Hc; now apply IH.
Qed.

Lemma forallb_search_body p s inner :
  Str.forallb p s = true -> search_body s = Some inner ->
  Str.forallb p inner = true.
Proof.
  induction s as [|c s IH]; intros Hs; cbn [search_body].
  - destruct (match_element "BODY" "") as [[[o j] cl]|]; [|discriminate].
    intros [= <-]. now apply forallb_take, forallb_drop.
  - destruct (match_element "BODY" (String c s)) as [[[o j] cl]|].
    + intros [= <-]. now apply forallb_take, forallb_drop.
    + cbn in Hs. apply andb_true_iff in Hs as [_ Hs]. now apply IH.
Qed.

Lemma forallb_remove_char c s :
  Str.forallb (fun d => negb (Ascii.eqb c d)) (remove_char c s) = true.
Proof.
  induction s as [|d s IH]; [reflexivity|]. cbn [remove_char].
  destruct (Ascii.eqb c d) eqn:E; [exact IH|].
  cbn [Str.forallb]. now rewrite E, IH.
Qed.

(** What [extract_body_content] returns holds no NUL character and has
    no white space at either end, whatever the input and with or without
    the removal of scripts and styles. *)
Theorem extract_body_content_clean :
  forall (html : list uchar) (strip_script_style : bool),
    Str.forallb (fun c => negb (Ascii.eqb nul c))
                (extract_body_content html strip_script_style) = true
    /\ Str.strip (extract_body_content html strip_script_style)
       = extract_body_content html strip_script_style.
Proof.
  intros html b. unfold extract_body_content.
  destruct html as [|c0 html0]; [split; reflexivity|].
  set (html := c0 :: html0). split; [|apply strip_idem].
  apply forallb_strip.
  assert (Str.forallb (fun c => negb (Ascii.eqb nul c))
            (Str.strip match search_body (cleaned html) with
                       | Some inner => inner
                       | None => cleaned html
                       end) = true) as H.
  { apply forallb_strip.
    destruct (search_body (cleaned html)) as [inner|] eqn:E.
    - eapply forallb_search_body; [|exact E]. apply forallb_remove_char.
    - apply forallb_remove_char. }
  destruct b; [|exact H]. now apply forallb_re_sub, forallb_re_sub.
Qed.

Lemma strip_prefix_ci_head k kw c s :
  Ascii.eqb k (Str.upper c) = false ->
  Str.strip_prefix_ci (String k kw) (String c s) = None.
Proof. intros H. cbn [Str.strip_prefix_ci]. now rewrite H. Qed.

Lemma match_element_head name c s :
  Ascii.eqb "<" c = false -> match_element name (String c s) = None.
Proof.
  intros H. unfold match_element, match_open.
  cbn [String.append Str.strip_prefix_ci].
  assert (Ascii.eqb "<" (Str.upper c) = false) as ->; [|reflexivity].
  destruct (Ascii.eqb "<" (Str.upper c)) eqn:E; [|reflexivity].
  apply Ascii.eqb_eq in E. rewrite <- H. symmetry.
  apply Ascii.eqb_eq.
  destruct c as [[] [] [] [] [] [] [] []]; try discriminate; reflexivity.
Qed.

Lemma match_element_empty name : match_element name "" = None.
Proof. reflexivity. Qed.

Lemma re_sub_element_plain name s :
  Str.contains_char "<" s = false ->
  re_sub (element_length name) "" 0 s = s.
Proof.
  induction s as [|c s IH]; [reflexivity|].
  cbn [Str.contains_char re_sub]. intros [Hc Hs]%orb_false_iff.
  unfold element_length at 1. rewrite match_element_head by exact Hc.
  cbn [option_map]. now rewrite IH.
Qed.

Lemma search_body_plain s :
  Str.contains_char "<" s = false -> search_body s = None.
Proof.
  induction s as [|c s IH]; [reflexivity|].
  cbn [Str.contains_char search_body]. intros [Hc Hs]%orb_false_iff.
  rewrite match_element_head by exact Hc. now apply IH.
Qed.

Lemma contains_forallb c s :
  Str.contains_char c s = false
  <-> Str.forallb (fun d => negb (Ascii.eqb c d)) s = true.
Proof.
  induction s as [|d s IH]; [easy|]. cbn.
  rewrite orb_false_iff, andb_true_iff, IH, negb_true_iff. reflexivity.
Qed.

Lemma contains_remove_char c d s :
  Str.contains_char c s = false ->
  Str.contains_char c (remove_char d s) = false.
Proof.
  induction s as [|e s IH]; [reflexivity|]. cbn [Str.contains_char remove_char].
  intros [He Hs]%orb_false_iff. destruct (Ascii.eqb d e); [now apply IH|].
  cbn [Str.contains_char]. now rewrite He, IH.
Qed.

Lemma remove_bom_app a b :
  remove_bom (a ++ b) = remove_bom a +:+ remove_bom b.
Proof.
  induction a as [|[c|] a IH]; [reflexivity| |exact IH].
  cbn [app remove_bom String.append]. now rewrite IH.
Qed.

Lemma remove_bom_text s : remove_bom (text s) = s.
Proof.
  unfold text. induction s as [|c s IH]; [reflexivity|].
  cbn [list_ascii_of_string List.map remove_bom]. now rewrite IH.
Qed.

Lemma plain_text_stripped s (b : bool) :
  Str.contains_char "<" s = false ->
  Str.strip
    (if b then re_sub (element_length "STYLE") "" 0
                (re_sub (element_length "SCRIPT") "" 0 (Str.strip s))
     else Str.strip s)
  = Str.strip s.
Proof.
  intros Hlt.
  assert (Str.contains_char "<" (Str.strip s) = false)
    as Hs by now apply contains_forallb, forallb_strip, contains_forallb.
  destruct b; [|apply strip_idem].
  rewrite (re_sub_element_plain "SCRIPT") by exact Hs.
  rewrite (re_sub_element_plain "STYLE") by exact Hs.
  apply strip_idem.
Qed.

(** Text that holds no [<] comes back as it is, less its byte order
    marks, its NUL characters and the white space around it. *)
Theorem extract_body_content_plain_text :
  forall (html : list uchar) (strip_script_style : bool),
    ~ In (Char "<") html ->
    extract_body_content html strip_script_style
    = Str.strip (cleaned html).
Proof.
  intros html b Hlt. unfold extract_body_content.
  destruct html as [|c0 html0]; [reflexivity|].
  set (html := c0 :: html0) in *.
  assert (Str.contains_char "<" (cleaned html) = false) as Hc.
  { unfold cleaned. apply contains_remove_char.
    clearbody html. clear c0 html0.
    induction html as [|[c|] l IH]; [reflexivity| |].
    - cbn [remove_bom Str.contains_char].
      destruct (Ascii.eqb_spec "<" c) as [<-|_].
      + exfalso. apply Hlt. now left.
      + apply IH. intros Hin. apply Hlt. now right.
    - apply IH. intros Hin. apply Hlt. now right. }
  rewrite (search_body_plain _ Hc).
  now apply plain_text_stripped.
Qed.

Lemma extract_body_content_plain_text_witness :
  extract_body_content (Bom :: text "  total: 3 > 2  ") true
  = "total: 3 > 2".
Proof.
  apply (extract_body_content_plain_text (Bom :: text "  total: 3 > 2  ")
           true).
  vm_compute. intros H.
  repeat (destruct H as [H|H]; [discriminate H|]). exact H.
Defined.

Lemma tag_free_cons c s :
  match_any_tag (String c s) = None -> tag_free s -> tag_free (String c s).
Proof. intros H0 Hs [|n]; [exact H0|apply Hs]. Qed.

Lemma find_char_re_sub c m s : forall k,
  Str.find_char c s = None -> Str.find_char c (re_sub m "" k s) = None.
Proof.
  induction s as [|d s IH]; intros k; [reflexivity|].
  cbn [Str.find_char re_sub].
  destruct (Ascii.eqb c d) eqn:E; [discriminate|].
  intros Hs. assert (Str.find_char c s = None) as Hs'
    by (destruct (Str.find_char c s); [discriminate|reflexivity]).
  destruct k as [|k]; [|now apply IH].
  destruct (m (String d s)) as [[|n]|];
    cbn [String.append Str.find_char]; rewrite ?E, ?IH; auto.
Qed.

Lemma re_sub_any_tag_free s : forall k,
  tag_free (re_sub match_any_tag "" k s).
Proof.
  induction s as [|c s IH]; intros k.
  { intros [|n]; reflexivity. }
  cbn [re_sub]. destruct k as [|k]; [|apply IH].
  destruct (match_any_tag (String c s)) as [[|n]|] eqn:Em;
    cbn [String.append]; try apply IH.
  - (* a match of length 0 does not occur *)
    unfold match_any_tag in Em. destruct (Ascii.eqb c "<"); [|discriminate].
    destruct (Str.find_char ">" s) as [[|j]|]; discriminate.
  - apply tag_free_cons; [|apply IH].
    unfold match_any_tag in *.
    destruct (Ascii.eqb c "<"); [|reflexivity].
    destruct (Str.find_char ">" s) as [[|j]|] eqn:Ef; try discriminate.
    + destruct s as [|d s']; [discriminate|].
      cbn [Str.find_char] in Ef.
      destruct (Ascii.eqb ">" d) eqn:Ed.
      * apply Ascii.eqb_eq in Ed. subst d.
        cbn [re_sub match_any_tag Str.find_char].
        change (Ascii.eqb ">" "<") with false. cbv iota.
        cbn [Str.find_char]. reflexivity.
      * destruct (Str.find_char ">" s'); discriminate.
    + now rewrite find_char_re_sub.
Qed.

(** Without [bs4], the text that [html_to_text] hands to [unescape] holds
    no tag any more: no [<] in it is followed by a character other than
    [>] and, later, by [>]. *)
Theorem html_to_text_fallback_tag_free :
  forall (unescape_entities : string -> string) (html : string),
    tag_free (fallback_text html)
    /\ html_to_text None unescape_entities html
       = match html with
         | EmptyString => EmptyString
         | _ => Str.strip (unescape unescape_entities (fallback_text html))
         end.
Proof.
  intros ue html. split; [apply re_sub_any_tag_free|].
  now destruct html.
Qed.

Lemma remove_char_app c a b :
  remove_char c (a +:+ b) = remove_char c a +:+ remove_char c b.
Proof.
  induction a as [|d a IH]; [reflexivity|]. cbn [String.append remove_char].
  destruct (Ascii.eqb c d); [exact IH|]. cbn [String.append]. now rewrite IH.
Qed.

Lemma remove_char_absent c s :
  Str.forallb (fun d => negb (Ascii.eqb c d)) s = true -> remove_char c s = s.
Proof.
  induction s as [|d s IH]; [reflexivity|]. cbn [Str.forallb remove_char].
  intros [Hd Hs]%andb_true_iff. apply negb_true_iff in Hd.
  now rewrite Hd, IH.
Qed.

Lemma search_body_skip pre s :
  Str.contains_char "<" pre = false -> search_body (pre +:+ s) = search_body s.
Proof.
  induction pre as [|c pre IH]; [reflexivity|].
  cbn [Str.contains_char]. intros [Hc Hp]%orb_false_iff.
  change (String c pre +:+ s) with (String c (pre +:+ s)).
  cbn [search_body]. rewrite match_element_head by exact Hc. now apply IH.
Qed.

Lemma space_not_word c : Str.is_space c = true -> is_word c = false.
Proof.
  destruct c as [[] [] [] [] [] [] [] []]; try discriminate; reflexivity.
Qed.

Lemma find_char_app c a r :
  Str.contains_char c a = false ->
  Str.find_char c (a +:+ String c r) = Some (String.length a).
Proof.
  induction a as [|d a IH]; cbn [Str.contains_char String.append Str.find_char
                                   String.length].
  - now rewrite Ascii.eqb_refl.
  - intros [Hd Ha]%orb_false_iff. rewrite Hd, IH by exact Ha. reflexivity.
Qed.

Lemma match_open_body attrs rest :
  blank_head attrs = true -> Str.contains_char ">" attrs = false ->
  match_open "BODY" ("<body" +:+ attrs +:+ String ">" rest)
  = Some (5 + String.length attrs + 1).
Proof.
  intros Hb Hgt. unfold match_open.
  change (Str.strip_prefix_ci ("<" +:+ "BODY")
            ("<body" +:+ attrs +:+ String ">" rest))
    with (Some (attrs +:+ String ">" rest)).
  cbv iota. pose proof (find_char_app ">" attrs rest Hgt) as Hf.
  destruct attrs as [|a attrs]; cbn [String.append] in *.
  - cbn [Str.find_char]. reflexivity.
  - cbn [blank_head] in Hb. rewrite (space_not_word a Hb), Hf. reflexivity.
Qed.

Lemma match_close_head name c s :
  Ascii.eqb "<" c = false -> match_close name (String c s) = None.
Proof.
  intros H. unfold match_close. cbn [String.append Str.strip_prefix_ci].
  assert (Ascii.eqb "<" (Str.upper c) = false) as ->; [|reflexivity].
  destruct (Ascii.eqb "<" (Str.upper c)) eqn:E; [|reflexivity].
  apply Ascii.eqb_eq in E. rewrite <- H. symmetry. apply Ascii.eqb_eq.
  destruct c as [[] [] [] [] [] [] [] []]; try discriminate; reflexivity.
Qed.

Lemma find_close_body inner post :
  Str.contains_char "<" inner = false ->
  find_close "BODY" (inner +:+ "</body>" +:+ post)
  = Some (String.length inner, 7).
Proof.
  induction inner as [|c inner IH]; [reflexivity|].
  cbn [Str.contains_char]. intros [Hc Hi]%orb_false_iff.
  change (String c inner +:+ "</body>" +:+ post)
    with (String c (inner +:+ "</body>" +:+ post)).
  cbn [find_close]. rewrite match_close_head by exact Hc.
  now rewrite IH.
Qed.

Lemma cleaned_app a b : cleaned (a ++ b) = cleaned a +:+ cleaned b.
Proof. unfold cleaned. now rewrite remove_bom_app, remove_char_app. Qed.

Lemma cleaned_text s :
  Str.forallb (fun d => negb (Ascii.eqb nul d)) s = true ->
  cleaned (text s) = s.
Proof.
  intros H. unfold cleaned. rewrite remove_bom_text.
  now apply remove_char_absent.
Qed.

(** A page in which a body element is the first tag: text without [<],
    then [<body], attribute text that - its byte order marks and NUL
    characters deleted - is empty or begins with white space and holds no
    [>], then [>], enclosed text without [<], and [</body>].  The text
    inside the element comes back, less its byte order marks, its NUL
    characters and the white space around it; what stands before and
    behind the element is left out. *)
Theorem extract_body_content_takes_body :
  forall (pre attrs inner post : list uchar) (strip_script_style : bool),
    Str.contains_char "<" (cleaned pre) = false ->
    blank_head (cleaned attrs) = true ->
    Str.contains_char ">" (cleaned attrs) = false ->
    Str.contains_char "<" (cleaned inner) = false ->
    extract_body_content
      (pre ++ text "<body" ++ attrs ++ text ">" ++ inner ++ text "</body>"
       ++ post)
      strip_script_style
    = Str.strip (cleaned inner).
Proof.
  intros pre attrs inner post b Hpre Hb Hgt Hin.
  unfold extract_body_content.
  set (html := pre ++ text "<body" ++ attrs ++ text ">" ++ inner
               ++ text "</body>" ++ post).
  assert (cleaned html
          = cleaned pre +:+ "<body" +:+ cleaned attrs +:+ String ">"
              (cleaned inner +:+ "</body>" +:+ cleaned post))
    as Hclean.
  { unfold html. rewrite !cleaned_app.
    now rewrite !cleaned_text by reflexivity. }
  assert (search_body (cleaned html) = Some (cleaned inner)) as Hsearch.
  { rewrite Hclean.
    rewrite search_body_skip by exact Hpre.
    pose proof (match_open_body (cleaned attrs)
                  (cleaned inner +:+ "</body>" +:+ cleaned post) Hb Hgt)
      as Ho.
    assert (Str.drop (5 + String.length (cleaned attrs) + 1)
              ("<body" +:+ cleaned attrs +:+ String ">"
                 (cleaned inner +:+ "</body>" +:+ cleaned post))
            = cleaned inner +:+ "</body>" +:+ cleaned post)
      as Hd.
    { change (Str.drop (5 + String.length (cleaned attrs) + 1)
                ("<body" +:+ ?x))
        with (Str.drop (String.length (cleaned attrs) + 1) x).
      rewrite Nat.add_1_r.
      generalize (cleaned attrs) as a. clear.
      induction a as [|c a IH]; [reflexivity|exact IH]. }
    assert (match_element "BODY"
              ("<body" +:+ cleaned attrs +:+ String ">"
                 (cleaned inner +:+ "</body>" +:+ cleaned post))
            = Some (5 + String.length (cleaned attrs) + 1,
                    String.length (cleaned inner), 7)) as Hm.
    { unfold match_element. rewrite Ho, Hd.
      now rewrite find_close_body by exact Hin. }
    destruct ("<body" +:+ cleaned attrs +:+ String ">"
                (cleaned inner +:+ "</body>" +:+ cleaned post))
      as [|c0 s0] eqn:Es; [discriminate|].
    cbn [search_body]. rewrite Hm, Hd.
    now rewrite StrFacts.take_app. }
  destruct html as [|h0 html0] eqn:Eh.
  { exfalso. unfold html in Eh. destruct pre; discriminate. }
  rewrite Hsearch.
  now apply plain_text_stripped.
Qed.

Lemma extract_body_content_takes_body_witness :
  extract_body_content
    ((Bom :: text "text ") ++ text "<body" ++ text " class='x'" ++ text ">"
     ++ (Char nul :: text " Hello, world ") ++ text "</body>"
     ++ text "</html>")
    true
  = "Hello, world".
Proof.
  apply (extract_body_content_takes_body (Bom :: text "text ")
           (text " class='x'") (Char nul :: text " Hello, world ")
           (text "</html>") true); reflexivity.
Defined.

(** ** [extract_addresses_only] *)

Lemma py_lower_char_idem c : py_lower_char (py_lower_char c) = py_lower_char c.
Proof. destruct c as [[] [] [] [] [] [] [] []]; reflexivity. Qed.

Lemma py_lower_char_space c : Str.is_space (py_lower_char c) = Str.is_space c.
Proof. destruct c as [[] [] [] [] [] [] [] []]; reflexivity. Qed.

Lemma py_lower_char_at c :
  Ascii.eqb "@" (py_lower_char c) = Ascii.eqb "@" c.
Proof. destruct c as [[] [] [] [] [] [] [] []]; reflexivity. Qed.

Lemma py_lower_idem s : py_lower (py_lower s) = py_lower s.
Proof.
  unfold py_lower. induction s as [|c s IH]; [reflexivity|].
  cbn [Str.map]. now rewrite py_lower_char_idem, IH.
Qed.

Lemma contains_at_lower s :
  Str.contains_char "@" (py_lower s) = Str.contains_char "@" s.
Proof.
  unfold py_lower. induction s as [|c s IH]; [reflexivity|].
  cbn [Str.map Str.contains_char]. now rewrite py_lower_char_at, IH.
Qed.

Lemma lstrip_lower s : Str.lstrip (py_lower s) = py_lower (Str.lstrip s).
Proof.
  unfold Str.lstrip, py_lower. induction s as [|c s IH]; [reflexivity|].
  cbn [Str.map Str.drop_while]. rewrite py_lower_char_space.
  now destruct (Str.is_space c).
Qed.

Lemma rstrip_lower s : Str.rstrip (py_lower s) = py_lower (Str.rstrip s).
Proof.
  unfold py_lower. induction s as [|c s IH]; [reflexivity|].
  cbn [Str.map]. rewrite !rstrip_cons, IH, py_lower_char_space.
  destruct (Str.rstrip s); [now destruct (Str.is_space c)|reflexivity].
Qed.

Lemma strip_lower s : Str.strip (py_lower s) = py_lower (Str.strip s).
Proof. unfold Str.strip. now rewrite lstrip_lower, rstrip_lower. Qed.

Lemma contains_lstrip c s :
  Str.is_space c = false ->
  Str.contains_char c (Str.lstrip s) = Str.contains_char c s.
Proof.
  intros Hc. unfold Str.lstrip. induction s as [|d s IH]; [reflexivity|].
  cbn [Str.drop_while Str.contains_char].
  destruct (Str.is_space d) eqn:Ed; [|reflexivity].
  rewrite IH. destruct (Ascii.eqb c d) eqn:E; [|reflexivity].
  apply Ascii.eqb_eq in E. congruence.
Qed.

Lemma contains_rstrip c s :
  Str.is_space c = false ->
  Str.contains_char c (Str.rstrip s) = Str.contains_char c s.
Proof.
  intros Hc. induction s as [|d s IH]; [reflexivity|].
  rewrite rstrip_cons. cbn [Str.contains_char]. rewrite <- IH.
  destruct (Str.rstrip s) as [|a r]; [|reflexivity].
  cbn [Str.contains_char]. rewrite orb_false_r.
  destruct (Str.is_space d) eqn:Ed; [|cbn; now rewrite orb_false_r].
  cbn [Str.contains_char].
  destruct (Ascii.eqb c d) eqn:E; [|reflexivity].
  apply Ascii.eqb_eq in E. congruence.
Qed.

Lemma contains_strip c s :
  Str.is_space c = false ->
  Str.contains_char c (Str.strip s) = Str.contains_char c s.
Proof.
  intros Hc. unfold Str.strip. now rewrite contains_rstrip, contains_lstrip.
Qed.

(** Every address [extract_addresses_only] returns holds an [@], has no
    capital letter left and no white space around it; an empty header
    gives no address. *)
Theorem extract_addresses_only_normal :
  forall decode_mime_header getaddresses (header_value a : string),
    In a (extract_addresses_only decode_mime_header getaddresses
                                 header_value) ->
    header_value <> ""
    /\ Str.contains_char "@" a = true
    /\ py_lower a = a
    /\ Str.strip a = a.
Proof.
  intros dmh ga h a. unfold extract_addresses_only.
  destruct h as [|c h]; [intros []|].
  rewrite in_map_iff. intros ((name & addr) & <- & Hin).
  apply filter_In in Hin as [_ [_ Hat]%andb_true_iff]. cbn [snd] in *.
  repeat apply conj.
  - discriminate.
  - now rewrite contains_at_lower, contains_strip.
  - apply py_lower_idem.
  - now rewrite strip_lower, strip_idem.
Qed.

Lemma extract_addresses_only_normal_witness :
  "Ann <A@B.Com>, none" <> ""
  /\ Str.contains_char "@" "a@b.com" = true
  /\ py_lower "a@b.com" = "a@b.com"
  /\ Str.strip "a@b.com" = "a@b.com".
Proof.
  apply (extract_addresses_only_normal
           (fun s => s) (fun d => [("Ann", " A@B.Com "); ("", "none")])
           "Ann <A@B.Com>, none" "a@b.com").
  left. reflexivity.
Defined.

(** ** The state file *)

Abbreviation no_linebreak := (Str.forallb (fun c => negb (is_linebreak c))).
Abbreviation no_cr := (Str.forallb (fun c => negb (Ascii.eqb c cr))).

Lemma append_assoc (a b c : string) : (a +:+ b) +:+ c = a +:+ b +:+ c.
Proof. induction a as [|x a IH]; cbn; congruence. Qed.

Lemma linebreak_space c : is_linebreak c = true -> Str.is_space c = true.
Proof.
  destruct c as [[] [] [] [] [] [] [] []]; try discriminate; reflexivity.
Qed.

Lemma no_linebreak_no_cr s : no_linebreak s = true -> no_cr s = true.
Proof.
  apply forallb_impl. intros c Hc.
  destruct (Ascii.eqb c cr) eqn:E; [|reflexivity].
  apply Ascii.eqb_eq in E. subst c. discriminate.
Qed.

(** A line and its line feed come off the front of the text. *)
Lemma splitlines_line x s :
  no_linebreak x = true ->
  splitlines (x +:+ String nl s) = x :: splitlines s.
Proof.
  induction x as [|c x IH]; [reflexivity|].
  cbn [Str.forallb String.append]. intros [Hc Hx]%andb_true_iff.
  cbn [splitlines]. apply negb_true_iff in Hc. rewrite Hc.
  now rewrite IH.
Qed.

Lemma splitlines_join l :
  l <> [] -> Forall (fun x => no_linebreak x = true) l ->
  splitlines (join (String nl "") l +:+ String nl "") = l.
Proof.
  intros Hne Hl. induction Hl as [|x l Hx Hl IH]; [congruence|].
  destruct l as [|y l].
  - cbn [join]. now rewrite splitlines_line.
  - change (join (String nl "") (x :: y :: l))
      with (x +:+ String nl "" +:+ join (String nl "") (y :: l)).
    rewrite append_assoc.
    change ((String nl "" +:+ join (String nl "") (y :: l)) +:+ String nl "")
      with (String nl (join (String nl "") (y :: l) +:+ String nl "")).
    rewrite splitlines_line by exact Hx. now rewrite IH.
Qed.

Lemma splitlines_no_linebreak s :
  Forall (fun x => no_linebreak x = true) (splitlines s).
Proof.
  induction s as [|c s IH]; [constructor|]. cbn [splitlines].
  destruct (is_linebreak c) eqn:Ec.
  - destruct (Ascii.eqb c cr && Str.startswith (String nl "") s);
      [exact IH|now constructor].
  - destruct (splitlines s) as [|first rest].
    + constructor; [|constructor]. cbn. now rewrite Ec.
    + inversion IH; subst. constructor; [|assumption].
      cbn [Str.forallb]. now rewrite Ec.
Qed.

Lemma universal_newlines_no_cr s :
  no_cr s = true -> universal_newlines s = s.
Proof.
  induction s as [|c s IH]; [reflexivity|].
  cbn [Str.forallb universal_newlines]. intros [Hc Hs]%andb_true_iff.
  apply negb_true_iff in Hc. now rewrite Hc, IH.
Qed.

(** What was written is what is read back, on either kind of system,
    when the text holds no carriage return. *)
Lemma read_write_text windows text :
  no_cr text = true -> read_text (write_text windows text) = text.
Proof.
  unfold read_text, write_text, linesep.
  induction text as [|c s IH]; [reflexivity|].
  cbn [Str.forallb translate_newlines]. intros [Hc Hs]%andb_true_iff.
  apply negb_true_iff in Hc. specialize (IH Hs).
  destruct (Ascii.eqb c nl) eqn:En.
  - apply Ascii.eqb_eq in En. subst c.
    destruct windows; cbn [String.append universal_newlines].
    + change (Ascii.eqb cr cr) with true. cbv iota.
      change (Str.startswith (String nl "") (String nl ?x)) with true.
      cbn [universal_newlines]. change (Ascii.eqb nl cr) with false.
      cbv iota. now rewrite IH.
    + change (Ascii.eqb nl cr) with false. cbv iota. now rewrite IH.
  - cbn [String.append universal_newlines]. now rewrite Hc, IH.
Qed.

Lemma no_cr_join l :
  Forall (fun x => no_linebreak x = true) l ->
  no_cr (join (String nl "") l +:+ String nl "") = true.
Proof.
  induction 1 as [|x l Hx Hl IH]; [reflexivity|].
  destruct l as [|y l].
  - cbn [join]. rewrite forallb_app, (no_linebreak_no_cr x Hx). reflexivity.
  - change (join (String nl "") (x :: y :: l))
      with (x +:+ String nl "" +:+ join (String nl "") (y :: l)).
    rewrite append_assoc, forallb_app, (no_linebreak_no_cr x Hx).
    exact IH.
Qed.

Lemma clean_id_spec x :
  clean_id x = true
  <-> x <> "" /\ Str.strip x = x /\ no_linebreak x = true.
Proof.
  unfold clean_id. rewrite !andb_true_iff, String.eqb_eq.
  destruct x; cbn [nonempty]; intuition congruence.
Qed.

(** Whatever the state file holds, the keys [load_state] reads from it
    are clean. *)
Lemma load_state_clean dedupe file :
  Forall (fun x => clean_id x = true) (load_state dedupe file).
Proof.
  unfold load_state. destruct dedupe; [|constructor].
  destruct file as [content|]; [|constructor]. cbn [negb].
  apply Forall_forall. intros x Hx. apply list_elem_of_In in Hx.
  apply in_map_iff in Hx as (y & <- & Hy).
  apply filter_In in Hy as [Hy Hne].
  apply clean_id_spec. repeat apply conj.
  - destruct (Str.strip y); [discriminate|discriminate].
  - apply strip_idem.
  - apply forallb_strip.
    pose proof (splitlines_no_linebreak (read_text content)) as Hall.
    rewrite Forall_forall in Hall. apply Hall. now apply list_elem_of_In.
Qed.

Lemma sorted_elem x l : x ∈ sorted l <-> x ∈ l.
Proof.
  unfold sorted. now rewrite merge_sort_Permutation, elem_of_remove_dups.
Qed.

Lemma filter_map_clean l :
  Forall (fun x => clean_id x = true) l ->
  List.map Str.strip
           (List.filter (fun x => nonempty (Str.strip x)) l) = l.
Proof.
  induction 1 as [|x l Hx Hl IH]; [reflexivity|].
  apply clean_id_spec in Hx as (Hne & Hs & _).
  cbn [List.filter]. rewrite Hs.
  destruct x; [congruence|]. cbn [nonempty List.map]. now rewrite Hs, IH.
Qed.

Section StateFacts.
Context (windows : bool) (uidls : list string) (file : option string).
Hypothesis uidls_nonempty : uidls <> [].
Hypothesis uidls_clean : Forall (fun x => clean_id x = true) uidls.

Lemma all_clean :
  Forall (fun x => clean_id x = true) (sorted (load_state true file ++ uidls)).
Proof.
  apply Forall_forall. intros x Hx. rewrite sorted_elem in Hx.
  apply elem_of_app in Hx as [Hx|Hx].
  - pose proof (load_state_clean true file) as H.
    rewrite Forall_forall in H. now apply H.
  - rewrite Forall_forall in uidls_clean. now apply uidls_clean.
Qed.

Lemma all_nonempty : sorted (load_state true file ++ uidls) <> [].
Proof.
  destruct uidls as [|u l] eqn:E; [congruence|].
  assert (u ∈ sorted (load_state true file ++ u :: l)) as H.
  { apply sorted_elem, elem_of_app. right. left. }
  intros Hnil. rewrite Hnil in H. inversion H.
Qed.

Lemma load_after_save :
  load_state true (save_state true windows uidls file)
  = sorted (load_state true file ++ uidls).
Proof.
  pose proof all_clean as Hc. pose proof all_nonempty as Hn.
  unfold save_state. cbn [negb orb].
  destruct uidls as [|u l] eqn:E; [congruence|]. cbn [head is_Some_b negb].
  rewrite <- E in *.
  set (all_u := sorted (load_state true file ++ uidls)) in *.
  assert (Forall (fun x => no_linebreak x = true) all_u) as Hl.
  { eapply Forall_impl; [exact Hc|]. intros x Hx.
    now apply clean_id_spec in Hx. }
  unfold load_state at 1. cbn [negb].
  rewrite read_write_text by now apply no_cr_join.
  rewrite splitlines_join by assumption.
  now apply filter_map_clean.
Qed.

End StateFacts.

Lemma state_round_trip_in windows uidls file x :
  uidls <> [] -> Forall (fun x => clean_id x = true) uidls ->
  In x (load_state true file) \/ In x uidls ->
  In x (load_state true (save_state true windows uidls file)).
Proof.
  intros Hne Hc Hx. rewrite (load_after_save windows uidls file Hne Hc).
  rewrite <- !list_elem_of_In in *. now rewrite sorted_elem, elem_of_app.
Qed.

(** After [save_state(uidls)] the state file holds the keys it held
    before and the keys of [uidls], no others: [load_state] reads exactly
    their sorted union back.  This holds where [os.linesep] is a line
    feed and where it is a carriage return and a line feed, for keys that
    are not empty, have no white space at their ends and hold no line
    boundary. *)
Theorem state_round_trip :
  forall (windows : bool) (uidls : list string) (file : option string),
    uidls <> [] ->
    Forall (fun x => clean_id x = true) uidls ->
    load_state true (save_state true windows uidls file)
    = sorted (load_state true file ++ uidls)
    /\ forall x,
         In x (load_state true (save_state true windows uidls file))
         <-> In x (load_state true file) \/ In x uidls.
Proof.
  intros windows uidls file Hne Hc.
  pose proof (load_after_save windows uidls file Hne Hc) as Heq.
  split; [exact Heq|]. intros x. rewrite Heq.
  rewrite <- !list_elem_of_In, sorted_elem, elem_of_app. reflexivity.
Qed.

Lemma state_round_trip_witness :
  load_state true (save_state true true ["x2"; "a1"] (Some "zz"))
  = sorted (load_state true (Some "zz") ++ ["x2"; "a1"]).
Proof.
  refine (proj1 (state_round_trip true ["x2"; "a1"] (Some "zz") _ _)).
  - discriminate.
  - repeat (constructor; [reflexivity|]). constructor.
Defined.

Lemma string_compare_trans a : forall b c,
  String.compare a b <> Gt -> String.compare b c <> Gt ->
  String.compare a c <> Gt.
Proof.
  induction a as [|x a IH]; intros [|y b] [|z c]; cbn [String.compare];
    try congruence.
  unfold Ascii.compare.
  destruct (N.compare_spec (N_of_ascii x) (N_of_ascii y)) as [E1|L1|G1],
           (N.compare_spec (N_of_ascii y) (N_of_ascii z)) as [E2|L2|G2],
           (N.compare_spec (N_of_ascii x) (N_of_ascii z)) as [E3|L3|G3];
    intros H1 H2; try congruence; try lia.
  now apply (IH b c).
Qed.

Lemma str_le_spec a b : str_le a b <-> String.compare a b <> Gt.
Proof.
  unfold str_le, String.leb. destruct (String.compare a b); split;
    congruence.
Qed.

#[global] Instance str_le_trans : Transitive str_le.
Proof.
  intros a b c. rewrite !str_le_spec. apply string_compare_trans.
Qed.

#[global] Instance str_le_total : Total str_le.
Proof. intros a b. apply String.leb_total. Qed.

#[global] Instance str_le_antisym : AntiSymm eq str_le.
Proof. intros a b. apply String.leb_antisym. Qed.

(** Two sets with the same elements are sorted into the same list. *)
Lemma sorted_ext l1 l2 : (forall x, x ∈ l1 <-> x ∈ l2) -> sorted l1 = sorted l2.
Proof.
  intros H. unfold sorted.
  apply (Sorted_unique str_le); try apply Sorted_merge_sort; try apply _.
  rewrite !merge_sort_Permutation.
  apply NoDup_Permutation; try apply NoDup_remove_dups.
  intros x. now rewrite !elem_of_remove_dups.
Qed.

Lemma save_state_on windows uidls file :
  uidls <> [] ->
  save_state true windows uidls file
  = Some (write_text windows
            (join (String nl "") (sorted (load_state true file ++ uidls))
             +:+ String nl "")).
Proof. intros Hne. destruct uidls; [congruence|reflexivity]. Qed.

(** The state file is canonical: its keys are read back in ascending
    order of code points and without repetition, and saving the same keys
    once more leaves the file as it is. *)
Theorem save_state_canonical :
  forall (windows : bool) (uidls : list string) (file : option string),
    uidls <> [] ->
    Forall (fun x => clean_id x = true) uidls ->
    let saved := save_state true windows uidls file in
    Sorted str_le (load_state true saved)
    /\ NoDup (load_state true saved)
    /\ save_state true windows uidls saved = saved.
Proof.
  intros windows uidls file Hne Hc. cbv zeta.
  pose proof (load_after_save windows uidls file Hne Hc) as Heq.
  repeat apply conj.
  - rewrite Heq. apply Sorted_merge_sort, _.
  - rewrite Heq. unfold sorted. rewrite merge_sort_Permutation.
    apply NoDup_remove_dups.
  - rewrite (save_state_on windows uidls (save_state true windows uidls file))
      by exact Hne.
    rewrite Heq, (save_state_on windows uidls file) by exact Hne.
    do 4 f_equal. apply sorted_ext. intros x.
    rewrite elem_of_app, sorted_elem, elem_of_app. tauto.
Qed.

Lemma save_state_canonical_witness :
  save_state true false ["b"; "a"] (save_state true false ["b"; "a"] None)
  = save_state true false ["b"; "a"] None.
Proof.
  refine (proj2 (proj2 (save_state_canonical false ["b"; "a"] None _ _))).
  - discriminate.
  - repeat (constructor; [reflexivity|]). constructor.
Defined.

(** ** The identity keys and the message window of the POP3 loop *)

(** A word: not empty and free of white space. *)
Abbreviation is_word_str w := (nonempty w && Str.forallb non_space w).

Lemma py_split_words s :
  Forall (fun w => is_word_str w = true) (py_split s).
Proof.
  induction s as [|c s IH]; [constructor|]. cbn [py_split].
  destruct (Str.is_space c) eqn:Ec; [exact IH|].
  assert (non_space c = true) as Hc by (unfold non_space; now rewrite Ec).
  destruct (blank_head s).
  - constructor; [|exact IH]. cbn. now rewrite Hc.
  - destruct (py_split s) as [|w r].
    + constructor; [|constructor]. cbn. now rewrite Hc.
    + inversion IH as [|? ? Hw Hr]; subst. constructor; [|exact Hr].
      apply andb_true_iff in Hw as [_ Hw]. cbn. now rewrite Hc, Hw.
Qed.

Lemma rstrip_non_space s :
  Str.forallb non_space s = true -> Str.rstrip s = s.
Proof.
  induction s as [|c s IH]; [reflexivity|].
  cbn [Str.forallb]. intros [Hc Hs]%andb_true_iff.
  rewrite rstrip_cons, IH by exact Hs.
  destruct s; [|reflexivity].
  unfold non_space in Hc. apply negb_true_iff in Hc. now rewrite Hc.
Qed.

Lemma word_clean w : is_word_str w = true -> clean_id w = true.
Proof.
  intros [Hne Hw]%andb_true_iff. apply clean_id_spec. repeat apply conj.
  - destruct w; [discriminate|discriminate].
  - unfold Str.strip. rewrite lstrip_fixed.
    + now apply rstrip_non_space.
    + right. destruct w as [|c w]; [discriminate|].
      cbn in Hw. apply andb_true_iff in Hw as [Hc _].
      unfold non_space in Hc. now apply negb_true_iff in Hc.
  - eapply forallb_impl; [|exact Hw]. intros c Hc.
    destruct (is_linebreak c) eqn:E; [|reflexivity].
    apply linebreak_space in E. unfold non_space in Hc.
    now rewrite E in Hc.
Qed.

Lemma uint_digits d :
  Str.forallb non_space (NilEmpty.string_of_uint d) = true.
Proof. induction d; cbn; auto. Qed.

Lemma str_int_word i : is_word_str (str_int i) = true.
Proof.
  unfold str_int, NilZero.string_of_int, NilZero.string_of_uint.
  destruct (Z.to_int i) as [d|d]; destruct d; cbn [nonempty andb];
    try reflexivity; cbn [Str.forallb]; try apply uint_digits;
    try (rewrite uint_digits; reflexivity).
Qed.

Lemma uidl_row_words m row m' :
  Forall (fun kv => is_word_str (snd kv) = true) m ->
  uidl_row m row = Some m' ->
  Forall (fun kv => is_word_str (snd kv) = true) m'.
Proof.
  intros Hm. unfold uidl_row.
  pose proof (py_split_words row) as Hw.
  destruct (py_split row) as [|p0 [|p1 r]]; try (intros [= <-]; exact Hm).
  destruct (py_int p0); [|discriminate]. intros [= <-].
  constructor; [|exact Hm]. inversion Hw as [|? ? _ Hw1]; subst.
  now inversion Hw1.
Qed.

Lemma build_uidl_map_words rows : forall m m',
  Forall (fun kv => is_word_str (snd kv) = true) m ->
  build_uidl_map m rows = Some m' ->
  Forall (fun kv => is_word_str (snd kv) = true) m'.
Proof.
  induction rows as [|row rows IH]; intros m m' Hm; cbn [build_uidl_map].
  - now intros [= <-].
  - destruct (uidl_row m row) as [m1|] eqn:E; [|discriminate].
    apply IH. eapply uidl_row_words; eassumption.
Qed.

Lemma dict_get_in key d v : dict_get key d = Some v -> exists k, In (k, v) d.
Proof.
  induction d as [|[k w] d IH]; [discriminate|]. cbn [dict_get].
  destruct (Z.eqb k key).
  - intros [= ->]. exists k. now left.
  - intros H. destruct (IH H) as [k' Hk]. exists k'. now right.
Qed.

Lemma uidl_of_word rows m i :
  build_uidl_map [] rows = Some m -> is_word_str (uidl_of m i) = true.
Proof.
  intros Hb. unfold uidl_of.
  destruct (dict_get i m) as [v|] eqn:E; cbn [default].
  - destruct (dict_get_in _ _ _ E) as [k Hk].
    pose proof (build_uidl_map_words rows [] m (List.Forall_nil _) Hb)
      as Hall.
    rewrite Forall_forall in Hall.
    apply (Hall (k, v)). now apply list_elem_of_In.
  - pose proof (str_int_word i) as [_ Hd]%andb_true_iff.
    cbn [String.append nonempty andb Str.forallb].
    now rewrite Hd.
Qed.

(** Every identity key the POP3 loop gives a message - the key the
    server listed for its number, or [NOUIDL-] and the number - is not
    empty and holds no white space, so it is a key the state file
    keeps. *)
Theorem uidl_keys_clean :
  forall (rows : list string) (uidl_map : list (Z * string)) (i : Z),
    build_uidl_map [] rows = Some uidl_map ->
    nonempty (uidl_of uidl_map i) = true
    /\ Str.forallb non_space (uidl_of uidl_map i) = true
    /\ clean_id (uidl_of uidl_map i) = true.
Proof.
  intros rows m i Hb. pose proof (uidl_of_word rows m i Hb) as Hw.
  pose proof (word_clean _ Hw) as Hc.
  apply andb_true_iff in Hw as [Hn Hs]. auto.
Qed.

Lemma uidl_keys_clean_witness :
  nonempty (uidl_of [(2, "def"); (1, "abc")]%Z 3) = true
  /\ Str.forallb non_space (uidl_of [(2, "def"); (1, "abc")]%Z 3) = true
  /\ clean_id (uidl_of [(2, "def"); (1, "abc")]%Z 3) = true.
Proof.
  apply (uidl_keys_clean ["1 abc"; ""; "2 def trailing"]
                         [(2, "def"); (1, "abc")]%Z 3).
  reflexivity.
Defined.

(** The loop visits the last [max_fetch] messages of the mailbox, all of
    them when there are fewer, in ascending order; a limit of zero or
    less makes it visit none. *)
Theorem fetch_range_window :
  forall total max_fetch : Z,
    (1 <= total)%Z ->
    let k := Z.max 0 (Z.min total max_fetch) in
    fetch_range total max_fetch = seqZ (total + 1 - k) k
    /\ (forall i, In i (fetch_range total max_fetch)
                  <-> (total - k < i <= total)%Z).
Proof.
  intros total mf Ht k.
  assert (fetch_range total mf = seqZ (total + 1 - k) k) as Heq.
  { unfold fetch_range. subst k.
    destruct (Z_le_gt_dec mf 0) as [Hle|Hgt].
    - rewrite !seqZ_nil by lia. reflexivity.
    - f_equal; lia. }
  split; [exact Heq|]. intros i.
  rewrite Heq, <- list_elem_of_In, elem_of_seqZ. lia.
Qed.

Lemma fetch_range_window_witness :
  fetch_range 5 2 = seqZ (5 + 1 - Z.max 0 (Z.min 5 2)) (Z.max 0 (Z.min 5 2)).
Proof. refine (proj1 (fetch_range_window 5 2 _)). lia. Defined.

Lemma member_In x s : member x s = true <-> In x s.
Proof.
  unfold member. rewrite existsb_exists. split.
  - intros (y & Hy & E). apply String.eqb_eq in E. now subst.
  - intros H. exists x. split; [exact H|apply String.eqb_refl].
Qed.

(** With [local_dedupe] on, a message whose key one run has saved is
    passed over by the next run: [load_state] finds the key in the state
    file, on the same list of the server. *)
Theorem saved_messages_are_skipped :
  forall (windows : bool) (rows : list string) (uidl_map : list (Z * string))
         (written : list Z) (file : option string) (next : list Z) (i : Z),
    build_uidl_map [] rows = Some uidl_map ->
    In i written ->
    let saved :=
      save_state true windows (List.map (uidl_of uidl_map) written) file in
    ~ In i (not_yet_processed true (load_state true saved) uidl_map next).
Proof.
  intros windows rows m written file next i Hb Hi saved Hn.
  unfold not_yet_processed in Hn. apply filter_In in Hn as [_ Hn].
  cbn [andb] in Hn. apply negb_true_iff in Hn.
  assert (member (uidl_of m i) (load_state true saved) = true) as Hm;
    [|congruence].
  apply member_In. subst saved.
  apply (state_round_trip_in windows (List.map (uidl_of m) written) file).
  - intros Hnil. apply (f_equal (@length _)) in Hnil.
    rewrite length_map in Hnil. destruct written; [destruct Hi|discriminate].
  - apply Forall_forall. intros x Hx. apply list_elem_of_In in Hx.
    apply in_map_iff in Hx as (j & <- & _).
    now apply word_clean, (uidl_of_word rows m j).
  - right. apply in_map_iff. now exists i.
Qed.

Lemma saved_messages_are_skipped_witness :
  ~ In 2%Z
      (not_yet_processed true
         (load_state true
            (save_state true true
               (List.map (uidl_of [(1, "abc")]%Z) [1; 2]%Z) None))
         [(1, "abc")]%Z [1; 2; 3]%Z).
Proof.
  apply (saved_messages_are_skipped true ["1 abc"] [(1, "abc")]%Z
           [1; 2]%Z None [1; 2; 3]%Z 2%Z).
  - reflexivity.
  - right. left. reflexivity.
Defined.
